(** * Tiled-inference chain operators (utils/chain_operators.py)

    A shallow embedding of the operator framework of the manuscript
    detection pipeline: the forward / backward stage contract, the fan-out,
    batching and branching combinators, and the geometric stages.

    Conventions of the embedding.
    - A Python [int] is a [Z].
    - A Python [float] and an element of a torch tensor is a [pyfloat]: a
      rational, or one of the IEEE specials (infinities, not-a-number). The
      operations [fadd], [fsub], [fmul] and [fdiv] are exact; the rounding of
      binary64 and of float32 is a step of its own ([binary64], [binary32]),
      written out where it decides a pixel count or bounds an accuracy: in
      the tile origins of [SplitRegionOperator], the crop of
      [LongRectangleCropOperator], the size and the factors of
      [ResizingImageOperator], the divisions of the backward steps and the
      mean box height. Elsewhere (the grid counts, the ratio tests, the
      scale of [ImgRescaleOperator], the average of box heights) the numbers
      are not rounded. Overflow and the sign of zero are not represented.
    - A Python exception is a constructor of [exn]; a function that can raise
      returns a [result].
    - A detection dictionary is the record [Prediction]: its three tensors and
      a finite map of named scalar attributes.
    - PIL images are records of a width, a height and a pixel function. *)

From Stdlib Require Import ZArith QArith Qround Qabs Qpower Lqa Lia.
From stdpp Require Import base option list gmap strings.

Local Open Scope Z_scope.

(** ** Exceptions and results *)

Inductive exn : Type :=
  | NotEnoughBoxes        (* utils.exceptions.NotEnoughBoxes *)
  | ZeroDivisionError
  | ValueError
  | OverflowError
  | TypeError
  | KeyError
  | IndexError
  | AttributeError
  | NotImplementedError
  | RecursionError.

Inductive result (A : Type) : Type :=
  | Ok (a : A)
  | Raise (e : exn).
Arguments Ok {A} a.
Arguments Raise {A} e.

#[global] Instance result_ret : MRet result := @Ok.
#[global] Instance result_bind : MBind result := λ A B f m,
  match m with
  | Ok a => f a
  | Raise e => Raise e
  end.
#[global] Instance result_fmap : FMap result := λ A B f m,
  match m with
  | Ok a => Ok (f a)
  | Raise e => Raise e
  end.

(** [mapR f l]: the loop [for x in l: out.append(f(x))], which stops at the
    first exception. *)
Fixpoint mapR {A B : Type} (f : A → result B) (l : list A) : result (list B) :=
  match l with
  | [] => Ok []
  | x :: l' => y ← f x; ys ← mapR f l'; Ok (y :: ys)
  end.

(** ** Numbers *)

Inductive pyfloat : Type :=
  | FNum (q : Q)
  | FInf (negative : bool)
  | FNaN.

Definition Qlt_bool (x y : Q) : bool := negb (Qle_bool y x).
Definition Qis_zero (x : Q) : bool := Qeq_bool x 0.

Definition of_int (z : Z) : pyfloat := FNum (inject_Z z).

Definition fneg (x : pyfloat) : pyfloat :=
  match x with
  | FNum q => FNum (- q)
  | FInf s => FInf (negb s)
  | FNaN => FNaN
  end.

Definition fadd (x y : pyfloat) : pyfloat :=
  match x, y with
  | FNaN, _ | _, FNaN => FNaN
  | FNum p, FNum q => FNum (p + q)
  | FInf s, FNum _ | FNum _, FInf s => FInf s
  | FInf s, FInf t => if Bool.eqb s t then FInf s else FNaN
  end.

Definition fsub (x y : pyfloat) : pyfloat := fadd x (fneg y).

Definition fmul (x y : pyfloat) : pyfloat :=
  match x, y with
  | FNaN, _ | _, FNaN => FNaN
  | FNum p, FNum q => FNum (p * q)
  | FInf s, FNum q | FNum q, FInf s =>
      if Qis_zero q then FNaN else FInf (xorb s (Qlt_bool q 0))
  | FInf s, FInf t => FInf (xorb s t)
  end.

(** IEEE division, as torch applies it to tensors: a zero divisor gives an
    infinity or not-a-number, never an exception. *)
Definition fdiv (x y : pyfloat) : pyfloat :=
  match x, y with
  | FNaN, _ | _, FNaN => FNaN
  | FNum p, FNum q =>
      if Qis_zero q
      then (if Qis_zero p then FNaN else FInf (Qlt_bool p 0))
      else FNum (p / q)
  | FNum _, FInf _ => FNum 0
  | FInf s, FNum q => FInf (xorb s (Qlt_bool q 0))
  | FInf _, FInf _ => FNaN
  end.

Definition fis_zero (x : pyfloat) : bool :=
  match x with
  | FNum q => Qis_zero q
  | _ => false
  end.

(** Python's [x / y] on numbers: a zero divisor raises. *)
Definition py_truediv (x y : pyfloat) : result pyfloat :=
  if fis_zero y then Raise ZeroDivisionError else Ok (fdiv x y).

(** [x < y]; every comparison with not-a-number is false. *)
Definition flt (x y : pyfloat) : bool :=
  match x, y with
  | FNaN, _ | _, FNaN => false
  | FNum p, FNum q => Qlt_bool p q
  | FInf s, FNum _ => s
  | FNum _, FInf s => negb s
  | FInf s, FInf t => s && negb t
  end.

(** [x <= y]; every comparison with not-a-number is false. *)
Definition fle (x y : pyfloat) : bool :=
  match x, y with
  | FNaN, _ | _, FNaN => false
  | FNum p, FNum q => Qle_bool p q
  | FInf s, FNum _ => s
  | FNum _, FInf s => negb s
  | FInf s, FInf t => s || negb t
  end.

(** Truncation toward zero of a rational. *)
Definition Qtrunc (q : Q) : Z := Z.quot (Qnum q) (Z.pos (Qden q)).

(** [int(x)] *)
Definition py_int (x : pyfloat) : result Z :=
  match x with
  | FNum q => Ok (Qtrunc q)
  | FInf _ => Raise OverflowError
  | FNaN => Raise ValueError
  end.

(** [math.ceil(x)] *)
Definition math_ceil (x : pyfloat) : result Z :=
  match x with
  | FNum q => Ok (Qceiling q)
  | FInf _ => Raise OverflowError
  | FNaN => Raise ValueError
  end.

(** ** Rounding

    Python computes on binary64 numbers and torch, here, on float32 tensors.
    Where a result is turned into a pixel count by [int], or where the
    accuracy of a result is what a property is about, the operation is
    followed by the rounding that the interpreter applies. *)

(** Rounding to the nearest integer, ties to the even one. *)
Definition round_half_even (q : Q) : Z :=
  let f := Qfloor q in
  match (q - inject_Z f ?= 1 # 2)%Q with
  | Lt => f
  | Gt => f + 1
  | Eq => if Z.even f then f else f + 1
  end.

Definition pow2 (e : Z) : Q := (2 ^ e)%Q.

(** The exponent [e] of the last place of a significand of [prec] bits:
    [2^(prec - 1 + e) <= |q| < 2^(prec + e)]. *)
Definition ulp_exponent (prec : Z) (q : Q) : Z :=
  let e0 := Z.log2 (Z.abs (Qnum q)) - Z.log2 (Z.pos (Qden q)) - prec in
  if Qle_bool (pow2 (prec + e0)) (Qabs q) then e0 + 1 else e0.

(** Rounding to the nearest number with a significand of [prec] bits, ties
    to even; the exponent range is not bounded. *)
Definition round_to (prec : Z) (q : Q) : Q :=
  if Qis_zero q then 0%Q
  else
    let p := pow2 (ulp_exponent prec q) in
    Qred (inject_Z (round_half_even (q / p)) * p).

Definition binary64 : Q → Q := round_to 53.
Definition binary32 : Q → Q := round_to 24.

(** A float rounded by [r]; the specials stay as they are. *)
Definition fround (r : Q → Q) (x : pyfloat) : pyfloat :=
  match x with
  | FNum q => FNum (r q)
  | _ => x
  end.

(** [t / s] of an element of a float32 tensor by a Python float: torch takes
    the scalar to the precision of the tensor, divides and rounds. *)
Definition tensor_div (x s : pyfloat) : pyfloat :=
  fround binary32 (fdiv x (fround binary32 s)).

(** Equality of floats up to the representation of a rational. *)
Definition feq (x y : pyfloat) : Prop :=
  match x, y with
  | FNum p, FNum q => Qeq p q
  | FInf s, FInf t => s = t
  | FNaN, FNaN => True
  | _, _ => False
  end.

(** ** Images (the PIL collaborator) *)

Definition color : Type := Z * Z * Z.

Record Image : Type := mkImage {
  width : Z;
  height : Z;
  getpixel : Z → Z → color
}.

Definition in_range (lo n i : Z) : bool := (lo <=? i) && (i <? lo + n).

(** [Image.new(mode, size, color)]; PIL refuses a negative size. *)
Definition Image_new (size : Z * Z) (fill : color) : result Image :=
  if (size.1 <? 0) || (size.2 <? 0) then Raise ValueError
  else Ok (mkImage size.1 size.2 (λ _ _, fill)).

(** [canvas.paste(im, (x, y))]: the canvas after the in-place paste. *)
Definition Image_paste (canvas im : Image) (at_ : Z * Z) : Image :=
  mkImage (width canvas) (height canvas)
    (λ i j, if in_range at_.1 (width im) i && in_range at_.2 (height im) j
            then getpixel im (i - at_.1) (j - at_.2)
            else getpixel canvas i j).

(** [im.crop((x0, y0, x1, y1))]; pixels outside the source are black. *)
Definition Image_crop (im : Image) (box : Z * Z * Z * Z) : Image :=
  let '(x0, y0, x1, y1) := box in
  mkImage (x1 - x0) (y1 - y0)
    (λ i j, if in_range 0 (width im) (i + x0) && in_range 0 (height im) (j + y0)
            then getpixel im (i + x0) (j + y0)
            else (0, 0, 0)).

(** ** SplitRegionOperator: the tiling grid *)

Record SplitRegionOperator : Type := mkSplitRegion {
  image_size : Z;
  sr_merge_iou_threshold : Q;
  sr_fill : color
}.

(** One dimension of [split_region]:
    [n = d / size; n = math.ceil(n if n < 1 else n + 0.5)]. *)
Definition split_count (d size : Z) : result Z :=
  n ← py_truediv (of_int d) (of_int size);
  math_ceil (if flt n (of_int 1) then n else fadd n (FNum (1 # 2))).

Definition split_region (w h size : Z) : result (Z * Z) :=
  n_rows ← split_count h size;
  n_cols ← split_count w size;
  Ok (n_rows, n_cols).

(** [int_truediv a b]: Python's [a / b] on two ints. *)
Definition int_truediv (a b : Z) : result pyfloat :=
  py_truediv (of_int a) (of_int b).

(** The spacing of tile origins along one axis:
    [0 if n < 2 else (canvas - size) / (n - 1)], a binary64 quotient. *)
Definition tile_gap (n canvas size : Z) : result pyfloat :=
  if n <? 2 then Ok (of_int 0)
  else fround binary64 <$> int_truediv (canvas - size) (n - 1).

(** The body of the double loop of [forward]: the tile at [(row, col)] and
    its origin on the canvas, [int(col * gap_w)] and [int(row * gap_h)], the
    products being rounded to binary64 before they are truncated. *)
Definition split_tile (self : SplitRegionOperator) (new_img : Image)
    (n_rows n_cols : Z) (rc : Z * Z) : result (Image * (Z * Z)) :=
  let '(row, col) := rc in
  gap_w ← tile_gap n_cols (width new_img) (image_size self);
  gap_h ← tile_gap n_rows (height new_img) (image_size self);
  part_x ← py_int (fround binary64 (fmul (of_int col) gap_w));
  part_y ← py_int (fround binary64 (fmul (of_int row) gap_h));
  let img := Image_crop new_img
               (part_x, part_y, part_x + image_size self, part_y + image_size self) in
  Ok (img, (part_x, part_y)).

(** [range(n_rows)] by [range(n_cols)], row-major. *)
Definition grid_cells (n_rows n_cols : Z) : list (Z * Z) :=
  row ← seqZ 0 n_rows; col ← seqZ 0 n_cols; [(row, col)].

(** The canvas side along one axis:
    [max((n * size - d) // 5 + d, size)]. *)
Definition canvas_side (n size d : Z) : Z :=
  Z.max ((n * size - d) `div` 5 + d) size.

(** The canvas of [forward] with the image pasted on it, and where the
    image was pasted:
    [new_img = Image.new('RGB', (big_img_w, big_img_h), color=self.fill)]
    [x, y = (new_img.width - image.width) // 2, (new_img.height - image.height) // 2]
    [new_img.paste(image, (x, y))] *)
Definition SplitRegion_canvas (self : SplitRegionOperator) (image : Image)
    (n_rows n_cols : Z) : result (Image * (Z * Z)) :=
  let big_img_w := canvas_side n_cols (image_size self) (width image) in
  let big_img_h := canvas_side n_rows (image_size self) (height image) in
  new_img ← Image_new (big_img_w, big_img_h) (sr_fill self);
  let x := (width new_img - width image) `div` 2 in
  let y := (height new_img - height image) `div` 2 in
  Ok (Image_paste new_img image (x, y), (x, y)).

Definition SplitRegion_forward (self : SplitRegionOperator) (image : Image)
    : result (list Image * (list (Z * Z) * (Z * Z))) :=
  '(n_rows, n_cols) ← split_region (width image) (height image) (image_size self);
  '(new_img, start_point) ← SplitRegion_canvas self image n_rows n_cols;
  parts ← mapR (split_tile self new_img n_rows n_cols) (grid_cells n_rows n_cols);
  Ok (parts.*1, (parts.*2, start_point)).

(** ** Detection sets *)

Record Box : Type := mkBox {
  xmin : pyfloat;
  ymin : pyfloat;
  xmax : pyfloat;
  ymax : pyfloat
}.

(** The dictionary a detection model returns: ['boxes'], ['labels'],
    ['scores'], and the scalar attributes added along the pipeline
    (['box_height']). *)
Record Prediction : Type := mkPrediction {
  boxes : list Box;
  labels : list Z;
  scores : list pyfloat;
  attrs : gmap string pyfloat
}.

Definition set_boxes (p : Prediction) (bs : list Box) : Prediction :=
  mkPrediction bs (labels p) (scores p) (attrs p).

Definition set_attr (p : Prediction) (k : string) (v : pyfloat) : Prediction :=
  mkPrediction (boxes p) (labels p) (scores p) (<[k := v]> (attrs p)).

(** [prediction[k]] for an attribute. *)
Definition get_attr (p : Prediction) (k : string) : result pyfloat :=
  match attrs p !! k with
  | Some v => Ok v
  | None => Raise KeyError
  end.

(** Modelled from the spec: [utils.transforms.shift_coordinates] is not
    among the sources. The spec shifts boxes "by the offset to restore
    original frame", the offset being where the child frame originates in its
    parent: the offset is subtracted from every corner. *)
Definition shift_coordinates (bs : list Box) (offset_x offset_y : Z) : list Box :=
  map (λ b, mkBox (fsub (xmin b) (of_int offset_x)) (fsub (ymin b) (of_int offset_y))
                  (fsub (xmax b) (of_int offset_x)) (fsub (ymax b) (of_int offset_y))) bs.

Definition fmax (x y : pyfloat) : pyfloat := if flt x y then y else x.
Definition fmin (x y : pyfloat) : pyfloat := if flt y x then y else x.

Definition box_area (b : Box) : pyfloat :=
  fmul (fsub (xmax b) (xmin b)) (fsub (ymax b) (ymin b)).

(** Modelled from the spec: intersection over union, "ratio of overlap area
    to union area between two boxes". *)
Definition box_iou (a b : Box) : pyfloat :=
  let iw := fmax (of_int 0) (fsub (fmin (xmax a) (xmax b)) (fmax (xmin a) (xmin b))) in
  let ih := fmax (of_int 0) (fsub (fmin (ymax a) (ymax b)) (fmax (ymin a) (ymin b))) in
  let inter := fmul iw ih in
  fdiv inter (fsub (fadd (box_area a) (box_area b)) inter).

(** One detection: a box with its label and score. *)
Abbreviation detection := (Box * Z * pyfloat)%type.

Definition detections (p : Prediction) : list detection :=
  zip (zip (boxes p) (labels p)) (scores p).

Definition duplicate (iou_threshold : Q) (d1 d2 : detection) : bool :=
  flt (FNum iou_threshold) (box_iou d1.1.1 d2.1.1).

(** A detection of the first set is dropped when a duplicate in the second
    set scores strictly higher. *)
Definition keep_first (iou_threshold : Q) (second : list detection) (d1 : detection) : bool :=
  negb (existsb (λ d2, duplicate iou_threshold d1 d2 && flt d1.2 d2.2) second).

(** A detection of the second set is dropped when it has a duplicate in the
    first set that it does not beat: on a tie the first one met stays. *)
Definition keep_second (iou_threshold : Q) (first : list detection) (d2 : detection) : bool :=
  negb (existsb (λ d1, duplicate iou_threshold d1 d2 && negb (flt d1.2 d2.2)) first).

(** Modelled from the spec: [utils.transforms.merge_prediction] is not among
    the sources. Per the spec's merge algorithm, every box of one set is
    compared with every box of the other; a pair whose IoU exceeds the
    threshold is one physical detection, of which the higher-scoring box
    stays with its label and score, ties going to the set met first. The
    spec names no attribute of the merged set; the model gives it none. *)
Definition merge_prediction (p1 p2 : Prediction) (iou_threshold : Q) : Prediction :=
  let ds := List.filter (keep_first iou_threshold (detections p2)) (detections p1)
            ++ List.filter (keep_second iou_threshold (detections p1)) (detections p2) in
  mkPrediction (ds.*1.*1) (ds.*1.*2) (ds.*2) ∅.

(** ** SplitRegionOperator: reassembly *)

(** One turn of the loop of [backward]; [all_predictions] is [None] before
    the first turn. *)
Definition SplitRegion_merge_step (self : SplitRegionOperator)
    (all_predictions : option Prediction) (item : Prediction * (Z * Z)) : option Prediction :=
  let '(predictions, start_points) := item in
  let predictions :=
    set_boxes predictions
      (shift_coordinates (boxes predictions) (- start_points.1) (- start_points.2)) in
  match all_predictions with
  | None => Some predictions
  | Some all_predictions =>
      Some (merge_prediction all_predictions predictions (sr_merge_iou_threshold self))
  end.

Definition SplitRegion_backward (self : SplitRegionOperator) (data : list Prediction)
    (addition : list (Z * Z) * (Z * Z)) : result Prediction :=
  let '(all_start_points, start_point) := addition in
  match fold_left (SplitRegion_merge_step self) (zip data all_start_points) None with
  | None => Raise TypeError   (* None['boxes'] *)
  | Some all_predictions =>
      Ok (set_boxes all_predictions
            (shift_coordinates (boxes all_predictions) start_point.1 start_point.2))
  end.

(** ** BoxHeightPredictionOperator *)

Record BoxHeightPredictionOperator : Type := mkBoxHeightPrediction {
  min_boxes_count : Z
}.

(** [t.mean()] of a one-dimensional float32 tensor: not-a-number when it is
    empty, the sum of the elements over their number otherwise, as a
    float32. The sum is rounded once, with the quotient; the roundings of
    torch's running sum, which depend on the order in which it adds, are
    not represented. *)
Definition tensor_mean (t : list pyfloat) : pyfloat :=
  fround binary32 (fdiv (fold_left fadd t (of_int 0)) (of_int (Z.of_nat (length t)))).

(** [boxes[:, 3] - boxes[:, 1]] *)
Definition box_heights (bs : list Box) : list pyfloat :=
  map (λ b, fsub (ymax b) (ymin b)) bs.

Definition BoxHeightPrediction_backward (self : BoxHeightPredictionOperator)
    (prediction : Prediction) (addition : unit) : result Prediction :=
  if Z.of_nat (length (boxes prediction)) <? min_boxes_count self
  then Raise NotEnoughBoxes
  else Ok (set_attr prediction "box_height" (tensor_mean (box_heights (boxes prediction)))).

(** ** LongRectangleCropOperator *)

Record LongRectangleCropOperator : Type := mkLongRectangleCrop {
  ratio_threshold : Q;
  split_at : Q;
  lrc_merge_iou_threshold : Q
}.

(** [sum(xs) / len(xs)]: the sum starts from the int [0]; with no element
    the division is of two ints and raises. *)
Definition py_average (xs : list pyfloat) : result pyfloat :=
  match xs with
  | [] => Raise ZeroDivisionError
  | _ => Ok (fdiv (fold_left fadd xs (of_int 0)) (of_int (Z.of_nat (length xs))))
  end.

Definition LongRectangleCrop_backward (self : LongRectangleCropOperator)
    (data : list Prediction) (all_start_points : list (Z * Z)) : result pyfloat :=
  box_heights ← mapR (λ item : Prediction * (Z * Z), get_attr item.1 "box_height")
                     (zip data all_start_points);
  py_average box_heights.

(** The two crops of [LongRectangleCropOperator.forward] along the vertical
    axis: [new_height = int(self.split_at * image.height)], the first crop
    from the top, the second one ending at the bottom. [split_at] is held as
    a binary64 number and the product is rounded before it is truncated. *)
Definition split_horizontally (self : LongRectangleCropOperator) (image : Image)
    : result (list Image * list (Z * Z)) :=
  let new_width := width image in
  new_height ← py_int (fround binary64
                         (fmul (FNum (binary64 (split_at self))) (of_int (height image))));
  let first := Image_crop image (0, 0, 0 + new_width, 0 + new_height) in
  let min_y := height image - new_height in
  let second := Image_crop image (0, min_y, 0 + new_width, min_y + new_height) in
  Ok ([first; second], [(0, 0); (0, min_y)]).

(** The same along the horizontal axis. *)
Definition split_vertically (self : LongRectangleCropOperator) (image : Image)
    : result (list Image * list (Z * Z)) :=
  let new_height := height image in
  new_width ← py_int (fround binary64
                        (fmul (FNum (binary64 (split_at self))) (of_int (width image))));
  let first := Image_crop image (0, 0, 0 + new_width, 0 + new_height) in
  let min_x := width image - new_width in
  let second := Image_crop image (min_x, 0, min_x + new_width, 0 + new_height) in
  Ok ([first; second], [(0, 0); (min_x, 0)]).

(** [LongRectangleCropOperator.forward] *)
Definition LongRectangleCrop_forward (self : LongRectangleCropOperator) (image : Image)
    : result (list Image * list (Z * Z)) :=
  tall ← int_truediv (height image) (width image);
  if fle (FNum (ratio_threshold self)) tall
  then split_horizontally self image
  else
    wide ← int_truediv (width image) (height image);
    if fle (FNum (ratio_threshold self)) wide
    then split_vertically self image
    else Ok ([image], [(0, 0)]).

(** ** Stages that resize *)

Record ResizingImageOperator : Type := mkResizingImage {
  image_max_size : Q
}.

Record ImgRescaleOperator : Type := mkImgRescale {
  ref_box_height : Q
}.

(** [boxes[:, 0] /= w; boxes[:, 1] /= h; boxes[:, 2] /= w; boxes[:, 3] /= h],
    divisions of float32 columns by Python floats. *)
Definition divide_boxes (bs : list Box) (w h : pyfloat) : list Box :=
  map (λ b, mkBox (tensor_div (xmin b) w) (tensor_div (ymin b) h)
                  (tensor_div (xmax b) w) (tensor_div (ymax b) h)) bs.

Definition ResizingImage_backward (self : ResizingImageOperator)
    (prediction : Prediction) (factor : pyfloat * pyfloat) : result Prediction :=
  let '(factor_w, factor_h) := factor in
  let prediction := set_boxes prediction (divide_boxes (boxes prediction) factor_w factor_h) in
  box_height ← get_attr prediction "box_height";
  Ok (set_attr prediction "box_height" (tensor_div box_height factor_h)).

Definition ImgRescale_backward (self : ImgRescaleOperator)
    (prediction : Prediction) (addition : pyfloat * pyfloat) : result Prediction :=
  let '(scale_w, scale_h) := addition in
  Ok (set_boxes prediction (divide_boxes (boxes prediction) scale_w scale_h)).

Section Resize.
(** [im.resize((w, h))]: PIL's resampling is a collaborator, taken as a
    parameter of which nothing is assumed. *)
Variable Image_resize : Image → Z * Z → result Image.

(** [(int(image.width * s), int(image.height * s))] *)
Definition scaled_size (image : Image) (s : pyfloat) : result (Z * Z) :=
  w ← py_int (fmul (of_int (width image)) s);
  h ← py_int (fmul (of_int (height image)) s);
  Ok (w, h).

(** [(new.width / image.width, new.height / image.height)] *)
Definition size_ratio (new image : Image) : result (pyfloat * pyfloat) :=
  rw ← int_truediv (width new) (width image);
  rh ← int_truediv (height new) (height image);
  Ok (rw, rh).

(** [ResizingImageOperator.forward]; the quotients and the products are
    binary64 numbers, so that [int(image.width * factor)] can fall one
    short of [image_max_size]. *)
Definition ResizingImage_forward (self : ResizingImageOperator) (image : Image)
    : result (Image * (pyfloat * pyfloat)) :=
  let image_max_size := FNum (binary64 (image_max_size self)) in
  factor ← fround binary64 <$>
             (if height image >? width image
              then py_truediv image_max_size (of_int (height image))
              else py_truediv image_max_size (of_int (width image)));
  w ← py_int (fround binary64 (fmul (of_int (width image)) factor));
  h ← py_int (fround binary64 (fmul (of_int (height image)) factor));
  resized_img ← Image_resize image (w, h);
  factor_w ← fround binary64 <$> int_truediv (width resized_img) (width image);
  factor_h ← fround binary64 <$> int_truediv (height resized_img) (height image);
  Ok (resized_img, (factor_w, factor_h)).

Definition ImgRescale_forward (self : ImgRescaleOperator) (data : Image * Prediction)
    : result (Image * (pyfloat * pyfloat)) :=
  let '(image, prediction) := data in
  box_height ← get_attr prediction "box_height";
  scale ← py_truediv (FNum (ref_box_height self)) box_height;
  size ← scaled_size image scale;
  new_img ← Image_resize image size;
  out_scale ← size_ratio new_img image;
  Ok (new_img, out_scale).
End Resize.

(** ** PaddingImageOperator *)

Record PaddingImageOperator : Type := mkPaddingImage {
  padding_size : Z;
  padding_color : color
}.

Definition PaddingImage_forward (self : PaddingImageOperator) (image : Image)
    : result (Image * (Z * Z)) :=
  let right := padding_size self in
  let left := padding_size self in
  let top := padding_size self in
  let bottom := padding_size self in
  let new_width := width image + right + left in
  let new_height := height image + top + bottom in
  result ← Image_new (new_width, new_height) (padding_color self);
  Ok (Image_paste result image (left, top), (left, top)).

Definition PaddingImage_backward (self : PaddingImageOperator)
    (prediction : Prediction) (start_point : Z * Z) : Prediction :=
  let '(x, y) := start_point in
  set_boxes prediction (shift_coordinates (boxes prediction) x y).

(** [BoxHeightPredictionOperator.forward]; the detection model is a
    collaborator that maps a batch of images to one prediction per image. *)
Definition BoxHeightPrediction_forward (region_model : list Image → result (list Prediction))
    (image : Image) : result (Prediction * unit) :=
  predictions ← region_model [image];
  match predictions with
  | p :: _ => Ok (p, ())
  | [] => Raise IndexError
  end.

(** ** LetterDetectionOperator *)

(** [LetterDetectionOperator.forward]:
    [predictions = self.letter_model.forward([self.to_tensor(x) for x in images])]
    [return predictions, None]; the detection model is a collaborator that
    maps a batch of images to a list of predictions. *)
Definition LetterDetection_forward (letter_model : list Image → result (list Prediction))
    (images : list Image) : result (list Prediction * unit) :=
  predictions ← letter_model images;
  Ok (predictions, ()).

(** [LetterDetectionOperator.backward]: [return prediction] *)
Definition LetterDetection_backward {A : Type} (prediction : A) (addition : unit) : A :=
  prediction.

(** ** The operator framework *)

(** The values that flow through a pipeline. *)
#[warnings="-register-all"]
Inductive value : Type :=
  | VNone
  | VInt (z : Z)
  | VFloat (x : pyfloat)
  | VTuple (items : list value)
  | VList (items : list value)
  | VImage (im : Image)
  | VPred (p : Prediction).

(** The items of a sequence, as [for item in data] and slicing see them.
    Only lists and tuples are sequences here: no operator iterates over a
    dictionary or an image. *)
Definition py_iter (data : value) : result (list value) :=
  match data with
  | VList items | VTuple items => Ok items
  | _ => Raise TypeError
  end.

(** Every [ChainOperator.__call__] that starts takes the next invocation
    number; [Forward k a] records that the forward step of invocation [k]
    returned the context [a], and [Backward k a] that the backward step of
    invocation [k] was entered with the context [a]. Numbers and events are
    observations of the run: no operator reads them. *)
Inductive event : Type :=
  | Forward (invocation : nat) (addition : value)
  | Backward (invocation : nat) (addition : value).

(** Operator objects live at addresses; [fields] holds the mutable instance
    attribute [self.data] of the objects that have one. *)
Record state : Type := mkState {
  fields : gmap nat value;
  invocations : nat;
  trace : list event
}.

Definition M (A : Type) : Type := state → result (A * state).

#[global] Instance M_ret : MRet M := λ A a s, Ok (a, s).
#[global] Instance M_bind : MBind M := λ A B f m s,
  match m s with
  | Ok (a, s') => f a s'
  | Raise e => Raise e
  end.

Definition raise {A : Type} (e : exn) : M A := λ _, Raise e.

Definition lift {A : Type} (r : result A) : M A := λ s,
  match r with
  | Ok a => Ok (a, s)
  | Raise e => Raise e
  end.

(** Code that sees the instance attributes only. *)
Definition method (A : Type) : Type := gmap nat value → result (A * gmap nat value).

Definition run_method {A : Type} (m : method A) : M A := λ s,
  match m (fields s) with
  | Ok (a, f) => Ok (a, mkState f (invocations s) (trace s))
  | Raise e => Raise e
  end.

Definition get_field (self : nat) : M value := λ s,
  match fields s !! self with
  | Some v => Ok (v, s)
  | None => Ok (VNone, s)       (* __init__ sets self.data = None *)
  end.

Definition set_field (self : nat) (v : value) : M unit := λ s,
  Ok ((), mkState (<[self := v]> (fields s)) (invocations s) (trace s)).

Definition new_invocation : M nat := λ s,
  Ok (invocations s, mkState (fields s) (S (invocations s)) (trace s)).

Definition observe (e : event) : M unit := λ s,
  Ok ((), mkState (fields s) (invocations s) (trace s ++ [e])).

(** [mapM f l]: the loop [for x in l: out.append(f(x))] in [M]. *)
Fixpoint mapM {A B : Type} (f : A → M B) (l : list A) : M (list B) :=
  match l with
  | [] => mret []
  | x :: l' => y ← f x; ys ← mapM f l'; mret (y :: ys)
  end.

(** Anything callable on one argument. *)
Definition operator : Type := value → M value.

(** [ChainOperator.__call__]:
    [data, addition = self.forward(data)]
    [data = self.next_operator(data)]
    [return self.backward(data, addition)] *)
Definition ChainOperator_call
    (forward : value → M (value * value))
    (backward : value → value → M value)
    (next_operator : operator) : operator := λ data,
  k ← new_invocation;
  '(data, addition) ← forward data;
  observe (Forward k addition);;
  data ← next_operator data;
  observe (Backward k addition);;
  backward data addition.

(** [SplittingOperator.__call__] *)
Definition SplittingOperator_call (next_operator : operator) : operator := λ data,
  items ← lift (py_iter data);
  results ← mapM next_operator items;
  mret (VList results).

(** Modelled from the spec: [utils.misc.split_sequence] is not among the
    sources. For a batch size of at least one the items are cut into
    contiguous groups of that many, in order, the last group taking what is
    left; [fuel] bounds the number of groups by the number of items. *)
Fixpoint split_sequence_upto {A : Type} (fuel : nat) (data : list A) (n : nat)
    : list (list A) :=
  match fuel, data with
  | 0%nat, _ | _, [] => []
  | S fuel', _ => take n data :: split_sequence_upto fuel' (drop n data) n
  end.

Definition split_sequence {A : Type} (data : list A) (n : nat) : list (list A) :=
  split_sequence_upto (length data) data n.

(** The loop [for batch in batches: results += self.next_operator(batch)]. *)
Fixpoint run_batches (next_operator : operator) (batches : list (list value))
    (results : list value) : M (list value) :=
  match batches with
  | [] => mret results
  | batch :: batches' =>
      out ← next_operator (VList batch);
      items ← lift (py_iter out);
      run_batches next_operator batches' (results ++ items)
  end.

(** [BatchingOperator.__call__]; the spec leaves a batch size below one
    undefined, and the model raises there. *)
Definition BatchingOperator_call (next_operator : operator) (batch_size : Z)
    : operator := λ data,
  items ← lift (py_iter data);
  if batch_size <? 1 then raise ValueError
  else
    results ← run_batches next_operator (split_sequence items (Z.to_nat batch_size)) [];
    mret (VList results).

(** [FinalOperator.__call__] *)
Definition FinalOperator_call : operator := λ data, mret data.

(** [BranchingOperator.forward]: [self.data = data; return data, None] *)
Definition Branching_forward (self : nat) (data : value) : M (value * value) :=
  set_field self data;;
  mret (data, VNone).

(** [BranchingOperator.backward]:
    [return self.branch_operator((self.data, data))] *)
Definition Branching_backward (self : nat) (branch_operator : operator)
    (data addition : value) : M value :=
  saved ← get_field self;
  branch_operator (VTuple [saved; data]).

Definition BranchingOperator_call (self : nat) (next_operator branch_operator : operator)
    : operator :=
  ChainOperator_call (Branching_forward self) (Branching_backward self branch_operator)
    next_operator.

(** A subclass of [ChainOperator] other than [BranchingOperator]: its two
    methods. The base class raises [NotImplementedError] in both. *)
Record Stage : Type := mkStage {
  forward : value → method (value * value);
  backward : value → value → method value
}.

Definition ChainOperator_base : Stage :=
  mkStage (λ _ _, Raise NotImplementedError) (λ _ _ _, Raise NotImplementedError).

Definition Stage_call (st : Stage) (next_operator : operator) : operator :=
  ChainOperator_call (λ data, run_method (forward st data))
                     (λ data addition, run_method (backward st data addition))
                     next_operator.

(** [PaddingImageOperator] and [BoxHeightPredictionOperator] as stages on
    pipeline values. *)
Definition PaddingImage_stage (self : PaddingImageOperator) : Stage :=
  mkStage
    (λ data f,
       match data with
       | VImage image =>
           r ← PaddingImage_forward self image;
           Ok ((VImage r.1, VTuple [VInt r.2.1; VInt r.2.2]), f)
       | _ => Raise AttributeError
       end)
    (λ data addition f,
       match data, addition with
       | VPred prediction, VTuple [VInt x; VInt y] =>
           Ok (VPred (PaddingImage_backward self prediction (x, y)), f)
       | _, _ => Raise TypeError
       end).

Definition BoxHeightPrediction_stage (region_model : list Image → result (list Prediction))
    (self : BoxHeightPredictionOperator) : Stage :=
  mkStage
    (λ data f,
       match data with
       | VImage image =>
           r ← BoxHeightPrediction_forward region_model image;
           Ok ((VPred r.1, VNone), f)
       | _ => Raise TypeError
       end)
    (λ data addition f,
       match data with
       | VPred prediction =>
           r ← BoxHeightPrediction_backward self prediction ();
           Ok (VPred r, f)
       | _ => Raise TypeError
       end).

(** [self.to_tensor(x)] accepts an image only. *)
Definition as_image (x : value) : result Image :=
  match x with
  | VImage im => Ok im
  | _ => Raise TypeError
  end.

Definition LetterDetection_stage (letter_model : list Image → result (list Prediction))
    : Stage :=
  mkStage
    (λ data f,
       items ← py_iter data;
       images ← mapR as_image items;
       r ← LetterDetection_forward letter_model images;
       Ok ((VList (VPred <$> r.1), VNone), f))
    (λ data addition f, Ok (LetterDetection_backward data (), f)).

(** Pipelines built by the constructors alone: every operator receives its
    [next_operator] when it is made, so no operator is reached from itself
    and a pipeline unfolds into a tree. [self] is the address of a
    [BranchingOperator]; an object that is shared appears more than once,
    with the same address. *)
Inductive pipeline : Type :=
  | FinalOperator
  | ChainStage (st : Stage) (next_operator : pipeline)
  | SplittingOperator (next_operator : pipeline)
  | BatchingOperator (next_operator : pipeline) (batch_size : Z)
  | BranchingOperator (self : nat) (next_operator branch_operator : pipeline).

Fixpoint call (p : pipeline) : operator :=
  match p with
  | FinalOperator => FinalOperator_call
  | ChainStage st next_operator => Stage_call st (call next_operator)
  | SplittingOperator next_operator => SplittingOperator_call (call next_operator)
  | BatchingOperator next_operator batch_size =>
      BatchingOperator_call (call next_operator) batch_size
  | BranchingOperator self next_operator branch_operator =>
      BranchingOperator_call self (call next_operator) (call branch_operator)
  end.

(** Operator objects in general: [next_operator] is an attribute that holds
    a reference, and nothing keeps an assignment after construction from
    closing a cycle. [depth] is the interpreter's recursion limit. *)
Inductive object : Type :=
  | OFinal
  | OStage (st : Stage) (next_operator : nat)
  | OSplitting (next_operator : nat)
  | OBatching (next_operator : nat) (batch_size : Z)
  | OBranching (next_operator branch_operator : nat).

Fixpoint call_object (depth : nat) (heap : gmap nat object) (self : nat) : operator :=
  match depth with
  | 0%nat => λ _, raise RecursionError
  | S depth' =>
      match heap !! self with
      | None => λ _, raise TypeError      (* None is not callable *)
      | Some OFinal => FinalOperator_call
      | Some (OStage st next_operator) =>
          Stage_call st (call_object depth' heap next_operator)
      | Some (OSplitting next_operator) =>
          SplittingOperator_call (call_object depth' heap next_operator)
      | Some (OBatching next_operator batch_size) =>
          BatchingOperator_call (call_object depth' heap next_operator) batch_size
      | Some (OBranching next_operator branch_operator) =>
          BranchingOperator_call self (call_object depth' heap next_operator)
                                 (call_object depth' heap branch_operator)
      end
  end.

Definition initial : state := mkState ∅ 0 [].

(** * The vocabulary of the properties *)

(** ** Grids and tiles *)

(** [n] is the ceiling of [num / den]. *)
Definition is_ceil (num den n : Z) : Prop := (n - 1) * den < num ≤ n * den.

(** The grid count along one axis, in integers: the ceiling of [d / size]
    below one tile, the ceiling of [d / size + 1/2] from one tile on. *)
Definition grid_count (d size n : Z) : Prop :=
  if d <? size then is_ceil d size n else is_ceil (2 * d + size) (2 * size) n.

Definition tile_origin (n canvas size i : Z) : Z :=
  if n <? 2 then 0 else (i * (canvas - size)) `div` (n - 1).

(** The origin of tile [i] along one axis as [forward] computes it:
    [int(i * gap)], with the binary64 gap and the binary64 product. *)
Definition tile_offset (n canvas size i : Z) : Z :=
  if n <? 2 then 0
  else Qtrunc (binary64 (inject_Z i * binary64 (inject_Z (canvas - size) / inject_Z (n - 1)))).

Definition tile_corner (n_rows n_cols canvas_w canvas_h size : Z) (cell : Z * Z) : Z * Z :=
  (tile_offset n_cols canvas_w size cell.2, tile_offset n_rows canvas_h size cell.1).

(** [int(split_at * d)] as [LongRectangleCropOperator.forward] computes it,
    in binary64. *)
Definition split_length (split_at : Q) (d : Z) : Z :=
  Qtrunc (binary64 (binary64 split_at * inject_Z d)).

Definition pasted_pixel (fill : color) (image : Image) (x y u v : Z) : color :=
  if in_range x (width image) u && in_range y (height image) v
  then getpixel image (u - x) (v - y)
  else fill.

(** ** Detection sets *)

(** The first statement of the loop of [SplitRegionOperator.backward]: a
    tile's boxes shifted by the negated origin of the tile. *)
Definition to_canvas_frame (item : Prediction * (Z * Z)) : Prediction :=
  mkPrediction (shift_coordinates (boxes item.1) (- item.2.1) (- item.2.2))
               (labels item.1) (scores item.1) (attrs item.1).

(** The incremental merge: the first set with the second, the result with
    the third, and so on. *)
Definition merge_all (iou_threshold : Q) (first : Prediction)
    (rest : list (Prediction * (Z * Z))) : Prediction :=
  fold_left (λ acc item, merge_prediction acc (to_canvas_frame item) iou_threshold)
            rest first.

Definition box_count (data : list Prediction) : nat :=
  sum_list_with (λ p, length (boxes p)) data.

(** A detection with [fx] applied to the abscissas of its box and [fy] to
    the ordinates; label and score stay. *)
Definition map_box (fx fy : pyfloat → pyfloat) (d : detection) : detection :=
  (mkBox (fx (xmin d.1.1)) (fy (ymin d.1.1)) (fx (xmax d.1.1)) (fy (ymax d.1.1)),
   d.1.2, d.2).

(** The detections of a tile in the frame of the canvas: the origin of the
    tile is added to every corner. *)
Definition canvas_detections (item : Prediction * (Z * Z)) : list detection :=
  map_box (λ x, fadd x (of_int item.2.1)) (λ y, fadd y (of_int item.2.2))
    <$> detections item.1.

(** What one more tile does to the detections kept so far, tile by tile:
    those kept of the earlier tiles are filtered against the new tile, and
    the new tile against all that was kept. *)
Definition merge_kept (iou_threshold : Q) (kept : list (list detection))
    (tile : list detection) : list (list detection) :=
  (List.filter (keep_first iou_threshold tile) <$> kept)
  ++ [List.filter (keep_second iou_threshold (concat kept)) tile].

(** No detection kept of one tile duplicates a detection kept of a later
    tile. *)
Definition cross_free (t : Q) (kept : list (list detection)) : Prop :=
  ∀ i j ki kj d d',
    (i < j)%nat → kept !! i = Some ki → kept !! j = Some kj →
    d ∈ ki → d' ∈ kj → duplicate t d d' = false.

(** [t * s] of an element of a float32 tensor by a Python float, as torch
    computes it. *)
Definition tensor_mul (x s : pyfloat) : pyfloat :=
  fround binary32 (fmul x (fround binary32 s)).

(** A box set of the original frame expressed in the resized frame, as a
    float32 tensor. *)
Definition scale_boxes (bs : list Box) (w h : pyfloat) : list Box :=
  (λ b, mkBox (tensor_mul (xmin b) w) (tensor_mul (ymin b) h)
              (tensor_mul (xmax b) w) (tensor_mul (ymax b) h)) <$> bs.

(** Two finite numbers that differ by at most the fraction [tol] of the
    second. *)
Definition close (tol : Q) (a b : pyfloat) : Prop :=
  match a, b with
  | FNum p, FNum q => (Qabs (p - q) <= tol * Qabs q)%Q
  | _, _ => False
  end.

Definition box_close (tol : Q) (a b : Box) : Prop :=
  close tol (xmin a) (xmin b) ∧ close tol (ymin a) (ymin b) ∧
  close tol (xmax a) (xmax b) ∧ close tol (ymax a) (ymax b).

(** The same coordinate divided: [x] and [xmax] by [w], [y] and [ymax] by
    [h]. *)
Definition box_divided (w h : pyfloat) (b' b : Box) : Prop :=
  xmin b' = tensor_div (xmin b) w ∧ ymin b' = tensor_div (ymin b) h ∧
  xmax b' = tensor_div (xmax b) w ∧ ymax b' = tensor_div (ymax b) h.

(** The tolerance of a float32 round trip: three units in the last place
    of a significand of 24 bits. *)
Definition float32_tolerance : Q := 3 # 16777216.

(** ** Observed runs *)

Section Observations.
Local Open Scope nat_scope.

(** Traces in which every forward step is closed by the backward step of
    the same invocation with the same context, innermost first. *)
Inductive balanced : list event → Prop :=
  | balanced_nil : balanced []
  | balanced_call k a inner rest :
      balanced inner → balanced rest →
      balanced (Forward k a :: inner ++ Backward k a :: rest).

Definition event_invocation (e : event) : nat :=
  match e with
  | Forward k _ | Backward k _ => k
  end.

Definition forward_of (e : event) : option nat :=
  match e with
  | Forward k _ => Some k
  | Backward _ _ => None
  end.

Definition backward_of (e : event) : option nat :=
  match e with
  | Forward _ _ => None
  | Backward k _ => Some k
  end.

(** The invocations whose forward (backward) step a trace records. *)
Definition forward_calls (tr : list event) : list nat := omap forward_of tr.
Definition backward_calls (tr : list event) : list nat := omap backward_of tr.

(** What a completed call adds to the observations: a balanced segment whose
    invocation numbers are fresh. *)
Definition segment (s s' : state) (tr : list event) : Prop :=
  trace s' = trace s ++ tr ∧
  balanced tr ∧
  invocations s ≤ invocations s' ∧
  Forall (λ e, invocations s ≤ event_invocation e < invocations s') tr ∧
  NoDup (forward_calls tr) ∧
  length (forward_calls tr) = invocations s' - invocations s.

Definition disciplined (op : operator) : Prop :=
  ∀ d s r s', op d s = Ok (r, s') → ∃ tr, segment s s' tr.

(** A step that leaves the observations alone. *)
Definition quiet {A : Type} (m : M A) : Prop :=
  ∀ s a s', m s = Ok (a, s') → trace s' = trace s ∧ invocations s' = invocations s.

(** A [BranchingOperator] at address 0 whose [next_operator], a
    [SplittingOperator] at address 1, has the operator at address 0 as its
    own [next_operator]; the join at address 2 is the identity. In Python:
    [s = SplittingOperator(None); b = BranchingOperator(s, FinalOperator());
     s.next_operator = b]. *)
Definition reentrant_heap : gmap nat object :=
  <[0 := OBranching 1 2]> (<[1 := OSplitting 0]> (<[2 := OFinal]> ∅)).




End Observations.

(** ** Boxes with finite corners *)

(** A box with finite corners [(xmin, ymin, xmax, ymax)]. *)
Definition finite_box (c : Q * Q * Q * Q) : Box :=
  mkBox (FNum c.1.1.1) (FNum c.1.1.2) (FNum c.1.2) (FNum c.2).

(** The heights [ymax - ymin] of finite boxes. *)
Definition finite_heights (cs : list (Q * Q * Q * Q)) : list Q :=
  (λ c, c.2 - c.1.1.2)%Q <$> cs.

(** ** Fan-out *)

(** The loop of [SplittingOperator.__call__] as a relation: the items are
    passed to the next operator one after the other, each from the state the
    one before left. *)
Inductive fanned_out (next_operator : operator)
    : state → list value → list value → state → Prop :=
  | fanned_out_nil s : fanned_out next_operator s [] [] s
  | fanned_out_cons s item items out outs s1 s2 :
      next_operator item s = Ok (out, s1) →
      fanned_out next_operator s1 items outs s2 →
      fanned_out next_operator s (item :: items) (out :: outs) s2.

(** ** Example data *)

Definition white : color := (255, 255, 255).

Definition gray_image (w h : Z) : Image := mkImage w h (λ _ _, (128, 128, 128)).

Definition two_boxes : Prediction :=
  mkPrediction
    [mkBox (FNum 2) (FNum 3) (FNum 12) (FNum 23); mkBox (FNum 20) (FNum 5) (FNum 30) (FNum 15)]
    [1; 2] [FNum (9 # 10); FNum (8 # 10)] ∅.

(** A detection model that finds the same two boxes in every image. *)
Definition toy_region_model (images : list Image) : result (list Prediction) :=
  Ok ((λ _, two_boxes) <$> images).

(** A resize that keeps the pixel function and takes the size asked for. *)
Definition plain_resize (image : Image) (size : Z * Z) : result Image :=
  if (size.1 <? 1) || (size.2 <? 1) then Raise ValueError
  else Ok (mkImage size.1 size.2 (getpixel image)).

(** Fan-out over a branch that pads an image and measures box heights on
    the padded image. *)
Definition example_pipeline : pipeline :=
  SplittingOperator
    (BranchingOperator 0
       (ChainStage (PaddingImage_stage (mkPaddingImage 10 white))
          (ChainStage (BoxHeightPrediction_stage toy_region_model (mkBoxHeightPrediction 1))
             FinalOperator))
       FinalOperator).

Definition example_input : value :=
  VList [VImage (gray_image 40 30); VImage (gray_image 20 50)].

(** Padding around the measurement of box heights. *)
Definition measuring_pipeline : pipeline :=
  ChainStage (PaddingImage_stage (mkPaddingImage 10 white))
    (ChainStage (BoxHeightPrediction_stage toy_region_model (mkBoxHeightPrediction 1))
       FinalOperator).

(** Fan-out over a branch that joins every item with itself. *)
Definition pairing_pipeline : pipeline :=
  SplittingOperator (BranchingOperator 0 FinalOperator FinalOperator).

Definition pairing_step (s : state) (item : value) : state :=
  mkState (<[0%nat := item]> (fields s)) (S (invocations s))
          (trace s ++ [Forward (invocations s) VNone; Backward (invocations s) VNone]).

(** A detection model that finds nothing. *)
Definition blind_region_model (images : list Image) : result (list Prediction) :=
  Ok ((λ _, mkPrediction [] [] [] ∅) <$> images).

(** A detection model that takes pairs of images only. *)
Definition pairs_only_model (images : list Image) : result (list Prediction) :=
  if decide (length images = 2%nat) then toy_region_model images else Raise ValueError.

(** * Properties *)

(** ** Arithmetic of the number model *)

Lemma result_bind_Ok {A B : Type} (a : A) (f : A → result B) : (Ok a ≫= f) = f a.
Proof. reflexivity. Qed.

Lemma result_bind_inv {A B : Type} (m : result A) (f : A → result B) (b : B) :
  m ≫= f = Ok b → ∃ a, m = Ok a ∧ f a = Ok b.
Proof. destruct m as [a|e]; [|done]. intros H. by exists a. Qed.

Lemma round_half_even_error (q : Q) :
  (q - (1 # 2) <= inject_Z (round_half_even q) <= q + (1 # 2))%Q.
Proof.
  unfold round_half_even.
  pose proof (Qfloor_le q) as Hl. pose proof (Qlt_floor q) as Hu.
  rewrite inject_Z_plus in Hu. change (inject_Z 1) with 1%Q in Hu.
  destruct (Qcompare_spec (q - inject_Z (Qfloor q)) (1 # 2)) as [E|E|E].
  - destruct (Z.even (Qfloor q)); rewrite ?inject_Z_plus; change (inject_Z 1) with 1%Q;
      split; lra.
  - split; lra.
  - rewrite inject_Z_plus. change (inject_Z 1) with 1%Q. split; lra.
Qed.

Lemma round_half_even_nonneg (q : Q) : (0 <= q)%Q → 0 ≤ round_half_even q.
Proof.
  intros Hq. unfold round_half_even.
  assert (0 ≤ Qfloor q).
  { change 0 with (Qfloor 0). by apply Qfloor_resp_le. }
  destruct (_ ?= _)%Q; [destruct (Z.even _)|..]; lia.
Qed.

Lemma pow2_pos (e : Z) : (0 < pow2 e)%Q.
Proof. apply Qpower_0_lt. reflexivity. Qed.

Lemma pow2_plus (a b : Z) : (pow2 (a + b) == pow2 a * pow2 b)%Q.
Proof. apply Qpower_plus. discriminate. Qed.

Lemma pow2_inject (n : Z) : 0 ≤ n → (pow2 n == inject_Z (2 ^ n))%Q.
Proof.
  intros Hn. unfold pow2. change 2%Q with (inject_Z 2). symmetry. by apply Zpower_Qpower.
Qed.

Lemma pow2_opp (a : Z) : (pow2 a * pow2 (- a) == 1)%Q.
Proof.
  rewrite <- pow2_plus. replace (a + - a) with 0 by lia. reflexivity.
Qed.

Lemma Qfrac_le (a b n : Z) (d : positive) :
  0 < b → a * Z.pos d ≤ n * b → (inject_Z a / inject_Z b <= n # d)%Q.
Proof.
  intros Hb H. destruct b as [|b|b]; try lia.
  unfold Qle, Qdiv, Qmult, Qinv, inject_Z; simpl. lia.
Qed.

(** The significand of a number that is not zero has its full length. *)
Lemma ulp_exponent_lower (prec : Z) (q : Q) :
  ¬ (q == 0)%Q → (pow2 (prec - 1 + ulp_exponent prec q) <= Qabs q)%Q.
Proof.
  intros Hq. unfold ulp_exponent.
  set (n := Z.abs (Qnum q)). set (d := Z.pos (Qden q)).
  destruct (Qle_bool _ _) eqn:E.
  - apply Qle_bool_iff in E.
    replace (prec - 1 + (Z.log2 n - Z.log2 d - prec + 1))
      with (prec + (Z.log2 n - Z.log2 d - prec)) by lia.
    exact E.
  - replace (prec - 1 + (Z.log2 n - Z.log2 d - prec))
      with (Z.log2 n - (Z.log2 d + 1)) by lia.
    assert (Hm : (pow2 (Z.log2 n - (Z.log2 d + 1))
                  == pow2 (Z.log2 n) / pow2 (Z.log2 d + 1))%Q)
      by (apply Qpower_minus; discriminate).
    rewrite Hm.
    assert (Hn : 0 < n).
    { subst n. destruct q as [[|a|a] b]; simpl; try lia. exfalso. apply Hq. reflexivity. }
    pose proof (Z.log2_nonneg n). pose proof (Z.log2_nonneg d).
    rewrite !pow2_inject by lia.
    destruct (Z.log2_spec n Hn) as [Hn1 _].
    destruct (Z.log2_spec d) as [_ Hd2]; [subst d; lia|].
    replace (Z.succ (Z.log2 d)) with (Z.log2 d + 1) in Hd2 by lia.
    assert (Hp : 0 < 2 ^ (Z.log2 d + 1)) by (apply Z.pow_pos_nonneg; lia).
    assert (Habs : Qabs q = n # Qden q) by (by destruct q).
    rewrite Habs. apply Qfrac_le; [done|]. fold d. nia.
Qed.

(** The relative error of rounding is at most [2^-prec]. *)
Lemma round_to_error (prec : Z) (q : Q) :
  (Qabs (round_to prec q - q) <= Qabs q * pow2 (- prec))%Q.
Proof.
  unfold round_to. destruct (Qis_zero q) eqn:Z0.
  { apply Qeq_bool_iff in Z0. rewrite Z0. change (Qabs 0) with 0%Q.
    apply Qabs_Qle_condition. split; lra. }
  assert (Hq : ¬ (q == 0)%Q).
  { intros E. apply Qeq_bool_iff in E. unfold Qis_zero in Z0. congruence. }
  cbv zeta. rewrite Qred_correct.
  set (e := ulp_exponent prec q).
  pose proof (ulp_exponent_lower prec q Hq) as Hlow. fold e in Hlow.
  pose proof (pow2_pos e) as Hp. pose proof (pow2_pos (- prec)) as Hu.
  pose proof (round_half_even_error (q / pow2 e)) as [H1 H2].
  set (m := inject_Z (round_half_even (q / pow2 e))) in *.
  assert (Hqp : (q == (q / pow2 e) * pow2 e)%Q) by (field; lra).
  set (x := (q / pow2 e)%Q) in *.
  replace (prec - 1 + e) with (prec + (-1 + e)) in Hlow by lia.
  rewrite !pow2_plus in Hlow.
  assert (Hhalf : (pow2 (-1) == 1 # 2)%Q) by reflexivity.
  pose proof (pow2_opp prec) as Hone. pose proof (pow2_pos prec) as Hpp.
  apply Qabs_Qle_condition.
  assert (Hb : (pow2 e * (1 # 2) <= Qabs q * pow2 (- prec))%Q).
  { rewrite Hhalf in Hlow.
    assert ((pow2 prec * ((1 # 2) * pow2 e)) * pow2 (- prec) <= Qabs q * pow2 (- prec))%Q
      by (apply Qmult_le_compat_r; lra).
    assert ((pow2 prec * ((1 # 2) * pow2 e)) * pow2 (- prec)
            == (pow2 prec * pow2 (- prec)) * ((1 # 2) * pow2 e))%Q by ring.
    rewrite Hone in H0. lra. }
  assert ((m - x) * pow2 e <= (1 # 2) * pow2 e)%Q by (apply Qmult_le_compat_r; lra).
  assert (- (1 # 2) * pow2 e <= (m - x) * pow2 e)%Q by (apply Qmult_le_compat_r; lra).
  assert (m * pow2 e - q == (m - x) * pow2 e)%Q by (rewrite Hqp at 1; ring).
  split; lra.
Qed.

Lemma round_to_nonneg (prec : Z) (q : Q) : (0 <= q)%Q → (0 <= round_to prec q)%Q.
Proof.
  intros Hq. unfold round_to. destruct (Qis_zero q); [apply Qle_refl|].
  cbv zeta. rewrite Qred_correct.
  pose proof (pow2_pos (ulp_exponent prec q)) as Hp.
  apply Qmult_le_0_compat; [|lra].
  change 0%Q with (inject_Z 0). rewrite <- Zle_Qle.
  apply round_half_even_nonneg. apply Qle_shift_div_l; lra.
Qed.

Lemma Qlt_bool_iff (x y : Q) : Qlt_bool x y = true ↔ (x < y)%Q.
Proof.
  unfold Qlt_bool. rewrite negb_true_iff, <- not_true_iff_false, Qle_bool_iff.
  split; [apply Qnot_le_lt | apply Qlt_not_le].
Qed.

Lemma Qis_zero_inject_Z (z : Z) : Qis_zero (inject_Z z) = (z =? 0).
Proof.
  unfold Qis_zero, Qeq_bool, inject_Z; simpl.
  rewrite Z.mul_1_r. reflexivity.
Qed.

Lemma is_ceil_unique (num den n m : Z) :
  0 < den → is_ceil num den n → is_ceil num den m → n = m.
Proof. unfold is_ceil. nia. Qed.

Lemma Qceiling_ratio (num : Z) (den : positive) :
  is_ceil num (Z.pos den) (Qceiling (num # den)).
Proof.
  unfold is_ceil, Qceiling, Qfloor; simpl.
  pose proof (Z.div_mod (- num) (Z.pos den)) as E.
  pose proof (Z.mod_pos_bound (- num) (Z.pos den)) as B.
  nia.
Qed.

Lemma int_truediv_pos (a b : Z) :
  0 < b → int_truediv a b = Ok (FNum (a # Z.to_pos b)).
Proof.
  intros Hb. destruct b as [|p|p]; try lia.
  unfold int_truediv, py_truediv, of_int, fis_zero, fdiv.
  rewrite !Qis_zero_inject_Z. simpl.
  unfold Qdiv, Qmult, Qinv, inject_Z; simpl.
  rewrite Z.mul_1_r. reflexivity.
Qed.

Lemma int_truediv_zero (a : Z) : int_truediv a 0 = Raise ZeroDivisionError.
Proof. reflexivity. Qed.

Lemma split_count_pos (d size : Z) :
  0 < size →
  ∃ n, split_count d size = Ok n ∧
       if d <? size then is_ceil d size n else is_ceil (2 * d + size) (2 * size) n.
Proof.
  intros Hs. unfold split_count.
  fold (int_truediv d size). rewrite int_truediv_pos by done. simpl.
  destruct size as [|p|p]; try lia. simpl Z.to_pos.
  assert (Hlt : Qlt_bool (d # p) (inject_Z 1) = (d <? Z.pos p)).
  { apply eq_true_iff_eq. rewrite Qlt_bool_iff, Z.ltb_lt.
    unfold Qlt, inject_Z; simpl. lia. }
  rewrite Hlt. destruct (d <? Z.pos p) eqn:E; simpl.
  - eexists; split; [reflexivity|]. apply Qceiling_ratio.
  - eexists; split; [reflexivity|].
    pose proof (Qceiling_ratio (d * 2 + Z.pos p) (p * 2)) as H.
    unfold is_ceil in *. 
    replace (Qceiling ((d # p) + (1 # 2))) with (Qceiling (d * 2 + Z.pos p # p * 2)).
    + lia.
    + unfold Qplus; simpl. reflexivity.
Qed.

Lemma Qtrunc_floor (q : Q) : (0 <= q)%Q → Qtrunc q = Qfloor q.
Proof.
  destruct q as [n d]. unfold Qle, Qtrunc, Qfloor; simpl. intros H.
  apply Z.quot_div_nonneg; lia.
Qed.

Lemma Qfloor_between (q : Q) (a b : Z) :
  (inject_Z a <= q)%Q → (q < inject_Z b)%Q → a ≤ Qfloor q < b.
Proof.
  intros Ha Hb. split.
  - rewrite <- (Qfloor_Z a). by apply Qfloor_resp_le.
  - rewrite Zlt_Qlt. eapply Qle_lt_trans; [apply Qfloor_le|done].
Qed.

(** Rounding a number that is not negative, in two inequalities. *)
Lemma round_to_near (prec : Z) (q : Q) :
  (0 <= q)%Q →
  (q - q * pow2 (- prec) <= round_to prec q <= q + q * pow2 (- prec))%Q.
Proof.
  intros Hq. pose proof (round_to_error prec q) as H.
  rewrite (Qabs_pos q) in H by done.
  apply Qabs_Qle_condition in H. split; lra.
Qed.

Lemma binary64_near (q : Q) :
  (0 <= q)%Q →
  (q - q * (1 # 9007199254740992) <= binary64 q <= q + q * (1 # 9007199254740992))%Q.
Proof. apply (round_to_near 53). Qed.

Lemma binary64_nonneg (q : Q) : (0 <= q)%Q → (0 <= binary64 q)%Q.
Proof. apply round_to_nonneg. Qed.

(** A product with a rounded quotient, rounded: what the two roundings can
    make of it. *)
Lemma rounded_product_near (i g : Q) :
  (0 <= i)%Q → (0 <= g)%Q →
  let v := binary64 (i * binary64 g) in
  (0 <= v)%Q ∧
  (i * g - (3 # 9007199254740992) * (i * g) <= v
   <= i * g + (3 # 9007199254740992) * (i * g))%Q.
Proof.
  intros Hi Hg v.
  pose proof (binary64_near g Hg) as [G1 G2].
  pose proof (binary64_nonneg g Hg) as G0.
  assert (Hw : (0 <= i * binary64 g)%Q) by (by apply Qmult_le_0_compat).
  pose proof (binary64_near _ Hw) as [V1 V2]. fold v in V1, V2.
  split; [by apply binary64_nonneg|].
  assert (W1 : (i * (g - g * (1 # 9007199254740992)) <= i * binary64 g)%Q).
  { rewrite !(Qmult_comm i). by apply Qmult_le_compat_r. }
  assert (W2 : (i * binary64 g <= i * (g + g * (1 # 9007199254740992)))%Q).
  { rewrite !(Qmult_comm i). by apply Qmult_le_compat_r. }
  set (w := (i * binary64 g)%Q) in *.
  assert (T0 : (0 <= i * g)%Q) by (by apply Qmult_le_0_compat).
  assert (E1 : (i * (g - g * (1 # 9007199254740992))
                == i * g - (i * g) * (1 # 9007199254740992))%Q) by ring.
  assert (E2 : (i * (g + g * (1 # 9007199254740992))
                == i * g + (i * g) * (1 # 9007199254740992))%Q) by ring.
  rewrite E1 in W1. rewrite E2 in W2.
  set (t := (i * g)%Q) in *.
  clearbody w t v. split; lra.
Qed.

Lemma inject_Z_sub (a b : Z) : (inject_Z (a - b) == inject_Z a - inject_Z b)%Q.
Proof. unfold Z.sub. rewrite inject_Z_plus, inject_Z_opp. reflexivity. Qed.

(** [int(i * gap)] for the rounded gap [G / m], against the exact quotient
    of [i * G] by [m]: the two roundings cost at most one unit, and nothing
    unless the exact quotient is an integer. *)
Lemma rounded_offset_near (i G m : Z) :
  1 ≤ m → 0 ≤ i ≤ m → 0 ≤ G → 3 * G * m < 2 ^ 53 →
  let p := Qtrunc (binary64 (inject_Z i * binary64 (inject_Z G / inject_Z m))) in
  let o := (i * G) `div` m in
  0 ≤ p ∧ o - 1 ≤ p ≤ o ∧ (¬ (m | i * G) → p = o).
Proof.
  intros Hm Hi HG Hsmall p o.
  assert (Hgq : (0 <= inject_Z G / inject_Z m)%Q).
  { apply Qle_shift_div_l; [rewrite <- (Zlt_Qlt 0); lia|].
    rewrite Qmult_0_l. rewrite <- (Zle_Qle 0). lia. }
  assert (Hiq : (0 <= inject_Z i)%Q) by (rewrite <- (Zle_Qle 0); lia).
  pose proof (rounded_product_near _ _ Hiq Hgq) as [V0 [V1 V2]]. cbv zeta in V0, V1, V2.
  set (v := binary64 (inject_Z i * binary64 (inject_Z G / inject_Z m))) in *.
  assert (Hp : p = Qfloor v) by (by apply Qtrunc_floor).
  set (j := (i * G) `mod` m).
  assert (Hdiv : i * G = m * o + j) by (apply Z.div_mod; lia).
  assert (Hj : 0 ≤ j < m) by (apply Z.mod_pos_bound; lia).
  set (y := (/ inject_Z m)%Q).
  assert (HM : (1 <= inject_Z m)%Q) by (rewrite <- (Zle_Qle 1); lia).
  assert (Hy1 : (inject_Z m * y == 1)%Q) by (unfold y; field; lra).
  assert (Hy0 : (0 < y)%Q) by (apply Qinv_lt_0_compat; lra).
  set (a := (inject_Z i * (inject_Z G / inject_Z m))%Q) in *.
  set (b := (inject_Z j * y)%Q).
  assert (Ha : (a == inject_Z o + b)%Q).
  { assert (E : (a == inject_Z (i * G) * y)%Q).
    { unfold a, y. rewrite inject_Z_mult. field. lra. }
    rewrite E, Hdiv, inject_Z_plus, inject_Z_mult. unfold b.
    transitivity (inject_Z o * (inject_Z m * y) + inject_Z j * y)%Q; [ring|].
    rewrite Hy1. ring. }
  assert (Hy : (y <= 1)%Q).
  { assert (1 * y <= inject_Z m * y)%Q by (apply Qmult_le_compat_r; lra). lra. }
  assert (Heps : ((3 # 9007199254740992) * a < y)%Q).
  { assert (E : (a == inject_Z (i * G) * y)%Q).
    { unfold a, y. rewrite inject_Z_mult. field. lra. }
    rewrite E.
    assert (Hc : ((3 # 9007199254740992) * inject_Z (i * G) < 1)%Q).
    { assert (3 * (i * G) < 9007199254740992) by nia.
      apply (Qmult_lt_r _ _ (inject_Z 9007199254740992)); [reflexivity|].
      assert (R : ((3 # 9007199254740992) * inject_Z (i * G) * inject_Z 9007199254740992
                   == inject_Z (3 * (i * G)))%Q).
      { rewrite inject_Z_mult. unfold Qeq, Qmult, inject_Z; simpl. lia. }
      rewrite R, Qmult_1_l. by rewrite <- Zlt_Qlt. }
    assert ((3 # 9007199254740992) * inject_Z (i * G) * y < 1 * y)%Q
      by (apply Qmult_lt_compat_r; lra).
    lra. }
  assert (Hb0 : (0 <= b)%Q).
  { unfold b. apply Qmult_le_0_compat; [rewrite <- (Zle_Qle 0); lia|lra]. }
  assert (Hb1 : (b <= 1 - y)%Q).
  { unfold b.
    assert (inject_Z j * y <= (inject_Z m - 1) * y)%Q.
    { apply Qmult_le_compat_r; [|lra].
      change 1%Q with (inject_Z 1). rewrite <- inject_Z_sub, <- Zle_Qle. lia. }
    lra. }
  clearbody a v.
  destruct (decide (j = 0)) as [J0|J0].
  - assert (Hbz : (b == 0)%Q) by (unfold b; rewrite J0; ring).
    assert (Hlo : (inject_Z (o - 1) <= v)%Q).
    { rewrite inject_Z_sub. change (inject_Z 1) with 1%Q. lra. }
    assert (Hhi : (v < inject_Z (o + 1))%Q).
    { rewrite inject_Z_plus. change (inject_Z 1) with 1%Q. lra. }
    pose proof (Qfloor_between v _ _ Hlo Hhi) as B.
    assert (0 ≤ Qfloor v).
    { rewrite <- (Qfloor_Z 0). by apply Qfloor_resp_le. }
    split; [lia|]. split; [lia|].
    intros Hnd. exfalso. apply Hnd. exists o. lia.
  - assert (Hby : (y <= b)%Q).
    { unfold b. assert (1 * y <= inject_Z j * y)%Q.
      { apply Qmult_le_compat_r; [|lra]. rewrite <- (Zle_Qle 1). lia. }
      lra. }
    assert (Hlo : (inject_Z o <= v)%Q) by lra.
    assert (Hhi : (v < inject_Z (o + 1))%Q).
    { rewrite inject_Z_plus. change (inject_Z 1) with 1%Q. lra. }
    pose proof (Qfloor_between v _ _ Hlo Hhi) as B.
    assert (0 ≤ o) by (apply Z.div_pos; nia).
    split; [lia|]. split; [lia|]. intros _. lia.
Qed.

(** ** The tiling grid *)

Lemma split_count_zero (d : Z) : split_count d 0 = Raise ZeroDivisionError.
Proof. reflexivity. Qed.

Lemma grid_count_multiple (k size n : Z) :
  0 < size → 1 ≤ k → grid_count (k * size) size n → n = k + 1.
Proof.
  unfold grid_count, is_ceil. intros Hs Hk.
  destruct (k * size <? size) eqn:E; [apply Z.ltb_lt in E; nia|].
  intros H. nia.
Qed.

Lemma grid_count_nonneg (d size n : Z) :
  0 < size → 0 ≤ d → grid_count d size n → 0 ≤ n.
Proof.
  unfold grid_count, is_ceil. intros Hs Hd.
  destruct (d <? size); nia.
Qed.

Lemma split_region_pos (w h size : Z) :
  0 < size →
  ∃ n_rows n_cols,
    split_region w h size = Ok (n_rows, n_cols) ∧
    grid_count h size n_rows ∧ grid_count w size n_cols.
Proof.
  intros Hs. unfold split_region.
  destruct (split_count_pos h size Hs) as (r & -> & Hr).
  destruct (split_count_pos w size Hs) as (c & -> & Hc).
  by exists r, c.
Qed.

(** C3 (amended): for a positive tile size [split_region] returns, per
    dimension, the ceiling of [dimension / size] when that ratio is below
    one and the ceiling of [dimension / size + 0.5] as soon as it is at
    least one, integral or not; a dimension of exactly [k >= 1] tiles
    therefore gets [k + 1] of them. *)
Theorem split_region_grid (w h size : Z) :
  0 < size →
  ∃ n_rows n_cols,
    split_region w h size = Ok (n_rows, n_cols) ∧
    grid_count h size n_rows ∧ grid_count w size n_cols ∧
    (∀ k, 1 ≤ k → h = k * size → n_rows = k + 1) ∧
    (∀ k, 1 ≤ k → w = k * size → n_cols = k + 1).
Proof.
  intros Hs.
  destruct (split_region_pos w h size Hs) as (r & c & Hsplit & Hr & Hc).
  exists r, c. repeat split; try assumption.
  - intros k Hk ->. by apply (grid_count_multiple k size).
  - intros k Hk ->. by apply (grid_count_multiple k size).
Qed.

Lemma split_region_grid_witness :
  ∃ n_rows n_cols,
    split_region 260 150 100 = Ok (n_rows, n_cols) ∧
    grid_count 150 100 n_rows ∧ grid_count 260 100 n_cols ∧
    (∀ k, 1 ≤ k → 150 = k * 100 → n_rows = k + 1) ∧
    (∀ k, 1 ≤ k → 260 = k * 100 → n_cols = k + 1).
Proof. apply (split_region_grid 260 150 100). lia. Defined.

Example split_region_260_150 : split_region 260 150 100 = Ok (2, 4).
Proof. reflexivity. Qed.

Example split_region_below_one_tile : split_region 250 99 100 = Ok (1, 3).
Proof. reflexivity. Qed.

(** A tile size of zero makes the first division of [split_region] raise,
    whatever the image. *)
Theorem split_region_zero_size (w h : Z) :
  split_region w h 0 = Raise ZeroDivisionError.
Proof. reflexivity. Qed.

(** C3 as stated fails: a dimension that is a whole number of tiles is
    bumped all the same. An image of 200 by 100 with tiles of 100 gets two
    rows and three columns, not one and two. *)
Lemma split_region_integral_ratio_bumped :
  split_region 200 100 100 = Ok (2, 3) ∧
  200 `mod` 100 = 0 ∧ 100 `mod` 100 = 0 ∧
  ¬ (split_region 200 100 100 = Ok (100 `div` 100, 200 `div` 100)).
Proof. repeat split; try reflexivity. discriminate. Qed.

Lemma mapR_ok_map {A B : Type} (f : A → result B) (g : A → B) (l : list A) :
  (∀ x, x ∈ l → f x = Ok (g x)) → mapR f l = Ok (g <$> l).
Proof.
  induction l as [|x l IH]; intros H; simpl; [done|].
  rewrite (H x) by apply list_elem_of_here. simpl.
  rewrite IH; [done|]. intros y Hy. apply H. by apply list_elem_of_further.
Qed.

Lemma int_truediv_quotient (a b : Z) :
  b ≠ 0 → int_truediv a b = Ok (FNum (inject_Z a / inject_Z b)).
Proof.
  intros Hb. unfold int_truediv, py_truediv, of_int, fis_zero, fdiv.
  rewrite !Qis_zero_inject_Z. by destruct (b =? 0) eqn:E; [lia|].
Qed.

Lemma round_to_zero (prec : Z) (q : Q) : (q == 0)%Q → round_to prec q = 0%Q.
Proof.
  intros Hq. unfold round_to, Qis_zero.
  by rewrite (proj2 (Qeq_bool_iff q 0) Hq).
Qed.

Lemma binary64_zero (q : Q) : (q == 0)%Q → binary64 q = 0%Q.
Proof. apply round_to_zero. Qed.

Lemma tile_offset_ok (n canvas size i : Z) :
  (gap ← tile_gap n canvas size; py_int (fround binary64 (fmul (of_int i) gap)))
  = Ok (tile_offset n canvas size i).
Proof.
  unfold tile_gap, tile_offset. destruct (n <? 2) eqn:E.
  - cbn. rewrite binary64_zero by ring. reflexivity.
  - apply Z.ltb_ge in E. rewrite int_truediv_quotient by lia. reflexivity.
Qed.

Lemma tile_origin_bounds (n canvas size i : Z) :
  0 ≤ i < n → size ≤ canvas →
  0 ≤ tile_origin n canvas size i ≤ canvas - size.
Proof.
  intros Hi Hc. unfold tile_origin. destruct (n <? 2) eqn:E; [lia|].
  apply Z.ltb_ge in E. split.
  - apply Z.div_pos; nia.
  - apply Z.div_le_upper_bound; nia.
Qed.

(** The origin the code computes against the exact one: the two roundings
    cost at most one pixel, and none unless the exact quotient is an
    integer. *)
Lemma tile_offset_near (n canvas size i : Z) :
  0 ≤ i < n → size ≤ canvas → 3 * (canvas - size) * (n - 1) < 2 ^ 53 →
  0 ≤ tile_offset n canvas size i ≤ canvas - size ∧
  tile_origin n canvas size i - 1 ≤ tile_offset n canvas size i
    ≤ tile_origin n canvas size i ∧
  (¬ (n - 1 | i * (canvas - size)) →
   tile_offset n canvas size i = tile_origin n canvas size i).
Proof.
  intros Hi Hc Hsmall.
  pose proof (tile_origin_bounds n canvas size i Hi Hc) as Ho.
  unfold tile_offset, tile_origin in *. destruct (n <? 2) eqn:E.
  - split; [lia|]. split; [lia|done].
  - apply Z.ltb_ge in E.
    destruct (rounded_offset_near i (canvas - size) (n - 1)) as (P0 & P1 & P2);
      [lia|lia|lia|lia|].
    cbv zeta in P0, P1, P2. split; [lia|]. split; [lia|exact P2].
Qed.

Lemma length_grid_cells (n_rows n_cols : Z) :
  0 ≤ n_rows → 0 ≤ n_cols →
  length (grid_cells n_rows n_cols) = Z.to_nat (n_rows * n_cols).
Proof.
  intros Hr Hc. unfold grid_cells.
  assert (G : ∀ l : list Z,
    length (l ≫= λ row, seqZ 0 n_cols ≫= λ col, [(row, col)]) = (length l * Z.to_nat n_cols)%nat).
  { induction l as [|r l IH]; [done|]. rewrite bind_cons, length_app, IH.
    assert (L : ∀ k : list Z, length (k ≫= λ col, [(r, col)]) = length k).
    { induction k as [|c k IHk]; [done|]. rewrite bind_cons. simpl. by rewrite IHk. }
    rewrite L, length_seqZ. simpl. lia. }
  rewrite G, length_seqZ. lia.
Qed.

Lemma elem_of_grid_cells (n_rows n_cols : Z) (cell : Z * Z) :
  cell ∈ grid_cells n_rows n_cols → 0 ≤ cell.1 < n_rows ∧ 0 ≤ cell.2 < n_cols.
Proof.
  unfold grid_cells. rewrite list_elem_of_bind. intros (row & H & Hrow).
  apply list_elem_of_bind in H as (col & H & Hcol).
  apply list_elem_of_singleton in H as ->. simpl.
  apply elem_of_seqZ in Hrow, Hcol. lia.
Qed.

Lemma grid_cells_elem (n_rows n_cols row col : Z) :
  0 ≤ row < n_rows → 0 ≤ col < n_cols → (row, col) ∈ grid_cells n_rows n_cols.
Proof.
  intros Hr Hc. unfold grid_cells. apply list_elem_of_bind.
  exists row. split; [|apply elem_of_seqZ; lia].
  apply list_elem_of_bind. exists col. split; [|apply elem_of_seqZ; lia].
  apply list_elem_of_here.
Qed.

Lemma grid_cells_empty (n_rows n_cols : Z) :
  n_rows ≤ 0 ∨ n_cols ≤ 0 → grid_cells n_rows n_cols = [].
Proof.
  intros H. destruct (grid_cells n_rows n_cols) as [|cell l] eqn:E; [done|].
  assert (Hin : cell ∈ grid_cells n_rows n_cols) by (rewrite E; apply list_elem_of_here).
  apply elem_of_grid_cells in Hin. lia.
Qed.

Lemma grid_count_covers (d size n : Z) :
  0 < size → grid_count d size n → d ≤ n * size.
Proof. unfold grid_count, is_ceil. intros Hs. destruct (d <? size); nia. Qed.

Lemma grid_count_zero (size n : Z) : 0 < size → grid_count 0 size n → n = 0.
Proof.
  intros Hs. unfold grid_count, is_ceil.
  destruct (0 <? size) eqn:E; [|lia]. nia.
Qed.

Lemma grid_count_positive (d size n : Z) : 0 < size → 0 < d → grid_count d size n → 1 ≤ n.
Proof.
  intros Hs Hd. unfold grid_count, is_ceil. destruct (d <? size); nia.
Qed.

Lemma canvas_side_bounds (n size d : Z) :
  d ≤ n * size → size ≤ canvas_side n size d ∧ d ≤ canvas_side n size d.
Proof.
  intros H. unfold canvas_side. split; [lia|].
  assert (0 ≤ (n * size - d) `div` 5) by (apply Z.div_pos; lia). lia.
Qed.

(** With two tiles or more along an axis the canvas is strictly shorter
    than the tiles laid end to end, and a single tile is its own canvas. *)
Lemma canvas_side_grid (d size n : Z) :
  0 < size → 0 ≤ d → grid_count d size n →
  (2 ≤ n → canvas_side n size d < n * size) ∧ (n ≤ 1 → canvas_side n size d = size).
Proof.
  intros Hs Hd. unfold grid_count, is_ceil, canvas_side. intros Hn. split.
  - intros H2. assert (Hpos : 0 < n * size - d) by (destruct (d <? size) eqn:E; nia).
    assert ((n * size - d) `div` 5 < n * size - d) by (apply Z.div_lt; lia).
    nia.
  - intros H1.
    assert (Hc : d ≤ n * size) by (destruct (d <? size); nia).
    assert ((n * size - d) `div` 5 ≤ n * size - d)
      by (apply Z.div_le_upper_bound; lia).
    nia.
Qed.

(** At image sizes the roundings of the tile origins stay below one
    pixel. *)
Lemma grid_small (d size n : Z) :
  0 < size → 0 ≤ d → d < 2 ^ 24 → size < 2 ^ 24 → grid_count d size n →
  3 * (canvas_side n size d - size) * (n - 1) < 2 ^ 53.
Proof.
  intros Hs Hd Hdb Hsb Hn.
  destruct (canvas_side_grid d size n Hs Hd Hn) as [C2 C1].
  destruct (Z_le_gt_dec n 1) as [H1|H2].
  - rewrite C1 by done. lia.
  - specialize (C2 ltac:(lia)).
    assert (Hm : (n - 1) * size < d + size).
    { unfold grid_count, is_ceil in Hn. destruct (d <? size); nia. }
    assert (Hm' : n - 1 < d + size) by nia.
    assert (HG : canvas_side n size d - size < d + size) by nia.
    assert (HG0 : 0 ≤ canvas_side n size d - size) by (unfold canvas_side; lia).
    assert (B : (canvas_side n size d - size) * (n - 1) < 2 ^ 25 * 2 ^ 25).
    { apply Z.mul_lt_mono_nonneg; lia. }
    lia.
Qed.

Lemma split_tile_ok (self : SplitRegionOperator) (new_img : Image) (n_rows n_cols : Z)
    (cell : Z * Z) :
  split_tile self new_img n_rows n_cols cell =
  let p := tile_corner n_rows n_cols (width new_img) (height new_img) (image_size self) cell in
  Ok (Image_crop new_img (p.1, p.2, p.1 + image_size self, p.2 + image_size self), p).
Proof.
  destruct cell as [row col].
  pose proof (tile_offset_ok n_cols (width new_img) (image_size self) col) as Ex.
  pose proof (tile_offset_ok n_rows (height new_img) (image_size self) row) as Ey.
  unfold split_tile, tile_corner. cbn [fst snd].
  destruct (tile_gap n_cols (width new_img) (image_size self)) as [gw|]; [|done].
  destruct (tile_gap n_rows (height new_img) (image_size self)) as [gh|]; [|done].
  rewrite !result_bind_Ok in *. rewrite Ex, result_bind_Ok, Ey. reflexivity.
Qed.

Lemma in_range_true (lo n i : Z) : lo ≤ i < lo + n → in_range lo n i = true.
Proof. unfold in_range. lia. Qed.

(** What [forward] returns for a positive tile size: the crops of the
    canvas at the corners the code computes, row by row. *)
Lemma SplitRegion_forward_eq (self : SplitRegionOperator) (image : Image) (n_rows n_cols : Z) :
  0 < image_size self →
  split_region (width image) (height image) (image_size self) = Ok (n_rows, n_cols) →
  let size := image_size self in
  let canvas_w := canvas_side n_cols size (width image) in
  let canvas_h := canvas_side n_rows size (height image) in
  let x := (canvas_w - width image) `div` 2 in
  let y := (canvas_h - height image) `div` 2 in
  let canvas := Image_paste (mkImage canvas_w canvas_h (λ _ _, sr_fill self)) image (x, y) in
  let start := tile_corner n_rows n_cols canvas_w canvas_h size in
  let crop := λ cell : Z * Z,
    Image_crop canvas ((start cell).1, (start cell).2,
                       (start cell).1 + size, (start cell).2 + size) in
  SplitRegion_forward self image
  = Ok (crop <$> grid_cells n_rows n_cols, (start <$> grid_cells n_rows n_cols, (x, y))).
Proof.
  intros Hs Hsplit size canvas_w canvas_h x y canvas start crop.
  assert (Bw : size ≤ canvas_w) by (unfold canvas_w, canvas_side; lia).
  assert (Bh : size ≤ canvas_h) by (unfold canvas_h, canvas_side; lia).
  unfold SplitRegion_forward. rewrite Hsplit. fold size. simpl.
  unfold SplitRegion_canvas, Image_new. fold size canvas_w canvas_h. simpl.
  destruct ((canvas_w <? 0) || (canvas_h <? 0)) eqn:E.
  { apply orb_true_iff in E. lia. }
  simpl. fold x y canvas.
  rewrite (mapR_ok_map _ (λ cell, (crop cell, start cell))).
  - simpl. rewrite <- !list_fmap_compose. reflexivity.
  - intros cell Hcell. rewrite split_tile_ok. reflexivity.
Qed.

(** C4 (amended): for a positive tile size [forward] pastes the image,
    centred, on a canvas whose side along each axis is
    [max((n * image_size - dimension) // 5 + dimension, image_size)], which
    holds the image and one tile but is in general smaller than the grid of
    [n] tiles; it returns one tile of [image_size] by [image_size] per grid
    cell, row by row. The tile of column [col] starts at
    [part_x col = int(col * gap_w)], where [gap_w] is the binary64 quotient
    of [canvas_w - image_size] by [n_cols - 1]: that is the floor of
    [col * (canvas_w - image_size) / (n_cols - 1)], or one pixel less, which
    the two roundings can only cause when that quotient is an integer;
    likewise for rows. Every tile lies on the canvas and shows the pasted
    image where it covers it and the fill colour elsewhere. Widths, heights
    and tile sizes are below [2^24]. *)
Theorem SplitRegion_forward_tiles (self : SplitRegionOperator) (image : Image) :
  0 < image_size self → 0 ≤ width image → 0 ≤ height image →
  width image < 2 ^ 24 → height image < 2 ^ 24 → image_size self < 2 ^ 24 →
  ∃ n_rows n_cols tiles (part_x part_y : Z → Z),
    let size := image_size self in
    let canvas_w := canvas_side n_cols size (width image) in
    let canvas_h := canvas_side n_rows size (height image) in
    let x := (canvas_w - width image) `div` 2 in
    let y := (canvas_h - height image) `div` 2 in
    let starts := (λ cell : Z * Z, (part_x cell.2, part_y cell.1))
                    <$> grid_cells n_rows n_cols in
    split_region (width image) (height image) size = Ok (n_rows, n_cols) ∧
    SplitRegion_forward self image = Ok (tiles, (starts, (x, y))) ∧
    (0 ≤ x ∧ x + width image ≤ canvas_w ∧ 0 ≤ y ∧ y + height image ≤ canvas_h) ∧
    length tiles = Z.to_nat (n_rows * n_cols) ∧
    (∀ col, 0 ≤ col < n_cols →
       0 ≤ part_x col ≤ canvas_w - size ∧
       tile_origin n_cols canvas_w size col - 1 ≤ part_x col
         ≤ tile_origin n_cols canvas_w size col ∧
       (¬ (n_cols - 1 | col * (canvas_w - size)) →
        part_x col = tile_origin n_cols canvas_w size col)) ∧
    (∀ row, 0 ≤ row < n_rows →
       0 ≤ part_y row ≤ canvas_h - size ∧
       tile_origin n_rows canvas_h size row - 1 ≤ part_y row
         ≤ tile_origin n_rows canvas_h size row ∧
       (¬ (n_rows - 1 | row * (canvas_h - size)) →
        part_y row = tile_origin n_rows canvas_h size row)) ∧
    ∀ k tile p, tiles !! k = Some tile → starts !! k = Some p →
      width tile = size ∧ height tile = size ∧
      ∀ i j, 0 ≤ i < size → 0 ≤ j < size →
        getpixel tile i j = pasted_pixel (sr_fill self) image x y (p.1 + i) (p.2 + j).
Proof.
  intros Hs Hw Hh Bw Bh Bs.
  destruct (split_region_pos (width image) (height image) (image_size self) Hs)
    as (n_rows & n_cols & Hsplit & Hrows & Hcols).
  pose proof (canvas_side_bounds _ _ _ (grid_count_covers _ _ _ Hs Hcols)) as [Bw1 Bw2].
  pose proof (canvas_side_bounds _ _ _ (grid_count_covers _ _ _ Hs Hrows)) as [Bh1 Bh2].
  pose proof (grid_small _ _ _ Hs Hw Bw Bs Hcols) as Sw.
  pose proof (grid_small _ _ _ Hs Hh Bh Bs Hrows) as Sh.
  pose proof (SplitRegion_forward_eq self image n_rows n_cols Hs Hsplit) as Hfwd.
  cbv zeta in Hfwd.
  set (size := image_size self) in *.
  set (canvas_w := canvas_side n_cols size (width image)) in *.
  set (canvas_h := canvas_side n_rows size (height image)) in *.
  set (x := (canvas_w - width image) `div` 2) in *.
  set (y := (canvas_h - height image) `div` 2) in *.
  eexists n_rows, n_cols, _, (tile_offset n_cols canvas_w size),
    (tile_offset n_rows canvas_h size).
  cbv zeta. fold size canvas_w canvas_h x y.
  assert (Hx : 0 ≤ x ∧ x + width image ≤ canvas_w).
  { subst x. split; [apply Z.div_pos; lia|].
    pose proof (Z.mul_div_le (canvas_w - width image) 2). lia. }
  assert (Hy : 0 ≤ y ∧ y + height image ≤ canvas_h).
  { subst y. split; [apply Z.div_pos; lia|].
    pose proof (Z.mul_div_le (canvas_h - height image) 2). lia. }
  split; [exact Hsplit|]. split; [exact Hfwd|]. split; [lia|].
  split; [|split; [|split]].
  - rewrite length_fmap. apply length_grid_cells.
    + by apply (grid_count_nonneg (height image) size).
    + by apply (grid_count_nonneg (width image) size).
  - intros col Hcol. by apply tile_offset_near.
  - intros row Hrow. by apply tile_offset_near.
  - intros k tile p Ht Hp.
    rewrite list_lookup_fmap in Ht. rewrite list_lookup_fmap in Hp.
    destruct (grid_cells n_rows n_cols !! k) as [cell|] eqn:Hk; [|discriminate].
    simpl in Ht, Hp. injection Ht as <-. injection Hp as <-.
    apply list_elem_of_lookup_2, elem_of_grid_cells in Hk.
    destruct (tile_offset_near n_cols canvas_w size cell.2) as [Px _]; [lia|lia|lia|].
    destruct (tile_offset_near n_rows canvas_h size cell.1) as [Py _]; [lia|lia|lia|].
    unfold tile_corner. cbn [fst snd].
    split; [simpl; lia|]. split; [simpl; lia|].
    intros i j Hi Hj. unfold pasted_pixel, Image_crop, Image_paste; simpl.
    rewrite (Z.add_comm i), (Z.add_comm j).
    rewrite (in_range_true 0 canvas_w), (in_range_true 0 canvas_h) by lia.
    reflexivity.
Qed.

Lemma SplitRegion_forward_tiles_witness :
  let self := mkSplitRegion 100 (3 # 10) white in
  let image := gray_image 1053 80 in
  ∃ n_rows n_cols tiles (part_x part_y : Z → Z),
    let size := image_size self in
    let canvas_w := canvas_side n_cols size (width image) in
    let canvas_h := canvas_side n_rows size (height image) in
    let x := (canvas_w - width image) `div` 2 in
    let y := (canvas_h - height image) `div` 2 in
    let starts := (λ cell : Z * Z, (part_x cell.2, part_y cell.1))
                    <$> grid_cells n_rows n_cols in
    split_region (width image) (height image) size = Ok (n_rows, n_cols) ∧
    SplitRegion_forward self image = Ok (tiles, (starts, (x, y))) ∧
    (0 ≤ x ∧ x + width image ≤ canvas_w ∧ 0 ≤ y ∧ y + height image ≤ canvas_h) ∧
    length tiles = Z.to_nat (n_rows * n_cols) ∧
    (∀ col, 0 ≤ col < n_cols →
       0 ≤ part_x col ≤ canvas_w - size ∧
       tile_origin n_cols canvas_w size col - 1 ≤ part_x col
         ≤ tile_origin n_cols canvas_w size col ∧
       (¬ (n_cols - 1 | col * (canvas_w - size)) →
        part_x col = tile_origin n_cols canvas_w size col)) ∧
    (∀ row, 0 ≤ row < n_rows →
       0 ≤ part_y row ≤ canvas_h - size ∧
       tile_origin n_rows canvas_h size row - 1 ≤ part_y row
         ≤ tile_origin n_rows canvas_h size row ∧
       (¬ (n_rows - 1 | row * (canvas_h - size)) →
        part_y row = tile_origin n_rows canvas_h size row)) ∧
    ∀ k tile p, tiles !! k = Some tile → starts !! k = Some p →
      width tile = size ∧ height tile = size ∧
      ∀ i j, 0 ≤ i < size → 0 ≤ j < size →
        getpixel tile i j = pasted_pixel (sr_fill self) image x y (p.1 + i) (p.2 + j).
Proof.
  apply (SplitRegion_forward_tiles (mkSplitRegion 100 (3 # 10) white) (gray_image 1053 80));
    simpl; lia.
Defined.

Example SplitRegion_forward_260_150 :
  (λ r, (length r.1, r.2)) <$>
    SplitRegion_forward (mkSplitRegion 100 (3 # 10) white) (gray_image 260 150)
  = Ok (8%nat, ([(0, 0); (62, 0); (125, 0); (188, 0);
                 (0, 60); (62, 60); (125, 60); (188, 60)], (14, 5))).
Proof. vm_compute. reflexivity. Qed.

(** The last of twelve tiles across a canvas of 1082 starts at 981, one
    pixel before the end of the canvas less a tile: eleven times the
    rounded gap [982 / 11] falls short of 982. *)
Example SplitRegion_forward_1053_80 :
  (λ r, r.2) <$>
    SplitRegion_forward (mkSplitRegion 100 (3 # 10) white) (gray_image 1053 80)
  = Ok ([(0, 0); (89, 0); (178, 0); (267, 0); (357, 0); (446, 0); (535, 0); (624, 0);
         (714, 0); (803, 0); (892, 0); (981, 0)], (14, 10)).
Proof. vm_compute. reflexivity. Qed.

(** C4 as stated fails: an image of 100 by 100 with tiles of 100 has a grid
    of two by two tiles, which a canvas of 200 by 200 would fit exactly;
    the canvas is 120 by 120, the image is pasted at (10, 10) and not at
    (50, 50), and the tiles start 20 apart, not 100. *)
Lemma SplitRegion_canvas_smaller_than_grid :
  let self := mkSplitRegion 100 (3 # 10) white in
  let image := gray_image 100 100 in
  split_region (width image) (height image) (image_size self) = Ok (2, 2) ∧
  (λ r, (width r.1, height r.1, r.2)) <$> SplitRegion_canvas self image 2 2
  = Ok (120, 120, (10, 10)) ∧
  (120, 120) ≠ (2 * image_size self, 2 * image_size self) ∧
  snd <$> SplitRegion_forward self image
  = Ok ([(0, 0); (20, 0); (0, 20); (20, 20)], (10, 10)).
Proof. cbv zeta. repeat split; try (vm_compute; reflexivity). discriminate. Qed.

(** *** Coverage *)

Lemma tile_origin_step (n canvas size k : Z) :
  2 ≤ n → 0 ≤ k → size ≤ canvas → canvas ≤ n * size →
  tile_origin n canvas size (k + 1) ≤ tile_origin n canvas size k + size.
Proof.
  intros Hn Hk Hc Hu. unfold tile_origin.
  destruct (n <? 2) eqn:E; [lia|].
  rewrite <- (Z.div_add (k * (canvas - size)) size (n - 1)) by lia.
  apply Z.div_le_mono; [lia|]. nia.
Qed.

Lemma tile_origin_last (n canvas size : Z) :
  2 ≤ n → tile_origin n canvas size (n - 1) = canvas - size.
Proof.
  intros Hn. unfold tile_origin. destruct (n <? 2) eqn:E; [lia|].
  rewrite (Z.mul_comm (n - 1)). apply Z.div_mul. lia.
Qed.

(** A tile starts no later than where the tile before it ends, also when
    the rounding has moved that one back by a pixel. *)
Lemma tile_offset_step (n canvas size k : Z) :
  2 ≤ n → 0 ≤ k → k + 1 < n → size ≤ canvas → canvas < n * size →
  3 * (canvas - size) * (n - 1) < 2 ^ 53 →
  tile_offset n canvas size (k + 1) ≤ tile_offset n canvas size k + size.
Proof.
  intros Hn Hk Hk1 Hc Hu Hsmall.
  destruct (tile_offset_near n canvas size k) as (_ & [A1 _] & A2); [lia|lia|lia|].
  destruct (tile_offset_near n canvas size (k + 1)) as (_ & [_ B1] & _); [lia|lia|lia|].
  destruct (Z.eq_dec ((k * (canvas - size)) `mod` (n - 1)) 0) as [Hd|Hnd];
    [apply Z.mod_divide in Hd as [c Hd]; [|lia]
    |rewrite Z.mod_divide in Hnd by lia].
  - assert (Ho : tile_origin n canvas size (k + 1)
                 = tile_origin n canvas size k + (canvas - size) `div` (n - 1)).
    { unfold tile_origin. destruct (n <? 2) eqn:E; [lia|].
      replace ((k + 1) * (canvas - size)) with (c * (n - 1) + (canvas - size)) by lia.
      rewrite Z.div_add_l by lia. rewrite Hd, Z.div_mul by lia. reflexivity. }
    assert ((canvas - size) `div` (n - 1) < size)
      by (apply Z.div_lt_upper_bound; lia).
    lia.
  - rewrite (A2 Hnd).
    pose proof (tile_origin_step n canvas size k Hn Hk Hc ltac:(lia)). lia.
Qed.

(** The tiles along one axis leave no gap between them; the rounding can
    leave the last pixel of the canvas out. *)
Lemma tile_offset_cover (n canvas size u : Z) :
  1 ≤ n → 0 < size → size ≤ canvas →
  (2 ≤ n → canvas < n * size) → (n ≤ 1 → canvas = size) →
  3 * (canvas - size) * (n - 1) < 2 ^ 53 →
  0 ≤ u → u + 1 < canvas →
  ∃ i, 0 ≤ i < n ∧ tile_offset n canvas size i ≤ u < tile_offset n canvas size i + size.
Proof.
  intros Hn Hs Hc Hlt Hone Hsmall Hu0 Hu.
  destruct (decide (n = 1)) as [->|Hn1].
  { exists 0. unfold tile_offset. simpl. lia. }
  assert (H2 : 2 ≤ n) by lia. specialize (Hlt H2).
  assert (G : ∀ k : nat, Z.of_nat k < n →
              u < tile_offset n canvas size (Z.of_nat k) + size →
              ∃ i, 0 ≤ i ≤ Z.of_nat k ∧
                   tile_offset n canvas size i ≤ u < tile_offset n canvas size i + size).
  { induction k as [|k IH]; intros Hk Hu'.
    - destruct (tile_offset_near n canvas size 0) as (P0 & [_ P1] & _); [lia|lia|lia|].
      assert (tile_origin n canvas size 0 = 0).
      { unfold tile_origin. destruct (n <? 2); [done|]. by rewrite Z.mul_0_l. }
      change (Z.of_nat 0) with 0 in *. exists 0. lia.
    - destruct (decide (u < tile_offset n canvas size (Z.of_nat k) + size)) as [Hl|Hge].
      + destruct IH as (i & Hi & Hcov); [lia|lia|]. exists i. split; [lia|done].
      + exists (Z.of_nat (S k)). split; [lia|]. split; [|lia].
        pose proof (tile_offset_step n canvas size (Z.of_nat k) H2 ltac:(lia)) as St.
        replace (Z.of_nat (S k)) with (Z.of_nat k + 1) in * by lia.
        specialize (St ltac:(lia) Hc Hlt Hsmall). lia. }
  destruct (G (Z.to_nat (n - 1))) as (i & Hi & Hcov).
  - lia.
  - replace (Z.of_nat (Z.to_nat (n - 1))) with (n - 1) by lia.
    destruct (tile_offset_near n canvas size (n - 1)) as (_ & [P1 _] & _); [lia|lia|lia|].
    rewrite tile_origin_last in P1 by done. lia.
  - exists i. split; [lia|done].
Qed.

(** For a positive tile size and an image with at least one pixel (sizes
    below [2^24]), the tiles of [forward] show every pixel of the image
    that is not in its last column or its last row, at the position the
    tile origin and the paste offset give; they show the last column too
    when the image was pasted with a margin to its left, and the last row
    when it was pasted with a margin above it. *)
Theorem SplitRegion_tiles_cover_image (self : SplitRegionOperator) (image : Image) :
  0 < image_size self → 0 < width image → 0 < height image →
  width image < 2 ^ 24 → height image < 2 ^ 24 → image_size self < 2 ^ 24 →
  ∃ tiles starts x y,
    SplitRegion_forward self image = Ok (tiles, (starts, (x, y))) ∧
    ∀ i j, 0 ≤ i < width image → 0 ≤ j < height image →
      i + 1 < width image ∨ 0 < x →
      j + 1 < height image ∨ 0 < y →
      ∃ k tile p,
        tiles !! k = Some tile ∧ starts !! k = Some p ∧
        0 ≤ x + i - p.1 < image_size self ∧
        0 ≤ y + j - p.2 < image_size self ∧
        getpixel tile (x + i - p.1) (y + j - p.2) = getpixel image i j.
Proof.
  intros Hs Hw Hh Bw Bh Bs.
  destruct (split_region_pos (width image) (height image) (image_size self) Hs)
    as (n_rows & n_cols & Hsplit & Hrows & Hcols).
  pose proof (grid_count_positive _ _ _ Hs Hh Hrows) as Hr1.
  pose proof (grid_count_positive _ _ _ Hs Hw Hcols) as Hc1.
  pose proof (canvas_side_bounds _ _ _ (grid_count_covers _ _ _ Hs Hcols)) as [Bw1 Bw2].
  pose proof (canvas_side_bounds _ _ _ (grid_count_covers _ _ _ Hs Hrows)) as [Bh1 Bh2].
  assert (Hw0 : 0 ≤ width image) by lia. assert (Hh0 : 0 ≤ height image) by lia.
  destruct (canvas_side_grid _ _ _ Hs Hw0 Hcols) as [Cw2 Cw1].
  destruct (canvas_side_grid _ _ _ Hs Hh0 Hrows) as [Ch2 Ch1].
  pose proof (grid_small _ _ _ Hs Hw0 Bw Bs Hcols) as Sw.
  pose proof (grid_small _ _ _ Hs Hh0 Bh Bs Hrows) as Sh.
  pose proof (SplitRegion_forward_eq self image n_rows n_cols Hs Hsplit) as Hfwd.
  cbv zeta in Hfwd.
  set (size := image_size self) in *.
  set (canvas_w := canvas_side n_cols size (width image)) in *.
  set (canvas_h := canvas_side n_rows size (height image)) in *.
  set (x := (canvas_w - width image) `div` 2) in *.
  set (y := (canvas_h - height image) `div` 2) in *.
  set (start := tile_corner n_rows n_cols canvas_w canvas_h size) in *.
  assert (Hx : 0 ≤ x ∧ x + width image ≤ canvas_w ∧ (0 < x → x + width image < canvas_w)).
  { subst x. pose proof (Z.mul_div_le (canvas_w - width image) 2).
    pose proof (Z.div_pos (canvas_w - width image) 2). lia. }
  assert (Hy : 0 ≤ y ∧ y + height image ≤ canvas_h ∧ (0 < y → y + height image < canvas_h)).
  { subst y. pose proof (Z.mul_div_le (canvas_h - height image) 2).
    pose proof (Z.div_pos (canvas_h - height image) 2). lia. }
  eexists _, _, x, y. split; [exact Hfwd|].
  intros i j Hi Hj Hlast_col Hlast_row.
  destruct (tile_offset_cover n_cols canvas_w size (x + i)) as (col & Hcol & Hu);
    try done; try lia.
  destruct (tile_offset_cover n_rows canvas_h size (y + j)) as (row & Hrow & Hv);
    try done; try lia.
  destruct (list_elem_of_lookup_1 _ _ (grid_cells_elem n_rows n_cols row col Hrow Hcol))
    as [k Hk].
  destruct (tile_offset_near n_cols canvas_w size col) as [Px _]; [lia|lia|lia|].
  destruct (tile_offset_near n_rows canvas_h size row) as [Py _]; [lia|lia|lia|].
  exists k. eexists _, (start (row, col)).
  rewrite !list_lookup_fmap, Hk. unfold start, tile_corner. cbn [fst snd fmap option_fmap option_map].
  split; [reflexivity|]. split; [reflexivity|].
  split; [lia|]. split; [lia|]. cbn [getpixel Image_crop Image_paste width height].
  rewrite (in_range_true 0 canvas_w), (in_range_true 0 canvas_h) by lia.
  rewrite (in_range_true x), (in_range_true y) by (cbn [fst snd]; lia).
  cbn [andb fst snd]. f_equal; lia.
Qed.

Lemma SplitRegion_tiles_cover_image_witness :
  let self := mkSplitRegion 100 (3 # 10) white in
  let image := gray_image 260 150 in
  ∃ tiles starts x y,
    SplitRegion_forward self image = Ok (tiles, (starts, (x, y))) ∧
    ∀ i j, 0 ≤ i < width image → 0 ≤ j < height image →
      i + 1 < width image ∨ 0 < x →
      j + 1 < height image ∨ 0 < y →
      ∃ k tile p,
        tiles !! k = Some tile ∧ starts !! k = Some p ∧
        0 ≤ x + i - p.1 < image_size self ∧
        0 ≤ y + j - p.2 < image_size self ∧
        getpixel tile (x + i - p.1) (y + j - p.2) = getpixel image i j.
Proof.
  apply (SplitRegion_tiles_cover_image (mkSplitRegion 100 (3 # 10) white)
           (gray_image 260 150)); simpl; lia.
Defined.

(** The exception is real: an image of 33 by 1 with tiles of 3 is pasted
    without a margin on a canvas of 33 by 3, the last of its twelve tiles
    starts at 29 and ends before column 32, and no tile holds the last
    column of the image. *)
Example SplitRegion_last_column_left_out :
  ∃ tiles starts,
    SplitRegion_forward (mkSplitRegion 3 (3 # 10) white) (gray_image 33 1)
    = Ok (tiles, (starts, (0, 1))) ∧
    Forall (λ p : Z * Z, ¬ (p.1 ≤ 0 + 32 < p.1 + 3)) starts.
Proof.
  eexists _, _. split; [vm_compute; reflexivity|].
  repeat constructor; simpl; lia.
Qed.

(** An image without pixels (width or height zero) gets no tile at all, and
    [backward] then fails on whatever comes back. *)
Theorem SplitRegion_empty_image (self : SplitRegionOperator) (image : Image) :
  0 < image_size self → 0 ≤ width image → 0 ≤ height image →
  width image = 0 ∨ height image = 0 →
  ∃ start_point,
    SplitRegion_forward self image = Ok ([], ([], start_point)) ∧
    ∀ data, SplitRegion_backward self data ([], start_point) = Raise TypeError.
Proof.
  intros Hs Hw Hh Hz.
  destruct (split_region_pos (width image) (height image) (image_size self) Hs)
    as (n_rows & n_cols & Hsplit & Hrows & Hcols).
  pose proof (SplitRegion_forward_eq self image n_rows n_cols Hs Hsplit) as Hfwd.
  cbv zeta in Hfwd.
  assert (Hnone : grid_cells n_rows n_cols = []).
  { apply grid_cells_empty. destruct Hz as [Hz|Hz]; rewrite Hz in *.
    - right. by rewrite (grid_count_zero _ _ Hs Hcols).
    - left. by rewrite (grid_count_zero _ _ Hs Hrows). }
  rewrite Hnone in Hfwd. eexists. split; [exact Hfwd|].
  intros data. unfold SplitRegion_backward. by destruct data.
Qed.

Lemma SplitRegion_empty_image_witness :
  let self := mkSplitRegion 100 (3 # 10) white in
  ∃ start_point,
    SplitRegion_forward self (gray_image 0 150) = Ok ([], ([], start_point)) ∧
    ∀ data, SplitRegion_backward self data ([], start_point) = Raise TypeError.
Proof.
  apply (SplitRegion_empty_image (mkSplitRegion 100 (3 # 10) white) (gray_image 0 150));
    [simpl; lia|simpl; lia|simpl; lia|left; reflexivity].
Defined.

(** ** Reassembly of the tiles *)

Lemma length_shift_coordinates (bs : list Box) (dx dy : Z) :
  length (shift_coordinates bs dx dy) = length bs.
Proof. unfold shift_coordinates. apply length_map. Qed.

Lemma length_to_canvas_frame (item : Prediction * (Z * Z)) :
  length (boxes (to_canvas_frame item)) = length (boxes item.1).
Proof. unfold to_canvas_frame. simpl. apply length_shift_coordinates. Qed.

Lemma length_detections (p : Prediction) : (length (detections p) ≤ length (boxes p))%nat.
Proof. unfold detections. rewrite !length_zip. lia. Qed.

Lemma detections_merge_prediction (p1 p2 : Prediction) (t : Q) :
  detections (merge_prediction p1 p2 t) =
  List.filter (keep_first t (detections p2)) (detections p1)
  ++ List.filter (keep_second t (detections p1)) (detections p2).
Proof.
  unfold merge_prediction, detections at 1. simpl.
  by rewrite !zip_fst_snd.
Qed.

Lemma length_merge_prediction (p1 p2 : Prediction) (t : Q) :
  (length (boxes (merge_prediction p1 p2 t)) ≤ length (boxes p1) + length (boxes p2))%nat.
Proof.
  unfold merge_prediction. simpl. rewrite !length_fmap, length_app.
  pose proof (filter_length_le (keep_first t (detections p2)) (detections p1)).
  pose proof (filter_length_le (keep_second t (detections p1)) (detections p2)).
  pose proof (length_detections p1). pose proof (length_detections p2). lia.
Qed.

Lemma length_merge_all (t : Q) (rest : list (Prediction * (Z * Z))) (first : Prediction) :
  (length (boxes (merge_all t first rest)) ≤ length (boxes first) + box_count rest.*1)%nat.
Proof.
  unfold merge_all, box_count. revert first.
  induction rest as [|item rest IH]; intros first; csimpl; [lia|].
  etrans; [apply IH|].
  pose proof (length_merge_prediction first (to_canvas_frame item) t) as H.
  rewrite length_to_canvas_frame in H. lia.
Qed.

Lemma box_count_zip (data : list Prediction) (starts : list (Z * Z)) :
  (box_count (zip data starts).*1 ≤ box_count data)%nat.
Proof.
  unfold box_count. revert starts.
  induction data as [|p data IH]; intros [|o starts]; csimpl; try lia.
  specialize (IH starts). lia.
Qed.

Lemma fold_merge_step (self : SplitRegionOperator) (rest : list (Prediction * (Z * Z)))
    (acc : Prediction) :
  fold_left (SplitRegion_merge_step self) rest (Some acc)
  = Some (merge_all (sr_merge_iou_threshold self) acc rest).
Proof.
  unfold merge_all. revert acc.
  induction rest as [|[q o] rest IH]; intros acc; simpl; [done|].
  apply IH.
Qed.

(** *** Detections under a shift *)

Lemma detections_shifted (bs : list Box) (ls : list Z) (ss : list pyfloat)
    (a a' : gmap string pyfloat) (dx dy : Z) :
  detections (mkPrediction (shift_coordinates bs dx dy) ls ss a)
  = map_box (λ x, fsub x (of_int dx)) (λ y, fsub y (of_int dy))
      <$> detections (mkPrediction bs ls ss a').
Proof.
  unfold detections, shift_coordinates. cbn [boxes labels scores].
  revert ls ss. induction bs as [|b bs IH]; intros [|l ls] [|sc ss]; try done.
  csimpl. by rewrite IH.
Qed.

Lemma fsub_opp (x : pyfloat) (z : Z) : fsub x (of_int (- z)) = fadd x (of_int z).
Proof.
  unfold fsub, of_int, fneg, inject_Z, Qopp. cbn [Qnum Qden].
  by rewrite Z.opp_involutive.
Qed.

Lemma detections_to_canvas_frame (item : Prediction * (Z * Z)) :
  detections (to_canvas_frame item) = canvas_detections item.
Proof.
  unfold to_canvas_frame, canvas_detections.
  rewrite (detections_shifted _ _ _ _ (attrs item.1)).
  destruct item as [[bs ls ss a] o]. cbn [fst snd boxes labels scores attrs].
  apply list_fmap_ext. intros _ d _. unfold map_box. by rewrite !fsub_opp.
Qed.

(** *** What the incremental merge keeps of every tile *)

Lemma filter_concat {A : Type} (f : A → bool) (ls : list (list A)) :
  List.filter f (concat ls) = concat (List.filter f <$> ls).
Proof.
  induction ls as [|l ls IH]; [done|]. csimpl. by rewrite List.filter_app, IH.
Qed.

Lemma filter_sublist {A : Type} (f : A → bool) (l : list A) : sublist (List.filter f l) l.
Proof.
  induction l as [|x l IH]; simpl; [constructor|].
  destruct (f x); by constructor.
Qed.

Lemma elem_of_filter_bool {A : Type} (f : A → bool) (l : list A) (x : A) :
  x ∈ List.filter f l ↔ x ∈ l ∧ f x = true.
Proof. rewrite !list_elem_of_In. apply List.filter_In. Qed.

Lemma existsb_false_elem {A : Type} (g : A → bool) (l : list A) (x : A) :
  existsb g l = false → x ∈ l → g x = false.
Proof.
  intros H Hx. destruct (g x) eqn:E; [|done].
  rewrite <- H. symmetry. apply existsb_exists. exists x.
  split; [by apply list_elem_of_In|done].
Qed.

Lemma existsb_false_intro {A : Type} (g : A → bool) (l : list A) :
  (∀ x, x ∈ l → g x = false) → existsb g l = false.
Proof.
  intros H. destruct (existsb g l) eqn:E; [|done].
  apply existsb_exists in E as (x & Hx & Hg).
  apply list_elem_of_In in Hx. by rewrite (H x Hx) in Hg.
Qed.

Lemma elem_of_concat {A : Type} (ls : list (list A)) (x : A) :
  x ∈ concat ls ↔ ∃ i l, ls !! i = Some l ∧ x ∈ l.
Proof.
  induction ls as [|l ls IH]; simpl.
  - split; [by intros ?%elem_of_nil|by intros (i & l & ? & _)].
  - rewrite elem_of_app, IH. split.
    + intros [H|(i & l' & Hi & H)]; [by exists 0%nat, l|by exists (S i), l'].
    + intros ([|i] & l' & Hi & H); simpl in Hi; [left; congruence|right; eauto].
Qed.

Lemma concat_merge_kept (t : Q) (kept : list (list detection)) (tile : list detection) :
  concat (merge_kept t kept tile)
  = List.filter (keep_first t tile) (concat kept)
    ++ List.filter (keep_second t (concat kept)) tile.
Proof.
  unfold merge_kept. rewrite concat_app, filter_concat. simpl. by rewrite app_nil_r.
Qed.

Lemma detections_merge_all (t : Q) (rest : list (Prediction * (Z * Z)))
    (first : Prediction) (kept : list (list detection)) :
  detections first = concat kept →
  detections (merge_all t first rest)
  = concat (fold_left (merge_kept t) (canvas_detections <$> rest) kept).
Proof.
  unfold merge_all. revert first kept.
  induction rest as [|item rest IH]; intros first kept Hk; csimpl; [done|].
  apply IH.
  by rewrite detections_merge_prediction, concat_merge_kept, Hk,
    detections_to_canvas_frame.
Qed.

Lemma merge_kept_sublist (t : Q) (kept tiles : list (list detection))
    (tile : list detection) :
  Forall2 sublist kept tiles →
  Forall2 sublist (merge_kept t kept tile) (tiles ++ [tile]).
Proof.
  intros H. unfold merge_kept. apply Forall2_app.
  - apply Forall2_fmap_l. eapply Forall2_impl; [exact H|].
    intros k l Hkl. simpl. etrans; [apply filter_sublist|done].
  - repeat constructor. apply filter_sublist.
Qed.

Lemma fold_merge_kept_sublist (t : Q) (rest kept tiles : list (list detection)) :
  Forall2 sublist kept tiles →
  Forall2 sublist (fold_left (merge_kept t) rest kept) (tiles ++ rest).
Proof.
  revert kept tiles. induction rest as [|tile rest IH]; intros kept tiles H; simpl.
  - by rewrite app_nil_r.
  - rewrite (cons_middle tile tiles rest), app_assoc.
    apply IH. by apply merge_kept_sublist.
Qed.

Lemma merge_kept_cross_free (t : Q) (kept : list (list detection)) (tile : list detection) :
  cross_free t kept → cross_free t (merge_kept t kept tile).
Proof.
  intros H i j ki kj d d' Hij Hi Hj Hd Hd'. unfold merge_kept in Hi, Hj.
  assert (Hlen : length (List.filter (keep_first t tile) <$> kept) = length kept)
    by apply length_fmap.
  apply lookup_app_Some in Hj as [Hj|[Hge Hj]].
  - apply lookup_app_Some in Hi as [Hi|[Hge' _]].
    + apply list_lookup_fmap_Some in Hi as (ki0 & -> & Hi).
      apply list_lookup_fmap_Some in Hj as (kj0 & -> & Hj).
      apply elem_of_filter_bool in Hd as [Hd _]. apply elem_of_filter_bool in Hd' as [Hd' _].
      by apply (H i j ki0 kj0).
    + apply lookup_lt_Some in Hj. lia.
  - apply lookup_app_Some in Hi as [Hi|[Hge' Hi]].
    + apply list_lookup_fmap_Some in Hi as (ki0 & -> & Hi).
      destruct (j - length (List.filter (keep_first t tile) <$> kept))%nat eqn:E;
        [|by destruct n].
      injection Hj as <-.
      apply elem_of_filter_bool in Hd as [Hd Hk1]. apply elem_of_filter_bool in Hd' as [Hd' Hk2].
      destruct (duplicate t d d') eqn:Hdup; [|done].
      unfold keep_first in Hk1. apply negb_true_iff in Hk1.
      pose proof (existsb_false_elem _ _ d' Hk1 Hd') as H1. simpl in H1.
      rewrite Hdup in H1. simpl in H1.
      unfold keep_second in Hk2. apply negb_true_iff in Hk2.
      assert (Hin : d ∈ concat kept) by (apply elem_of_concat; eauto).
      pose proof (existsb_false_elem _ _ d Hk2 Hin) as H2. simpl in H2.
      rewrite Hdup, H1 in H2. done.
    + apply lookup_lt_Some in Hi. apply lookup_lt_Some in Hj. simpl in *. lia.
Qed.

Lemma fold_merge_kept_cross_free (t : Q) (rest kept : list (list detection)) :
  cross_free t kept → cross_free t (fold_left (merge_kept t) rest kept).
Proof.
  revert kept. induction rest as [|tile rest IH]; intros kept H; simpl; [done|].
  apply IH. by apply merge_kept_cross_free.
Qed.

(** A detection that a later tile beats is dropped, whatever else is
    kept. *)
Lemma fold_merge_kept_dropped (t : Q) (rest kept tiles : list (list detection))
    (i j : nat) (li lj ki : list detection) (d d' : detection) :
  Forall2 sublist kept tiles →
  (i < j)%nat → (length tiles ≤ j)%nat →
  (tiles ++ rest) !! i = Some li → (tiles ++ rest) !! j = Some lj →
  d' ∈ lj → duplicate t d d' = true → flt d.2 d'.2 = true →
  fold_left (merge_kept t) rest kept !! i = Some ki → d ∉ ki.
Proof.
  revert kept tiles. induction rest as [|tile rest IH]; intros kept tiles Hs Hij Hj Hli Hlj Hd' Hdup Hlt Hki.
  - rewrite app_nil_r in Hlj. apply lookup_lt_Some in Hlj. lia.
  - simpl in Hki. rewrite (cons_middle tile tiles rest), app_assoc in Hli, Hlj.
    pose proof (merge_kept_sublist t kept tiles tile Hs) as Hs1.
    destruct (decide (j = length tiles)) as [->|Hne].
    + pose proof (Forall2_length _ _ _ Hs) as Hlen.
      assert (Htile : lj = tile).
      { rewrite lookup_app_l in Hlj by (rewrite length_app; simpl; lia).
        rewrite lookup_app_r, Nat.sub_diag in Hlj by lia. simpl in Hlj. congruence. }
      subst lj.
      destruct (lookup_lt_is_Some_2 kept i) as [ki0 Hki0]; [lia|].
      assert (Hk1 : merge_kept t kept tile !! i
                    = Some (List.filter (keep_first t tile) ki0)).
      { unfold merge_kept. rewrite lookup_app_l by (rewrite length_fmap; lia).
        by rewrite list_lookup_fmap, Hki0. }
      assert (Hrefl : Forall2 sublist (merge_kept t kept tile) (merge_kept t kept tile))
        by reflexivity.
      pose proof (fold_merge_kept_sublist t rest _ _ Hrefl) as Hfin.
      rewrite Forall2_lookup in Hfin. specialize (Hfin i).
      rewrite Hki, lookup_app_l, Hk1 in Hfin
        by (unfold merge_kept; rewrite length_app, length_fmap; simpl; lia).
      inversion Hfin as [x y Hsub|]; subst.
      intros Hin. apply (λ H, elem_of_sublist _ _ _ H Hsub) in Hin.
      apply elem_of_filter_bool in Hin as [_ Hk].
      unfold keep_first in Hk. apply negb_true_iff in Hk.
      pose proof (existsb_false_elem _ _ d' Hk Hd') as H1. simpl in H1.
      by rewrite Hdup, Hlt in H1.
    + eapply (IH (merge_kept t kept tile) (tiles ++ [tile])); try done.
      rewrite length_app. simpl. lia.
Qed.

(** A detection that beats its duplicates in the tiles before and is not
    beaten by a duplicate in the tiles after is kept. *)
Lemma fold_merge_kept_best (t : Q) (rest kept tiles : list (list detection))
    (j : nat) (lj : list detection) (d : detection) :
  Forall2 sublist kept tiles →
  (tiles ++ rest) !! j = Some lj → d ∈ lj →
  ((j < length tiles)%nat → ∃ kj, kept !! j = Some kj ∧ d ∈ kj) →
  ((length tiles ≤ j)%nat → ∀ i li d',
     (i < j)%nat → (tiles ++ rest) !! i = Some li → d' ∈ li →
     duplicate t d' d = true → flt d'.2 d.2 = true) →
  (∀ k lk d',
     (j < k)%nat → (length tiles ≤ k)%nat → (tiles ++ rest) !! k = Some lk → d' ∈ lk →
     duplicate t d d' = true → flt d.2 d'.2 = false) →
  ∃ kj, fold_left (merge_kept t) rest kept !! j = Some kj ∧ d ∈ kj.
Proof.
  revert kept tiles.
  induction rest as [|tile rest IH]; intros kept tiles Hs Hlj Hd Hin Hbefore Hafter.
  - simpl. rewrite app_nil_r in Hlj. apply Hin. by apply lookup_lt_Some in Hlj.
  - simpl. pose proof (Forall2_length _ _ _ Hs) as Hlen.
    assert (Htile : (tiles ++ tile :: rest) !! length tiles = Some tile).
    { rewrite lookup_app_r, Nat.sub_diag by lia. done. }
    rewrite (cons_middle tile tiles rest), app_assoc in Hlj.
    apply (IH (merge_kept t kept tile) (tiles ++ [tile])).
    + by apply merge_kept_sublist.
    + done.
    + done.
    + rewrite length_app. simpl. intros Hj.
      destruct (decide (j < length tiles)%nat) as [Hlt|Hge].
      * destruct (Hin Hlt) as (kj & Hkj & Hdk).
        exists (List.filter (keep_first t tile) kj). split.
        { unfold merge_kept. rewrite lookup_app_l by (rewrite length_fmap; lia).
          by rewrite list_lookup_fmap, Hkj. }
        apply elem_of_filter_bool. split; [done|].
        unfold keep_first. apply negb_true_iff. apply existsb_false_intro.
        intros d' Hd'. destruct (duplicate t d d') eqn:Hdup; [|done]. simpl.
        apply (Hafter (length tiles) tile d'); try done; lia.
      * assert (j = length tiles) as -> by lia.
        assert (lj = tile) as ->.
        { rewrite lookup_app_l in Hlj by (rewrite length_app; simpl; lia).
          rewrite lookup_app_r, Nat.sub_diag in Hlj by lia. simpl in Hlj. congruence. }
        exists (List.filter (keep_second t (concat kept)) tile). split.
        { unfold merge_kept. rewrite lookup_app_r by (rewrite length_fmap; lia).
          rewrite length_fmap, Hlen, Nat.sub_diag. done. }
        apply elem_of_filter_bool. split; [done|].
        unfold keep_second. apply negb_true_iff. apply existsb_false_intro.
        intros d1 Hd1. apply elem_of_concat in Hd1 as (i & ki & Hki & Hd1).
        destruct (duplicate t d1 d) eqn:Hdup; [|done]. simpl.
        apply negb_false_iff.
        rewrite Forall2_lookup in Hs. specialize (Hs i). rewrite Hki in Hs.
        inversion Hs as [x li Hsub Hx Hli|]; subst. symmetry in Hli.
        apply (Hbefore (le_n _) i li d1); try done.
        -- by apply lookup_lt_Some in Hli.
        -- rewrite lookup_app_l by (by apply lookup_lt_Some in Hli). done.
        -- by apply (elem_of_sublist _ _ _ Hd1 Hsub).
    + rewrite length_app. simpl. intros Hj i li d' Hij Hli.
      rewrite <- app_assoc, <- cons_middle in Hli.
      assert (Hj' : (length tiles ≤ j)%nat) by lia.
      exact (Hbefore Hj' i li d' Hij Hli).
    + rewrite length_app. simpl. intros k lk d' Hjk Hk Hlk.
      rewrite <- app_assoc, <- cons_middle in Hlk.
      assert (Hk' : (length tiles ≤ k)%nat) by lia.
      exact (Hafter k lk d' Hjk Hk' Hlk).
Qed.

(** C5: given at least one tile, [backward] returns one detection set. Its
    boxes, labels and scores are those of the incremental merge (the first
    tile with the second, the result with the third, ...) of the tiles'
    sets, each taken to the frame of the canvas by adding the origin of its
    tile to every corner, with the canvas-centring offset then subtracted
    from every corner; it has at most as many boxes as the tiles had
    together. Tile by tile, the detections it keeps are some of the
    detections of that tile, in their order and with their labels and
    scores. Of the detections of different tiles whose IoU exceeds the
    threshold no two are kept; one that scores strictly lower than a
    duplicate in a later tile is dropped; one that scores strictly higher
    than every duplicate in the tiles before it and at least as high as
    every duplicate in the tiles after it is kept (on equal scores the tile
    met first wins). *)
Theorem SplitRegion_backward_merges (self : SplitRegionOperator)
    (p : Prediction) (ps : list Prediction) (o : Z * Z) (os : list (Z * Z))
    (start_point : Z * Z) :
  let t := sr_merge_iou_threshold self in
  let tiles := zip (p :: ps) (o :: os) in
  let merged := merge_all t (to_canvas_frame (p, o)) (zip ps os) in
  ∃ out kept,
    SplitRegion_backward self (p :: ps) (o :: os, start_point) = Ok out ∧
    boxes out = shift_coordinates (boxes merged) start_point.1 start_point.2 ∧
    labels out = labels merged ∧
    scores out = scores merged ∧
    (length (boxes out) ≤ box_count (p :: ps))%nat ∧
    detections out
    = map_box (λ x, fsub x (of_int start_point.1)) (λ y, fsub y (of_int start_point.2))
        <$> concat kept ∧
    Forall2 (λ ks item, sublist ks (canvas_detections item)) kept tiles ∧
    (∀ i j ki kj d d',
       (i < j)%nat → kept !! i = Some ki → kept !! j = Some kj →
       d ∈ ki → d' ∈ kj → duplicate t d d' = false) ∧
    (∀ i j item item' ki d d',
       (i < j)%nat → tiles !! i = Some item → tiles !! j = Some item' →
       d' ∈ canvas_detections item' →
       duplicate t d d' = true → flt d.2 d'.2 = true →
       kept !! i = Some ki → d ∉ ki) ∧
    (∀ j item d,
       tiles !! j = Some item → d ∈ canvas_detections item →
       (∀ i item' d',
          (i < j)%nat → tiles !! i = Some item' → d' ∈ canvas_detections item' →
          duplicate t d' d = true → flt d'.2 d.2 = true) →
       (∀ k item' d',
          (j < k)%nat → tiles !! k = Some item' → d' ∈ canvas_detections item' →
          duplicate t d d' = true → flt d.2 d'.2 = false) →
       ∃ kj, kept !! j = Some kj ∧ d ∈ kj).
Proof.
  cbv zeta.
  set (t := sr_merge_iou_threshold self).
  set (merged := merge_all t (to_canvas_frame (p, o)) (zip ps os)).
  set (first := canvas_detections (p, o)).
  set (rest := canvas_detections <$> zip ps os).
  set (kept := fold_left (merge_kept t) rest [first]).
  assert (Htiles : canvas_detections <$> zip (p :: ps) (o :: os) = [first] ++ rest) by done.
  assert (Hs0 : Forall2 sublist [first] [first]) by (by repeat constructor).
  assert (Hsub : Forall2 sublist kept ([first] ++ rest))
    by (by apply fold_merge_kept_sublist).
  assert (Hlook : ∀ i item, zip (p :: ps) (o :: os) !! i = Some item →
                    ([first] ++ rest) !! i = Some (canvas_detections item)).
  { intros i item Hi. by rewrite <- Htiles, list_lookup_fmap, Hi. }
  exists (mkPrediction (shift_coordinates (boxes merged) start_point.1 start_point.2)
            (labels merged) (scores merged) (attrs merged)), kept.
  split; [|split; [done|split; [done|split; [done|split; [|split; [|split; [|split; [|split]]]]]]]].
  - unfold SplitRegion_backward. cbn [zip zip_with fold_left SplitRegion_merge_step].
    fold (to_canvas_frame (p, o)).
    by rewrite fold_merge_step.
  - cbn [boxes]. rewrite length_shift_coordinates.
    etrans; [apply length_merge_all|].
    rewrite length_to_canvas_frame.
    pose proof (box_count_zip ps os). unfold box_count in *. csimpl. lia.
  - rewrite (detections_shifted _ _ _ _ (attrs merged)).
    f_equal. destruct merged eqn:E. cbn [boxes labels scores attrs]. rewrite <- E.
    unfold merged. apply detections_merge_all.
    rewrite detections_to_canvas_frame. fold first.
    change (concat [first]) with (first ++ []). symmetry. apply app_nil_r.
  - apply Forall2_fmap_r. by rewrite Htiles.
  - by apply fold_merge_kept_cross_free; intros i j ki kj d d' Hij Hi Hj;
      apply lookup_lt_Some in Hj; simpl in Hj; lia.
  - intros i j item item' ki d d' Hij Hi Hj Hd' Hdup Hlt Hki.
    eapply (fold_merge_kept_dropped t rest [first] [first] i j); try done.
    + simpl. lia.
    + by apply Hlook.
    + by apply Hlook.
  - intros j item d Hj Hd Hbefore Hafter.
    apply (fold_merge_kept_best t rest [first] [first] j (canvas_detections item) d);
      try done.
    + by apply Hlook.
    + simpl. intros Hj0. assert (j = 0%nat) as -> by lia.
      exists first. split; [done|]. simpl in Hj. by injection Hj as <-.
    + intros _ i li d' Hij Hli Hd'.
      rewrite <- Htiles, list_lookup_fmap in Hli.
      destruct (zip (p :: ps) (o :: os) !! i) as [item'|] eqn:Hi; [|done].
      injection Hli as <-. by apply (Hbefore i item').
    + intros k lk d' Hjk _ Hlk Hd'.
      rewrite <- Htiles, list_lookup_fmap in Hlk.
      destruct (zip (p :: ps) (o :: os) !! k) as [item'|] eqn:Hk; [|done].
      injection Hlk as <-. by apply (Hafter k item').
Qed.

(** With no tile result, or no tile origin, the loop of [backward] never
    runs and the subscript of [None] after it raises. *)
Theorem SplitRegion_backward_no_tile (self : SplitRegionOperator)
    (data : list Prediction) (all_start_points : list (Z * Z)) (start_point : Z * Z) :
  (SplitRegion_backward self [] (all_start_points, start_point) = Raise TypeError) ∧
  (SplitRegion_backward self data ([], start_point) = Raise TypeError).
Proof. split; [done|]. unfold SplitRegion_backward. by destruct data. Qed.

Example merge_prediction_duplicate :
  let a := mkPrediction [mkBox (FNum 0) (FNum 0) (FNum 10) (FNum 10)] [1] [FNum (6 # 10)] ∅ in
  let b := mkPrediction [mkBox (FNum 1) (FNum 0) (FNum 11) (FNum 10);
                         mkBox (FNum 50) (FNum 50) (FNum 60) (FNum 60)]
                        [2; 3] [FNum (9 # 10); FNum (5 # 10)] ∅ in
  merge_prediction a b (3 # 10)
  = mkPrediction [mkBox (FNum 1) (FNum 0) (FNum 11) (FNum 10);
                  mkBox (FNum 50) (FNum 50) (FNum 60) (FNum 60)]
                 [2; 3] [FNum (9 # 10); FNum (5 # 10)] ∅.
Proof. reflexivity. Qed.

(** A detection that loses to one duplicate is dropped even where it beats
    another: the second tile's first box loses to the box of the first
    tile, which loses to the second tile's second box, and only that one
    stays. *)
Example merge_prediction_chain :
  let a := mkPrediction [mkBox (FNum 0) (FNum 0) (FNum 10) (FNum 10)] [1] [FNum (8 # 10)] ∅ in
  let b := mkPrediction [mkBox (FNum 1) (FNum 0) (FNum 11) (FNum 10);
                         mkBox (FNum 0) (FNum 1) (FNum 10) (FNum 11)]
                        [2; 3] [FNum (7 # 10); FNum (9 # 10)] ∅ in
  merge_prediction a b (3 # 10)
  = mkPrediction [mkBox (FNum 0) (FNum 1) (FNum 10) (FNum 11)] [3] [FNum (9 # 10)] ∅.
Proof. reflexivity. Qed.

(** Two tiles of one canvas seeing the same letter: the tile origins are
    added, the lower-scoring copy goes, and the centring offset is
    subtracted. *)
Example SplitRegion_backward_two_tiles :
  let left := mkPrediction [mkBox (FNum 60) (FNum 10) (FNum 80) (FNum 30)] [1] [FNum (6 # 10)] ∅ in
  let right := mkPrediction [mkBox (FNum 11) (FNum 10) (FNum 31) (FNum 30)] [1] [FNum (9 # 10)] ∅ in
  SplitRegion_backward (mkSplitRegion 100 (3 # 10) white) [left; right]
    ([(0, 0); (50, 0)], (5, 7))
  = Ok (mkPrediction [mkBox (FNum 56) (FNum 3) (FNum 76) (FNum 23)] [1] [FNum (9 # 10)] ∅).
Proof. reflexivity. Qed.

(** ** Batching *)

Section SplitSequence.
Context {A : Type}.
Implicit Types (data : list A) (n fuel : nat).

Lemma concat_split_sequence_upto fuel data n :
  (0 < n)%nat → (length data ≤ fuel)%nat →
  concat (split_sequence_upto fuel data n) = data.
Proof.
  intros Hn. revert data.
  induction fuel as [|fuel IH]; intros data Hlen.
  - destruct data; simpl in *; [done|lia].
  - destruct data as [|x data]; [done|].
    cbn [split_sequence_upto concat].
    rewrite IH; [apply take_drop|].
    rewrite length_drop. simpl in *. lia.
Qed.

Lemma length_split_sequence_upto fuel data n :
  (0 < n)%nat → (length data ≤ fuel)%nat →
  is_ceil (Z.of_nat (length data)) (Z.of_nat n)
          (Z.of_nat (length (split_sequence_upto fuel data n))).
Proof.
  intros Hn. revert data.
  induction fuel as [|fuel IH]; intros data Hlen.
  - destruct data; simpl in *; [|lia]. unfold is_ceil. simpl. lia.
  - destruct data as [|x data]; [unfold is_ceil; simpl; lia|].
    cbn [split_sequence_upto length].
    specialize (IH (drop n (x :: data))).
    rewrite length_drop in IH.
    set (k := length (split_sequence_upto fuel (drop n (x :: data)) n)) in *.
    set (m := length (x :: data)) in *.
    assert (Hm : (0 < m ≤ S fuel)%nat) by (subst m; simpl in *; lia).
    unfold is_ceil in *. destruct IH as [IH1 IH2]; [lia|].
    change (S (length data)) with m. clearbody k m. rewrite Nat2Z.inj_succ.
    destruct (le_lt_dec n m) as [Hle|Hgt].
    + rewrite Nat2Z.inj_sub in IH1, IH2 by done. nia.
    + replace (m - n)%nat with 0%nat in * by lia.
      assert (k = 0%nat) as -> by nia. lia.
Qed.

Lemma groups_split_sequence_upto fuel data n i (g : list A) :
  (0 < n)%nat → (length data ≤ fuel)%nat →
  split_sequence_upto fuel data n !! i = Some g →
  (1 ≤ length g ≤ n)%nat ∧
  (S i < length (split_sequence_upto fuel data n) → length g = n)%nat.
Proof.
  intros Hn. revert data i.
  induction fuel as [|fuel IH]; intros data i Hlen Hi.
  - destruct data; simpl in *; [done|lia].
  - destruct data as [|x data]; [done|].
    cbn [split_sequence_upto] in *.
    destruct i as [|i]; simpl in Hi.
    + injection Hi as <-. rewrite length_take. simpl length. split; [lia|].
      intros Hmore.
      destruct (drop n (x :: data)) as [|y rest] eqn:E.
      * destruct fuel; simpl in Hmore; lia.
      * assert (L : length (drop n (x :: data)) = S (length rest)) by (by rewrite E).
        rewrite length_drop in L. simpl in L. lia.
    + apply IH in Hi; [|rewrite length_drop; simpl in *; lia].
      destruct Hi as [H1 H2]. split; [done|].
      intros Hmore. apply H2. simpl in Hmore. lia.
Qed.
End SplitSequence.

Lemma split_sequence_upto_subseteq {A : Type} (fuel : nat) (data : list A) (n : nat) :
  Forall (λ batch, batch ⊆ data) (split_sequence_upto fuel data n).
Proof.
  revert data. induction fuel as [|fuel IH]; intros data; [by destruct data|].
  destruct data as [|x data]; [done|]. cbn [split_sequence_upto].
  constructor.
  - intros y Hy. by apply (subseteq_take n (x :: data)).
  - eapply Forall_impl; [apply IH|]. simpl. intros batch Hb y Hy.
    apply (subseteq_drop n (x :: data)). by apply Hb.
Qed.

Section Batching.
Variable next_operator : operator.
Variable f : value → value.
Variable g : list value → state → state.
Variable data : list value.
Hypothesis next_batch :
  ∀ batch s, batch ⊆ data →
    next_operator (VList batch) s = Ok (VList (f <$> batch), g batch s).

Lemma run_batches_ok (batches : list (list value)) (results : list value) (s : state) :
  Forall (λ batch, batch ⊆ data) batches →
  run_batches next_operator batches results s
  = Ok (results ++ (f <$> concat batches), fold_left (λ s batch, g batch s) batches s).
Proof.
  intros Hb. revert results s.
  induction Hb as [|batch batches Hin _ IH]; intros results s; simpl.
  - by rewrite app_nil_r.
  - unfold mbind, M_bind. rewrite next_batch by done. simpl.
    rewrite IH. by rewrite fmap_app, app_assoc.
Qed.
End Batching.

(** C6: for a batch size of at least one and a downstream operator that,
    on every batch drawn from the data, returns the per-item results [f] of
    the batch whatever the state (its effect on the state being [g]),
    [BatchingOperator] cuts the [N] items into the ceiling of [N / B]
    contiguous groups in order, each of [B] items but possibly the last,
    calls the downstream operator once per group on the whole group, in
    order, and returns the [N] per-item results in the order of the items:
    item for item what the downstream operator returns on that item alone. *)
Theorem BatchingOperator_batches (next_operator : operator) (f : value → value)
    (g : list value → state → state) (batch_size : Z) (data : list value) (s : state) :
  1 ≤ batch_size →
  (∀ batch s, batch ⊆ data →
     next_operator (VList batch) s = Ok (VList (f <$> batch), g batch s)) →
  let batches := split_sequence data (Z.to_nat batch_size) in
  concat batches = data ∧
  is_ceil (Z.of_nat (length data)) batch_size (Z.of_nat (length batches)) ∧
  (∀ i batch, batches !! i = Some batch →
     (1 ≤ length batch ≤ Z.to_nat batch_size)%nat ∧
     (S i < length batches → length batch = Z.to_nat batch_size)%nat) ∧
  BatchingOperator_call next_operator batch_size (VList data) s
  = Ok (VList (f <$> data), fold_left (λ s batch, g batch s) batches s) ∧
  length (f <$> data) = length data ∧
  (∀ i x, data !! i = Some x →
     (f <$> data) !! i = Some (f x) ∧
     ∀ s1, next_operator (VList [x]) s1 = Ok (VList [f x], g [x] s1)).
Proof.
  intros HB Hnext batches.
  assert (Hn : (0 < Z.to_nat batch_size)%nat) by lia.
  assert (Hc : concat batches = data)
    by (by apply concat_split_sequence_upto).
  split; [exact Hc|]. split; [|split; [|split; [|split]]].
  - replace batch_size with (Z.of_nat (Z.to_nat batch_size)) at 1 by lia.
    by apply length_split_sequence_upto.
  - intros i batch Hi. by apply (groups_split_sequence_upto (length data) data).
  - unfold BatchingOperator_call. simpl.
    unfold mbind, M_bind, lift. simpl.
    destruct (batch_size <? 1) eqn:E; [lia|].
    rewrite (run_batches_ok next_operator f g data Hnext)
      by apply split_sequence_upto_subseteq.
    simpl. fold batches. by rewrite Hc.
  - apply length_fmap.
  - intros i x Hi. split.
    + by rewrite list_lookup_fmap, Hi.
    + intros s1. apply (Hnext [x]). intros y Hy.
      apply list_elem_of_singleton in Hy as ->. by eapply list_elem_of_lookup_2.
Qed.

Lemma pairing_items (items : list value) (s : state) :
  mapM (call (BranchingOperator 0 FinalOperator FinalOperator)) items s
  = Ok ((λ v, VTuple [v; v]) <$> items, fold_left pairing_step items s).
Proof.
  revert s. induction items as [|x items IH]; intros s; [done|].
  cbn [mapM]. unfold mbind at 1, M_bind at 1.
  assert (E : call (BranchingOperator 0 FinalOperator FinalOperator) x s
              = Ok (VTuple [x; x], pairing_step s x)).
  { cbn [call]. unfold BranchingOperator_call, ChainOperator_call, Branching_forward,
      Branching_backward, FinalOperator_call, new_invocation, observe, set_field,
      get_field, mbind, M_bind, mret, M_ret. cbn.
    rewrite lookup_insert_eq. unfold pairing_step. by rewrite <- app_assoc. }
  rewrite E. unfold mbind at 1, M_bind at 1. rewrite IH. reflexivity.
Qed.

Lemma pairing_batch (batch : list value) (s : state) :
  call pairing_pipeline (VList batch) s
  = Ok (VList ((λ v, VTuple [v; v]) <$> batch), fold_left pairing_step batch s).
Proof.
  unfold pairing_pipeline. cbn [call]. unfold SplittingOperator_call.
  unfold mbind at 1, M_bind at 1. cbn [lift py_iter].
  unfold mbind at 1, M_bind at 1. by rewrite pairing_items.
Qed.

Lemma BatchingOperator_batches_witness :
  let data := [VInt 1; VInt 2; VInt 3; VInt 4; VInt 5] in
  split_sequence data 2 = [[VInt 1; VInt 2]; [VInt 3; VInt 4]; [VInt 5]] ∧
  BatchingOperator_call (call pairing_pipeline) 2 (VList data) initial
  = Ok (VList ((λ v, VTuple [v; v]) <$> data),
        fold_left (λ s batch, fold_left pairing_step batch s)
                  (split_sequence data (Z.to_nat 2)) initial).
Proof.
  cbv zeta. split; [reflexivity|].
  assert (H1 : 1 ≤ 2) by lia.
  assert (H2 : ∀ batch s, batch ⊆ [VInt 1; VInt 2; VInt 3; VInt 4; VInt 5] →
                 call pairing_pipeline (VList batch) s
                 = Ok (VList ((λ v, VTuple [v; v]) <$> batch),
                       fold_left pairing_step batch s))
    by (intros batch s _; apply pairing_batch).
  pose proof (BatchingOperator_batches (call pairing_pipeline) (λ v, VTuple [v; v])
                (λ batch s, fold_left pairing_step batch s) 2
                [VInt 1; VInt 2; VInt 3; VInt 4; VInt 5] initial H1 H2) as H.
  cbv zeta in H. destruct H as (_ & _ & _ & H & _). exact H.
Defined.

(** ** Box heights *)

Lemma fold_fadd_finite (qs : list Q) (a : Q) :
  fold_left fadd (FNum <$> qs) (FNum a) = FNum (fold_left Qplus qs a).
Proof. revert a. induction qs as [|q qs IH]; intros a; simpl; [done|apply IH]. Qed.

Lemma get_attr_Some (p : Prediction) (k : string) (v : pyfloat) :
  attrs p !! k = Some v → get_attr p k = Ok v.
Proof. unfold get_attr. by intros ->. Qed.

Lemma tensor_mean_finite (qs : list Q) :
  qs ≠ [] →
  tensor_mean (FNum <$> qs)
  = FNum (binary32 (fold_left Qplus qs 0%Q / inject_Z (Z.of_nat (length qs)))).
Proof.
  intros Hne. unfold tensor_mean, of_int.
  rewrite fold_fadd_finite, length_fmap. unfold fdiv.
  rewrite Qis_zero_inject_Z.
  destruct qs; [done|]. simpl length.
  destruct (Z.of_nat (S (length qs)) =? 0) eqn:E; [apply Z.eqb_eq in E; lia|done].
Qed.

Lemma tensor_mean_empty : tensor_mean [] = FNaN.
Proof. reflexivity. Qed.

Lemma box_heights_finite (cs : list (Q * Q * Q * Q)) :
  box_heights (finite_box <$> cs) = FNum <$> finite_heights cs.
Proof.
  unfold box_heights, finite_heights.
  induction cs as [|c cs IH]; [done|]. csimpl. by rewrite <- IH.
Qed.

Lemma binary32_error (q : Q) :
  (Qabs (binary32 q - q) <= Qabs q * (1 # 16777216))%Q.
Proof. apply (round_to_error 24). Qed.

(** C7: the backward step raises [NotEnoughBoxes] exactly when the number
    of boxes is strictly below [min_boxes_count], and raises nothing else;
    otherwise it returns a prediction from which ['box_height'] can be read,
    with the boxes, labels, scores and every other attribute of the one it
    was given. The height read is not-a-number when there is no box; for
    [n] finite boxes, none with [ymax] below [ymin] and fewer than [2^24]
    of them, it is the mean of [ymax - ymin] over the boxes up to the
    rounding of float32: within the fraction [2 * (n + 1) / 2^24] of the
    mean. *)
Theorem BoxHeightPrediction_backward_spec (self : BoxHeightPredictionOperator)
    (prediction : Prediction) :
  let n := Z.of_nat (length (boxes prediction)) in
  (BoxHeightPrediction_backward self prediction () = Raise NotEnoughBoxes
   ↔ n < min_boxes_count self) ∧
  (∀ e, BoxHeightPrediction_backward self prediction () = Raise e → e = NotEnoughBoxes) ∧
  (min_boxes_count self ≤ n →
   ∃ out box_height,
     BoxHeightPrediction_backward self prediction () = Ok out ∧
     get_attr out "box_height" = Ok box_height ∧
     boxes out = boxes prediction ∧
     labels out = labels prediction ∧
     scores out = scores prediction ∧
     (∀ k, k ≠ "box_height" → attrs out !! k = attrs prediction !! k) ∧
     (n = 0 → box_height = FNaN) ∧
     (∀ cs : list (Q * Q * Q * Q),
        boxes prediction = finite_box <$> cs →
        Forall (λ c, c.1.1.2 <= c.2)%Q cs →
        0 < n < 2 ^ 24 →
        close (2 * (n + 1) # 16777216) box_height
          (FNum (fold_left Qplus ((λ c, c.2 - c.1.1.2)%Q <$> cs) 0%Q / inject_Z n)))).
Proof.
  cbv zeta. unfold BoxHeightPrediction_backward.
  destruct (Z.of_nat (length (boxes prediction)) <? min_boxes_count self) eqn:E.
  - apply Z.ltb_lt in E. split; [split; [done|]|split]; [done| |lia].
    intros e H. by injection H as <-.
  - apply Z.ltb_ge in E. split; [split; [done|lia]|split; [done|]].
    intros _. eexists _, _. split; [reflexivity|].
    split; [apply get_attr_Some; cbn [attrs set_attr]; apply lookup_insert_eq|].
    cbn [boxes labels scores attrs set_attr].
    split; [done|split; [done|split; [done|split; [|split]]]].
    + intros k Hk. by rewrite lookup_insert_ne.
    + intros Hn. by destruct (boxes prediction).
    + intros cs Hcs _ Hn. rewrite Hcs, box_heights_finite.
      rewrite Hcs, length_fmap in Hn.
      rewrite tensor_mean_finite by (unfold finite_heights; destruct cs; [simpl in Hn; lia|done]).
      unfold finite_heights. rewrite !length_fmap. cbn [close].
      set (m := (fold_left Qplus _ _ / _)%Q).
      eapply Qle_trans; [apply binary32_error|].
      rewrite Qmult_comm. apply Qmult_le_compat_r; [|apply Qabs_nonneg].
      unfold Qle. simpl. lia.
Qed.

Lemma BoxHeightPrediction_backward_spec_witness :
  let n := Z.of_nat (length (boxes two_boxes)) in
  ∃ out box_height,
    BoxHeightPrediction_backward (mkBoxHeightPrediction 1) two_boxes () = Ok out ∧
    get_attr out "box_height" = Ok box_height ∧
    boxes out = boxes two_boxes ∧
    labels out = labels two_boxes ∧
    scores out = scores two_boxes ∧
    (∀ k, k ≠ "box_height" → attrs out !! k = attrs two_boxes !! k) ∧
    (n = 0 → box_height = FNaN) ∧
    (∀ cs : list (Q * Q * Q * Q),
       boxes two_boxes = finite_box <$> cs →
       Forall (λ c, c.1.1.2 <= c.2)%Q cs →
       0 < n < 2 ^ 24 →
       close (2 * (n + 1) # 16777216) box_height
         (FNum (fold_left Qplus ((λ c, c.2 - c.1.1.2)%Q <$> cs) 0%Q / inject_Z n))).
Proof.
  apply (BoxHeightPrediction_backward_spec (mkBoxHeightPrediction 1) two_boxes).
  simpl. lia.
Defined.

Example BoxHeightPrediction_backward_two_boxes :
  BoxHeightPrediction_backward (mkBoxHeightPrediction 1) two_boxes ()
  = Ok (mkPrediction (boxes two_boxes) (labels two_boxes) (scores two_boxes)
          (<["box_height" := FNum 15]> ∅)).
Proof. reflexivity. Qed.

(** Heights 1, 2 and 2: the float32 nearest to 5/3. *)
Example BoxHeightPrediction_backward_thirds :
  let prediction :=
    mkPrediction [finite_box (0, 0, 1, 1)%Q; finite_box (0, 0, 1, 2)%Q;
                  finite_box (0, 0, 1, 2)%Q] [1; 1; 1] [FNum 1; FNum 1; FNum 1] ∅ in
  (λ p, attrs p !! "box_height")
    <$> BoxHeightPrediction_backward (mkBoxHeightPrediction 1) prediction ()
  = Ok (Some (FNum (13981013 # 8388608))).
Proof. reflexivity. Qed.

Example BoxHeightPrediction_backward_too_few :
  BoxHeightPrediction_backward (mkBoxHeightPrediction 3) two_boxes ()
  = Raise NotEnoughBoxes.
Proof. reflexivity. Qed.

(** ** LongRectangleCrop *)

Lemma get_attr_agree (p p' : Prediction) (k : string) :
  attrs p !! k = attrs p' !! k → get_attr p k = get_attr p' k.
Proof. unfold get_attr. by intros ->. Qed.

#[local] Arguments get_attr : simpl never.

(** The loop of [LongRectangleCropOperator.backward]. *)
Lemma collect_box_heights (data : list Prediction) (all_start_points : list (Z * Z))
    (hs : list pyfloat) :
  Forall2 (λ p h, attrs p !! "box_height" = Some h)
          (take (length all_start_points) data) hs →
  mapR (λ item : Prediction * (Z * Z), get_attr item.1 "box_height")
       (zip data all_start_points) = Ok hs.
Proof.
  revert all_start_points hs.
  induction data as [|p data IH]; intros [|o starts] hs H; simpl in *;
    try (by inversion H).
  inversion H as [|? h ? hs' Hp Hrest]; subst.
  rewrite (get_attr_Some _ _ _ Hp). simpl.
  by rewrite (IH starts hs' Hrest).
Qed.

Lemma collect_box_heights_agree (data data' : list Prediction)
    (starts starts' : list (Z * Z)) :
  length starts = length starts' →
  Forall2 (λ p p', attrs p !! "box_height" = attrs p' !! "box_height") data data' →
  mapR (λ item : Prediction * (Z * Z), get_attr item.1 "box_height") (zip data starts)
  = mapR (λ item : Prediction * (Z * Z), get_attr item.1 "box_height") (zip data' starts').
Proof.
  intros Hlen H. revert starts starts' Hlen.
  induction H as [|p p' data data' Hp Hrest IH]; intros [|o starts] [|o' starts'] Hlen;
    simpl in *; try done.
  rewrite (get_attr_agree _ _ _ Hp).
  destruct (get_attr p' "box_height"); simpl; [|done].
  by rewrite (IH starts starts') by lia.
Qed.

(** C8: the backward step returns the arithmetic mean of the
    ['box_height'] attributes of the results it is given, one per start
    point: the sum divided by their number. Nothing else enters the result:
    an operator with another [merge_iou_threshold] (or other settings) and
    results with other boxes, labels and scores give the same value, so no
    box set is merged and the threshold is never used. *)
Theorem LongRectangleCrop_backward_averages
    (self : LongRectangleCropOperator) (data : list Prediction)
    (all_start_points : list (Z * Z)) :
  (∀ hs,
     Forall2 (λ p h, attrs p !! "box_height" = Some h)
             (take (length all_start_points) data) hs →
     LongRectangleCrop_backward self data all_start_points
     = match hs with
       | [] => Raise ZeroDivisionError
       | _ => Ok (fdiv (fold_left fadd hs (of_int 0)) (of_int (Z.of_nat (length hs))))
       end) ∧
  (∀ self' data' starts',
     length all_start_points = length starts' →
     Forall2 (λ p p', attrs p !! "box_height" = attrs p' !! "box_height") data data' →
     LongRectangleCrop_backward self data all_start_points
     = LongRectangleCrop_backward self' data' starts').
Proof.
  split.
  - intros hs H. unfold LongRectangleCrop_backward.
    by rewrite (collect_box_heights _ _ hs H).
  - intros self' data' starts' Hlen H. unfold LongRectangleCrop_backward.
    by rewrite (collect_box_heights_agree data data' all_start_points starts').
Qed.

Example LongRectangleCrop_backward_two_halves :
  LongRectangleCrop_backward (mkLongRectangleCrop (13 # 10) (6 # 10) (3 # 10))
    [set_attr two_boxes "box_height" (FNum 10); set_attr two_boxes "box_height" (FNum 20)]
    [(0, 0); (800, 0)]
  = Ok (FNum (30 # 2)).
Proof. reflexivity. Qed.

(** *** The forward step *)

Lemma fle_ratio (t : Q) (a b : Z) :
  0 < b →
  fle (FNum t) (FNum (a # Z.to_pos b)) = true ↔ (t * inject_Z b <= inject_Z a)%Q.
Proof.
  intros Hb. destruct b as [|p|p]; try lia. simpl.
  rewrite Qle_bool_iff. destruct t as [n d].
  unfold Qle, Qmult, inject_Z; simpl. split; intros H; nia.
Qed.

Lemma Qmult_comm_eq (x y : Q) : (x * y)%Q = (y * x)%Q.
Proof. unfold Qmult. f_equal; [apply Z.mul_comm|apply Pos.mul_comm]. Qed.

(** The length of a crop: the fraction [split_at] of the dimension up to
    the two roundings and the truncation, and never more than the
    dimension. *)
Lemma split_length_bounds (q : Q) (d : Z) :
  (0 <= q)%Q → (q <= 1)%Q → 0 ≤ d → d < 2 ^ 24 →
  0 ≤ split_length q d ≤ d ∧
  (q * inject_Z d - (3 # 9007199254740992) * (q * inject_Z d) - 1
     < inject_Z (split_length q d)
     <= q * inject_Z d + (3 # 9007199254740992) * (q * inject_Z d))%Q.
Proof.
  intros H0 H1 Hd Hb. unfold split_length. rewrite Qmult_comm_eq.
  assert (Hdq : (0 <= inject_Z d)%Q) by (rewrite <- (Zle_Qle 0); lia).
  pose proof (rounded_product_near _ _ Hdq H0) as [V0 [V1 V2]]. cbv zeta in V0, V1, V2.
  set (v := binary64 (inject_Z d * binary64 q)) in *.
  rewrite (Qtrunc_floor v V0).
  pose proof (Qfloor_le v) as F1. pose proof (Qlt_floor v) as F2.
  rewrite inject_Z_plus in F2. change (inject_Z 1) with 1%Q in F2.
  assert (T0 : (0 <= inject_Z d * q)%Q) by (by apply Qmult_le_0_compat).
  assert (T1 : (inject_Z d * q <= inject_Z d)%Q).
  { rewrite <- (Qmult_1_r (inject_Z d)) at 2. rewrite !(Qmult_comm (inject_Z d)).
    by apply Qmult_le_compat_r. }
  assert (Hsmall : ((3 # 9007199254740992) * inject_Z d < 1)%Q).
  { assert (inject_Z d < inject_Z (2 ^ 24))%Q by (by rewrite <- Zlt_Qlt).
    change (inject_Z (2 ^ 24)) with (16777216 # 1)%Q in H. lra. }
  assert (E : (q * inject_Z d == inject_Z d * q)%Q) by ring.
  set (t := (inject_Z d * q)%Q) in *. clearbody t v.
  split.
  - assert (B : 0 ≤ Qfloor v < d + 1).
    { apply Qfloor_between; [exact V0|].
      rewrite inject_Z_plus. change (inject_Z 1) with 1%Q. lra. }
    lia.
  - rewrite E. split; lra.
Qed.

Lemma int_truediv_nonzero (a b : Z) :
  b ≠ 0 → ∃ q, int_truediv a b = Ok (FNum q).
Proof.
  intros Hb. unfold int_truediv, py_truediv, of_int, fis_zero, fdiv.
  rewrite !Qis_zero_inject_Z. destruct (b =? 0) eqn:E; [lia|]. by eexists.
Qed.

Lemma split_horizontally_ok (self : LongRectangleCropOperator) (image : Image) :
  let nh := split_length (split_at self) (height image) in
  split_horizontally self image
  = Ok ([Image_crop image (0, 0, width image, nh);
         Image_crop image (0, height image - nh, width image, height image - nh + nh)],
        [(0, 0); (0, height image - nh)]).
Proof. reflexivity. Qed.

Lemma split_vertically_ok (self : LongRectangleCropOperator) (image : Image) :
  let nw := split_length (split_at self) (width image) in
  split_vertically self image
  = Ok ([Image_crop image (0, 0, nw, height image);
         Image_crop image (width image - nw, 0, width image - nw + nw, height image)],
        [(0, 0); (width image - nw, 0)]).
Proof. reflexivity. Qed.

(** Whenever [forward] returns, it returns as many start points as images,
    one or two of them, the first start point being the origin; and the
    image does not have zero width. *)
Theorem LongRectangleCrop_forward_shape (self : LongRectangleCropOperator)
    (image : Image) (images : list Image) (start_points : list (Z * Z)) :
  LongRectangleCrop_forward self image = Ok (images, start_points) →
  length images = length start_points ∧
  (length images = 1 ∨ length images = 2)%nat ∧
  start_points !! 0%nat = Some (0, 0) ∧
  width image ≠ 0.
Proof.
  unfold LongRectangleCrop_forward. intros H.
  destruct (decide (width image = 0)) as [E|E].
  { rewrite E in H. rewrite int_truediv_zero in H. discriminate. }
  destruct (int_truediv (height image) (width image)) as [tall|]; [|done].
  rewrite result_bind_Ok in H.
  destruct (fle (FNum (ratio_threshold self)) tall).
  { pose proof (split_horizontally_ok self image) as S. cbv zeta in S.
    rewrite S in H. injection H as <- <-. auto. }
  destruct (int_truediv (width image) (height image)) as [wide|]; [|done].
  rewrite result_bind_Ok in H.
  destruct (fle (FNum (ratio_threshold self)) wide).
  { pose proof (split_vertically_ok self image) as S. cbv zeta in S.
    rewrite S in H. injection H as <- <-. auto. }
  injection H as <- <-. auto.
Qed.

Lemma LongRectangleCrop_forward_shape_witness :
  let self := mkLongRectangleCrop (13 # 10) (6 # 10) (3 # 10) in
  let image := gray_image 2000 500 in
  ∃ images start_points,
    LongRectangleCrop_forward self image = Ok (images, start_points) ∧
    length images = length start_points ∧
    (length images = 1 ∨ length images = 2)%nat ∧
    start_points !! 0%nat = Some (0, 0) ∧
    width image ≠ 0.
Proof.
  cbv zeta.
  assert (H : LongRectangleCrop_forward (mkLongRectangleCrop (13 # 10) (6 # 10) (3 # 10))
                (gray_image 2000 500)
              = Ok ([Image_crop (gray_image 2000 500) (0, 0, 1200, 500);
                     Image_crop (gray_image 2000 500) (800, 0, 2000, 500)],
                    [(0, 0); (800, 0)])) by reflexivity.
  eexists _, _. split; [exact H|].
  exact (LongRectangleCrop_forward_shape _ _ _ _ H).
Defined.

(** An image of zero width makes [forward] raise [ZeroDivisionError]; so
    does an image of zero height under a positive ratio threshold. *)
Theorem LongRectangleCrop_forward_empty_image (self : LongRectangleCropOperator)
    (image : Image) :
  (width image = 0 →
   LongRectangleCrop_forward self image = Raise ZeroDivisionError) ∧
  (height image = 0 → (0 < ratio_threshold self)%Q →
   LongRectangleCrop_forward self image = Raise ZeroDivisionError).
Proof.
  unfold LongRectangleCrop_forward. split.
  - intros ->. reflexivity.
  - intros -> Ht.
    destruct (decide (width image = 0)) as [->|E]; [reflexivity|].
    assert (Hq : int_truediv 0 (width image) = Ok (FNum (0 / inject_Z (width image)))).
    { unfold int_truediv, py_truediv, of_int, fis_zero, fdiv.
      rewrite !Qis_zero_inject_Z. destruct (width image =? 0) eqn:Z0; [lia|done]. }
    rewrite Hq, result_bind_Ok. cbn [fle].
    assert (Hle : Qle_bool (ratio_threshold self) (0 / inject_Z (width image)) = false).
    { apply not_true_iff_false. rewrite Qle_bool_iff. intros Hle.
      assert (Hz : (0 / inject_Z (width image) == 0)%Q) by (unfold Qdiv; ring).
      rewrite Hz in Hle. by apply Qle_not_lt in Hle. }
    rewrite Hle. reflexivity.
Qed.

Lemma fle_ratio_false (t : Q) (a b : Z) :
  0 < b → (inject_Z a < t * inject_Z b)%Q →
  fle (FNum t) (FNum (a # Z.to_pos b)) = false.
Proof.
  intros Hb Hlt. apply not_true_iff_false. rewrite fle_ratio by done.
  by apply Qlt_not_le.
Qed.

Lemma feq_average_one (h : pyfloat) :
  feq (fdiv (fold_left fadd [h] (of_int 0)) (of_int (Z.of_nat 1))) h.
Proof.
  destruct h as [q|s|]; simpl; [|by destruct s|done].
  unfold Qeq, Qdiv, Qmult, Qplus, Qinv; simpl. lia.
Qed.

(** An image that is longer than the threshold in neither direction goes
    through unchanged, with the origin as its only start point; the
    backward step then returns the box height of the one downstream result
    as it is. *)
Theorem LongRectangleCrop_unsplit (self : LongRectangleCropOperator) (image : Image)
    (prediction : Prediction) (box_height : pyfloat) :
  0 < width image → 0 < height image →
  (inject_Z (height image) < ratio_threshold self * inject_Z (width image))%Q →
  (inject_Z (width image) < ratio_threshold self * inject_Z (height image))%Q →
  attrs prediction !! "box_height" = Some box_height →
  LongRectangleCrop_forward self image = Ok ([image], [(0, 0)]) ∧
  ∃ out, LongRectangleCrop_backward self [prediction] [(0, 0)] = Ok out ∧
         feq out box_height.
Proof.
  intros Hw Hh Htall Hwide Hbh. split.
  - unfold LongRectangleCrop_forward.
    rewrite (int_truediv_pos (height image)), result_bind_Ok by done.
    rewrite fle_ratio_false by done.
    rewrite (int_truediv_pos (width image)), result_bind_Ok by done.
    by rewrite fle_ratio_false.
  - unfold LongRectangleCrop_backward.
    rewrite (collect_box_heights [prediction] [(0, 0)] [box_height])
      by (repeat constructor; done).
    rewrite result_bind_Ok. eexists. split; [reflexivity|]. apply feq_average_one.
Qed.

Lemma LongRectangleCrop_unsplit_witness :
  let self := mkLongRectangleCrop (13 # 10) (6 # 10) (3 # 10) in
  let image := gray_image 100 100 in
  let prediction := set_attr two_boxes "box_height" (FNum 16) in
  LongRectangleCrop_forward self image = Ok ([image], [(0, 0)]) ∧
  ∃ out, LongRectangleCrop_backward self [prediction] [(0, 0)] = Ok out ∧
         feq out (FNum 16).
Proof.
  cbv zeta.
  apply (LongRectangleCrop_unsplit (mkLongRectangleCrop (13 # 10) (6 # 10) (3 # 10))
           (gray_image 100 100) (set_attr two_boxes "box_height" (FNum 16)) (FNum 16));
    [simpl; lia|simpl; lia|reflexivity|reflexivity|reflexivity].
Defined.

(** An image at least [ratio_threshold] times as high as it is wide is cut
    into two crops of the full width and of height
    [nh = int(split_at * height)], one from the top and one ending at the
    bottom. For a [split_at] between 0 and 1 and a height below [2^24],
    [nh] is the product [split_at * height] up to its rounding and the
    truncation, both crops lie inside the image and show its pixels, and
    every row of the image is in one of them as soon as twice the crop
    height reaches the image height. *)
Theorem LongRectangleCrop_forward_tall (self : LongRectangleCropOperator) (image : Image) :
  0 < width image → 0 ≤ height image → height image < 2 ^ 24 →
  (ratio_threshold self * inject_Z (width image) <= inject_Z (height image))%Q →
  (0 <= split_at self)%Q → (split_at self <= 1)%Q →
  ∃ nh top bottom,
    LongRectangleCrop_forward self image
    = Ok ([top; bottom], [(0, 0); (0, height image - nh)]) ∧
    0 ≤ nh ≤ height image ∧
    (split_at self * inject_Z (height image)
       - (3 # 9007199254740992) * (split_at self * inject_Z (height image)) - 1
     < inject_Z nh
     <= split_at self * inject_Z (height image)
        + (3 # 9007199254740992) * (split_at self * inject_Z (height image)))%Q ∧
    (width top, height top) = (width image, nh) ∧
    (width bottom, height bottom) = (width image, nh) ∧
    (∀ i j, 0 ≤ i < width image → 0 ≤ j < nh →
       getpixel top i j = getpixel image i j ∧
       getpixel bottom i j = getpixel image i (j + (height image - nh))) ∧
    (height image ≤ 2 * nh →
     ∀ v, 0 ≤ v < height image → 0 ≤ v < nh ∨ 0 ≤ v - (height image - nh) < nh).
Proof.
  intros Hw Hh Hb Htall H0 H1.
  destruct (split_length_bounds (split_at self) (height image) H0 H1 Hh Hb) as [Hnh Hq].
  set (nh := split_length (split_at self) (height image)) in *.
  exists nh. eexists _, _.
  split; [|split; [exact Hnh|split; [exact Hq|split; [|split; [|split]]]]].
  - unfold LongRectangleCrop_forward.
    rewrite (int_truediv_pos (height image)), result_bind_Ok by done.
    assert (E : fle (FNum (ratio_threshold self))
                  (FNum (height image # Z.to_pos (width image))) = true)
      by (by apply fle_ratio).
    rewrite E. apply split_horizontally_ok.
  - simpl. f_equal; lia.
  - simpl. f_equal; lia.
  - intros i j Hi Hj. simpl.
    rewrite !(in_range_true 0 (width image)), !(in_range_true 0 (height image)) by lia.
    simpl. by rewrite !Z.add_0_r.
  - intros Hcover v Hv. lia.
Qed.

Lemma LongRectangleCrop_forward_tall_witness :
  let self := mkLongRectangleCrop (13 # 10) (7 # 10) (3 # 10) in
  let image := gray_image 50 90 in
  ∃ nh top bottom,
    LongRectangleCrop_forward self image
    = Ok ([top; bottom], [(0, 0); (0, height image - nh)]) ∧
    0 ≤ nh ≤ height image ∧
    (split_at self * inject_Z (height image)
       - (3 # 9007199254740992) * (split_at self * inject_Z (height image)) - 1
     < inject_Z nh
     <= split_at self * inject_Z (height image)
        + (3 # 9007199254740992) * (split_at self * inject_Z (height image)))%Q ∧
    (width top, height top) = (width image, nh) ∧
    (width bottom, height bottom) = (width image, nh) ∧
    (∀ i j, 0 ≤ i < width image → 0 ≤ j < nh →
       getpixel top i j = getpixel image i j ∧
       getpixel bottom i j = getpixel image i (j + (height image - nh))) ∧
    (height image ≤ 2 * nh →
     ∀ v, 0 ≤ v < height image → 0 ≤ v < nh ∨ 0 ≤ v - (height image - nh) < nh).
Proof.
  apply (LongRectangleCrop_forward_tall (mkLongRectangleCrop (13 # 10) (7 # 10) (3 # 10))
           (gray_image 50 90));
    [simpl; lia|simpl; lia|simpl; lia|discriminate|discriminate|discriminate].
Defined.

(** With [split_at = 0.7] an image of 50 by 90 is cut into crops of height
    62, not 63: the binary64 product [0.7 * 90] is just below 63. *)
Example LongRectangleCrop_forward_50_90 :
  (λ r : list Image * list (Z * Z), ((λ im, (width im, height im)) <$> r.1, r.2)) <$>
    LongRectangleCrop_forward (mkLongRectangleCrop (13 # 10) (7 # 10) (3 # 10))
      (gray_image 50 90)
  = Ok ([(50, 62); (50, 62)], [(0, 0); (0, 28)]).
Proof. vm_compute. reflexivity. Qed.

(** The same for an image that is not tall but at least [ratio_threshold]
    times as wide as it is high, along the horizontal axis. *)
Theorem LongRectangleCrop_forward_wide (self : LongRectangleCropOperator) (image : Image) :
  0 < width image → 0 < height image → width image < 2 ^ 24 →
  (inject_Z (height image) < ratio_threshold self * inject_Z (width image))%Q →
  (ratio_threshold self * inject_Z (height image) <= inject_Z (width image))%Q →
  (0 <= split_at self)%Q → (split_at self <= 1)%Q →
  ∃ nw left_half right_half,
    LongRectangleCrop_forward self image
    = Ok ([left_half; right_half], [(0, 0); (width image - nw, 0)]) ∧
    0 ≤ nw ≤ width image ∧
    (split_at self * inject_Z (width image)
       - (3 # 9007199254740992) * (split_at self * inject_Z (width image)) - 1
     < inject_Z nw
     <= split_at self * inject_Z (width image)
        + (3 # 9007199254740992) * (split_at self * inject_Z (width image)))%Q ∧
    (width left_half, height left_half) = (nw, height image) ∧
    (width right_half, height right_half) = (nw, height image) ∧
    (∀ i j, 0 ≤ i < nw → 0 ≤ j < height image →
       getpixel left_half i j = getpixel image i j ∧
       getpixel right_half i j = getpixel image (i + (width image - nw)) j) ∧
    (width image ≤ 2 * nw →
     ∀ u, 0 ≤ u < width image → 0 ≤ u < nw ∨ 0 ≤ u - (width image - nw) < nw).
Proof.
  intros Hw Hh Hb Htall Hwide H0 H1.
  assert (Hw0 : 0 ≤ width image) by lia.
  destruct (split_length_bounds (split_at self) (width image) H0 H1 Hw0 Hb) as [Hnw Hq].
  set (nw := split_length (split_at self) (width image)) in *.
  exists nw. eexists _, _.
  split; [|split; [exact Hnw|split; [exact Hq|split; [|split; [|split]]]]].
  - unfold LongRectangleCrop_forward.
    rewrite (int_truediv_pos (height image)), result_bind_Ok by done.
    rewrite fle_ratio_false by done.
    rewrite (int_truediv_pos (width image)), result_bind_Ok by done.
    assert (E : fle (FNum (ratio_threshold self))
                  (FNum (width image # Z.to_pos (height image))) = true)
      by (by apply fle_ratio).
    rewrite E. apply split_vertically_ok.
  - simpl. f_equal; lia.
  - simpl. f_equal; lia.
  - intros i j Hi Hj. simpl.
    rewrite !(in_range_true 0 (width image)), !(in_range_true 0 (height image)) by lia.
    simpl. by rewrite !Z.add_0_r.
  - intros Hcover u Hu. lia.
Qed.

Lemma LongRectangleCrop_forward_wide_witness :
  let self := mkLongRectangleCrop (13 # 10) (6 # 10) (3 # 10) in
  let image := gray_image 2000 500 in
  ∃ nw left_half right_half,
    LongRectangleCrop_forward self image
    = Ok ([left_half; right_half], [(0, 0); (width image - nw, 0)]) ∧
    0 ≤ nw ≤ width image ∧
    (split_at self * inject_Z (width image)
       - (3 # 9007199254740992) * (split_at self * inject_Z (width image)) - 1
     < inject_Z nw
     <= split_at self * inject_Z (width image)
        + (3 # 9007199254740992) * (split_at self * inject_Z (width image)))%Q ∧
    (width left_half, height left_half) = (nw, height image) ∧
    (width right_half, height right_half) = (nw, height image) ∧
    (∀ i j, 0 ≤ i < nw → 0 ≤ j < height image →
       getpixel left_half i j = getpixel image i j ∧
       getpixel right_half i j = getpixel image (i + (width image - nw)) j) ∧
    (width image ≤ 2 * nw →
     ∀ u, 0 ≤ u < width image → 0 ≤ u < nw ∨ 0 ≤ u - (width image - nw) < nw).
Proof.
  apply (LongRectangleCrop_forward_wide (mkLongRectangleCrop (13 # 10) (6 # 10) (3 # 10))
           (gray_image 2000 500));
    [simpl; lia|simpl; lia|simpl; lia|reflexivity|discriminate|discriminate|discriminate].
Defined.

(** The scenario of the specification: an image of 2000 by 500 with
    [split_at = 0.6] gives two crops of 1200 by 500 at (0, 0) and
    (800, 0). *)
Example LongRectangleCrop_forward_2000_500 :
  (λ r : list Image * list (Z * Z), ((λ im, (width im, height im)) <$> r.1, r.2)) <$>
    LongRectangleCrop_forward (mkLongRectangleCrop (13 # 10) (6 # 10) (3 # 10))
      (gray_image 2000 500)
  = Ok ([(1200, 500); (1200, 500)], [(0, 0); (800, 0)]).
Proof. vm_compute. reflexivity. Qed.

(** ** Resizing *)

Lemma Qis_zero_false (q : Q) : ¬ (q == 0)%Q → Qis_zero q = false.
Proof.
  intros H. unfold Qis_zero. apply not_true_iff_false. by rewrite Qeq_bool_iff.
Qed.

Lemma binary32_pos (q : Q) : (0 < q)%Q → (0 < binary32 q)%Q.
Proof.
  intros Hq. pose proof (binary32_error q) as H.
  rewrite (Qabs_pos q) in H by lra. apply Qabs_Qle_condition in H. lra.
Qed.

(** Scaling by a float32 factor and dividing by it again: two roundings,
    each of at most half a unit in the last place. *)
Lemma binary32_round_trip (x f : Q) :
  (0 < f)%Q →
  (Qabs (binary32 (binary32 (x * f) / f) - x) <= (3 # 16777216) * Qabs x)%Q.
Proof.
  intros Hf.
  set (a := (x * f)%Q). set (x' := binary32 a). set (b := (x' / f)%Q).
  set (y := binary32 b).
  pose proof (binary32_error a) as H1. fold x' in H1.
  pose proof (binary32_error b) as H2. fold y in H2.
  assert (Ha : (Qabs a == Qabs x * f)%Q).
  { unfold a. rewrite Qabs_Qmult, (Qabs_pos f) by lra. reflexivity. }
  assert (Hd : (Qabs (b - x) * f == Qabs (x' - a))%Q).
  { rewrite <- (Qabs_pos f) at 1 by lra. rewrite <- Qabs_Qmult.
    apply Qabs_wd. unfold b, a. field. lra. }
  assert (HD : (Qabs (b - x) <= Qabs x * (1 # 16777216))%Q).
  { apply (Qmult_le_r _ _ f Hf). rewrite Hd. rewrite Ha in H1. lra. }
  assert (Hb : (Qabs b <= Qabs x + Qabs (b - x))%Q).
  { assert (E : (b == x + (b - x))%Q) by ring. rewrite E at 1. apply Qabs_triangle. }
  assert (Hy : (Qabs (y - x) <= Qabs (y - b) + Qabs (b - x))%Q).
  { assert (E : (y - x == (y - b) + (b - x))%Q) by ring. rewrite E at 1. apply Qabs_triangle. }
  pose proof (Qabs_nonneg x). pose proof (Qabs_nonneg (b - x)).
  set (X := Qabs x) in *. set (D := Qabs (b - x)) in *.
  set (B := Qabs b) in *. set (Y := Qabs (y - x)) in *. set (E2 := Qabs (y - b)) in *.
  clearbody X D B Y E2. lra.
Qed.

Lemma tensor_round_trip (x q : Q) :
  (0 < q)%Q →
  close float32_tolerance (tensor_div (tensor_mul (FNum x) (FNum q)) (FNum q)) (FNum x).
Proof.
  intros Hq. pose proof (binary32_pos q Hq) as Hf.
  unfold tensor_div, tensor_mul. cbn [fround fmul fdiv].
  rewrite Qis_zero_false by lra. cbn [fround close].
  by apply binary32_round_trip.
Qed.

Lemma divide_scale_boxes (cs : list (Q * Q * Q * Q)) (qw qh : Q) :
  (0 < qw)%Q → (0 < qh)%Q →
  Forall2 (box_close float32_tolerance)
    (divide_boxes (scale_boxes (finite_box <$> cs) (FNum qw) (FNum qh)) (FNum qw) (FNum qh))
    (finite_box <$> cs).
Proof.
  intros Hw Hh. unfold divide_boxes, scale_boxes.
  induction cs as [|c cs IH]; csimpl; constructor; [|exact IH].
  unfold box_close, finite_box; cbn [xmin ymin xmax ymax].
  repeat split; by apply tensor_round_trip.
Qed.

Lemma divide_boxes_divided (bs : list Box) (w h : pyfloat) :
  Forall2 (box_divided w h) (divide_boxes bs w h) bs.
Proof.
  unfold divide_boxes. induction bs as [|b bs IH]; csimpl; constructor; [|exact IH].
  by unfold box_divided.
Qed.

Section ResizeProperties.
Variable Image_resize : Image → Z * Z → result Image.

Lemma ResizingImage_forward_factors (self : ResizingImageOperator) (image resized : Image)
    (factor_w factor_h : pyfloat) :
  ResizingImage_forward Image_resize self image = Ok (resized, (factor_w, factor_h)) →
  fround binary64 <$> int_truediv (width resized) (width image) = Ok factor_w ∧
  fround binary64 <$> int_truediv (height resized) (height image) = Ok factor_h.
Proof.
  unfold ResizingImage_forward. cbv zeta. intros H.
  apply result_bind_inv in H as (factor & _ & H).
  apply result_bind_inv in H as (w & _ & H).
  apply result_bind_inv in H as (h & _ & H).
  apply result_bind_inv in H as (r & _ & H).
  apply result_bind_inv in H as (rw & Hw & H).
  apply result_bind_inv in H as (rh & Hh & H).
  by injection H as <- <- <-.
Qed.

(** C9: the factors [forward] returns are the resized width over the
    original width and the resized height over the original height, as
    binary64 quotients; [backward], on a prediction that carries
    ['box_height'], divides [xmin] and [xmax] by [factor_w], [ymin] and
    [ymax] by [factor_h] and ['box_height'] by [factor_h], in the float32
    arithmetic of the tensors, and leaves labels, scores and every other
    attribute alone; hence finite boxes and a box height of the original
    frame, scaled by positive factors into the resized frame, come back
    from [backward] within [float32_tolerance] of the originals: a relative
    error of at most three units in the last place of float32, which is not
    zero in general. *)
Theorem ResizingImage_round_trip (self : ResizingImageOperator) :
  (∀ image resized factor_w factor_h,
     ResizingImage_forward Image_resize self image = Ok (resized, (factor_w, factor_h)) →
     fround binary64 <$> int_truediv (width resized) (width image) = Ok factor_w ∧
     fround binary64 <$> int_truediv (height resized) (height image) = Ok factor_h) ∧
  (∀ prediction factor_w factor_h box_height,
     attrs prediction !! "box_height" = Some box_height →
     ∃ out,
       ResizingImage_backward self prediction (factor_w, factor_h) = Ok out ∧
       Forall2 (box_divided factor_w factor_h) (boxes out) (boxes prediction) ∧
       attrs out !! "box_height" = Some (tensor_div box_height factor_h) ∧
       (∀ k, k ≠ "box_height" → attrs out !! k = attrs prediction !! k) ∧
       labels out = labels prediction ∧ scores out = scores prediction) ∧
  (∀ prediction cs (qw qh bh : Q),
     (0 < qw)%Q → (0 < qh)%Q →
     boxes prediction = finite_box <$> cs →
     ∃ restored restored_height,
       ResizingImage_backward self
         (mkPrediction (scale_boxes (boxes prediction) (FNum qw) (FNum qh))
            (labels prediction) (scores prediction)
            (<["box_height" := tensor_mul (FNum bh) (FNum qh)]> (attrs prediction)))
         (FNum qw, FNum qh) = Ok restored ∧
       Forall2 (box_close float32_tolerance) (boxes restored) (boxes prediction) ∧
       attrs restored !! "box_height" = Some restored_height ∧
       close float32_tolerance restored_height (FNum bh) ∧
       labels restored = labels prediction ∧ scores restored = scores prediction) ∧
  (∃ x q : Q,
     (0 < q)%Q ∧
     ¬ feq (tensor_div (tensor_mul (FNum x) (FNum q)) (FNum q)) (FNum x)).
Proof.
  split; [|split; [|split]].
  - intros image resized fw fh. apply ResizingImage_forward_factors.
  - intros prediction fw fh bh Hbh. unfold ResizingImage_backward.
    rewrite (get_attr_Some _ _ bh) by done. rewrite result_bind_Ok.
    eexists. split; [reflexivity|]. cbn [boxes labels scores attrs set_attr set_boxes].
    split; [apply divide_boxes_divided|].
    split; [apply lookup_insert_eq|].
    split; [|done]. intros k Hk. by apply lookup_insert_ne.
  - intros prediction cs qw qh bh Hw Hh Hcs. unfold ResizingImage_backward.
    rewrite (get_attr_Some _ _ (tensor_mul (FNum bh) (FNum qh)))
      by (cbn [attrs set_boxes]; apply lookup_insert_eq).
    rewrite result_bind_Ok. eexists _, _. split; [reflexivity|].
    cbn [boxes labels scores attrs set_attr set_boxes].
    split; [rewrite Hcs; by apply divide_scale_boxes|].
    split; [apply lookup_insert_eq|].
    split; [by apply tensor_round_trip|done].
  - exists 11%Q, (799 # 1078)%Q. split; [reflexivity|].
    vm_compute. discriminate.
Qed.

End ResizeProperties.


Example ImgRescale_forward_doubles :
  (λ r, (width r.1, height r.1, r.2)) <$>
    ImgRescale_forward plain_resize (mkImgRescale 32)
      (gray_image 100 80, set_attr two_boxes "box_height" (FNum 16))
  = Ok (200, 160, (FNum (200 # 100), FNum (160 # 80))).
Proof. reflexivity. Qed.

Example ImgRescale_forward_zero_height :
  ImgRescale_forward plain_resize (mkImgRescale 32)
    (gray_image 100 80, set_attr two_boxes "box_height" (FNum 0))
  = Raise ZeroDivisionError.
Proof. reflexivity. Qed.

Example ResizingImage_forward_landscape :
  (λ r, (width r.1, height r.1, r.2)) <$>
    ResizingImage_forward plain_resize (mkResizingImage 50) (gray_image 200 100)
  = Ok (50, 25, (FNum (1 # 4), FNum (1 # 4))).
Proof. vm_compute. reflexivity. Qed.

(** The longer side of the resized image can fall one short of
    [image_max_size]: [1078 * (800 / 1078)] is just below 800 in binary64. *)
Example ResizingImage_forward_1078_700 :
  (λ r, (width r.1, height r.1)) <$>
    ResizingImage_forward plain_resize (mkResizingImage 800) (gray_image 1078 700)
  = Ok (799, 519).
Proof. vm_compute. reflexivity. Qed.

(** ** Padding and the edges of resizing *)

(** [PaddingImageOperator.forward] returns the image on a canvas
    [padding_size] wider on every side, together with the offset
    [(padding_size, padding_size)]: for a padding that is not negative the
    call succeeds, the pixels of the image are found shifted by the offset
    and every other pixel has the padding colour. When the padded width or height
    would be negative, [Image.new] refuses it. *)
Theorem PaddingImage_forward_content (self : PaddingImageOperator) (image : Image) :
  0 ≤ width image → 0 ≤ height image →
  let p := padding_size self in
  (0 ≤ p →
   ∃ padded,
     PaddingImage_forward self image = Ok (padded, (p, p)) ∧
     width padded = width image + 2 * p ∧
     height padded = height image + 2 * p ∧
     (∀ i j, 0 ≤ i < width image → 0 ≤ j < height image →
        getpixel padded (p + i) (p + j) = getpixel image i j) ∧
     (∀ u v, ¬ (p ≤ u < p + width image ∧ p ≤ v < p + height image) →
        getpixel padded u v = padding_color self)) ∧
  (width image + 2 * p < 0 ∨ height image + 2 * p < 0 →
   PaddingImage_forward self image = Raise ValueError).
Proof.
  intros Hw Hh p. unfold PaddingImage_forward, Image_new. fold p. cbn [fst snd].
  split.
  - intros Hp.
    destruct ((width image + p + p <? 0) || (height image + p + p <? 0)) eqn:E.
    { apply orb_true_iff in E. lia. }
    rewrite result_bind_Ok. eexists. split; [reflexivity|].
    cbn [width height getpixel Image_paste fst snd].
    split; [lia|split; [lia|split]].
    + intros i j Hi Hj.
      rewrite !in_range_true by lia. cbn [andb]. f_equal; lia.
    + intros u v Hout.
      destruct (in_range p (width image) u && in_range p (height image) v) eqn:R; [|done].
      apply andb_true_iff in R. unfold in_range in R. lia.
  - intros Hneg.
    destruct ((width image + p + p <? 0) || (height image + p + p <? 0)) eqn:E; [done|].
    apply orb_false_iff in E. lia.
Qed.

Lemma PaddingImage_forward_content_witness :
  let self := mkPaddingImage 10 white in
  let image := gray_image 40 30 in
  let p := padding_size self in
  (0 ≤ p →
   ∃ padded,
     PaddingImage_forward self image = Ok (padded, (p, p)) ∧
     width padded = width image + 2 * p ∧
     height padded = height image + 2 * p ∧
     (∀ i j, 0 ≤ i < width image → 0 ≤ j < height image →
        getpixel padded (p + i) (p + j) = getpixel image i j) ∧
     (∀ u v, ¬ (p ≤ u < p + width image ∧ p ≤ v < p + height image) →
        getpixel padded u v = padding_color self)) ∧
  (width image + 2 * p < 0 ∨ height image + 2 * p < 0 →
   PaddingImage_forward self image = Raise ValueError).
Proof.
  apply (PaddingImage_forward_content (mkPaddingImage 10 white) (gray_image 40 30));
    simpl; lia.
Defined.

(** [ImgRescaleOperator.backward] divides the boxes by the scales, in the
    float32 arithmetic of the tensor, and changes nothing else: finite
    boxes that were scaled by positive factors from another frame come back
    within [float32_tolerance] of what they were in that frame, and labels,
    scores and attributes are as they were. *)
Theorem ImgRescale_backward_round_trip (self : ImgRescaleOperator)
    (prediction : Prediction) (cs : list (Q * Q * Q * Q)) (qw qh : Q) :
  (0 < qw)%Q → (0 < qh)%Q →
  boxes prediction = finite_box <$> cs →
  ∃ restored,
    ImgRescale_backward self
      (mkPrediction (scale_boxes (boxes prediction) (FNum qw) (FNum qh))
         (labels prediction) (scores prediction) (attrs prediction))
      (FNum qw, FNum qh) = Ok restored ∧
    Forall2 (box_divided (FNum qw) (FNum qh)) (boxes restored)
      (scale_boxes (boxes prediction) (FNum qw) (FNum qh)) ∧
    Forall2 (box_close float32_tolerance) (boxes restored) (boxes prediction) ∧
    labels restored = labels prediction ∧
    scores restored = scores prediction ∧
    attrs restored = attrs prediction.
Proof.
  intros Hw Hh Hcs. eexists. split; [reflexivity|].
  cbn [boxes labels scores attrs set_boxes].
  split; [apply divide_boxes_divided|].
  split; [rewrite Hcs; by apply divide_scale_boxes|done].
Qed.

Lemma ImgRescale_backward_round_trip_witness :
  ∃ restored,
    ImgRescale_backward (mkImgRescale 32)
      (mkPrediction (scale_boxes (boxes two_boxes) (FNum (799 # 1078)) (FNum (519 # 700)))
         (labels two_boxes) (scores two_boxes) (attrs two_boxes))
      (FNum (799 # 1078), FNum (519 # 700)) = Ok restored ∧
    Forall2 (box_divided (FNum (799 # 1078)) (FNum (519 # 700))) (boxes restored)
      (scale_boxes (boxes two_boxes) (FNum (799 # 1078)) (FNum (519 # 700))) ∧
    Forall2 (box_close float32_tolerance) (boxes restored) (boxes two_boxes) ∧
    labels restored = labels two_boxes ∧
    scores restored = scores two_boxes ∧
    attrs restored = attrs two_boxes.
Proof.
  apply (ImgRescale_backward_round_trip (mkImgRescale 32) two_boxes
           [(2, 3, 12, 23); (20, 5, 30, 15)]%Q (799 # 1078) (519 # 700)); reflexivity.
Defined.

(** [ResizingImageOperator.backward] raises [KeyError] exactly on a
    prediction without the attribute ['box_height'], and raises nothing
    else. *)
Theorem ResizingImage_backward_missing_height (self : ResizingImageOperator)
    (prediction : Prediction) (factor : pyfloat * pyfloat) :
  (ResizingImage_backward self prediction factor = Raise KeyError
   ↔ attrs prediction !! "box_height" = None) ∧
  (∀ e, ResizingImage_backward self prediction factor = Raise e → e = KeyError).
Proof.
  destruct factor as [fw fh]. unfold ResizingImage_backward, get_attr.
  cbn [attrs set_boxes].
  destruct (attrs prediction !! "box_height") as [h|] eqn:E.
  - rewrite result_bind_Ok. split; [split; done|]. intros e H. discriminate.
  - split; [done|]. intros e H. by injection H as <-.
Qed.

Section ZeroSized.
Variable Image_resize : Image → Z * Z → result Image.

Lemma size_ratio_zero (new image : Image) :
  width image = 0 ∨ height image = 0 → size_ratio new image = Raise ZeroDivisionError.
Proof.
  unfold size_ratio. intros [E|E]; rewrite E.
  - by rewrite int_truediv_zero.
  - rewrite int_truediv_zero.
    destruct (int_truediv (width new) (width image)) as [a|e] eqn:D; [done|].
    unfold int_truediv, py_truediv in D.
    destruct (fis_zero (of_int (width image))); [by injection D as <-|done].
Qed.

(** Neither resizing stage ever returns from [forward] on an image of zero
    width or zero height: the final division by the original size, if
    nothing before it, raises. *)
Theorem resizing_forward_needs_size (image : Image) :
  width image = 0 ∨ height image = 0 →
  (∀ self r, ResizingImage_forward Image_resize self image ≠ Ok r) ∧
  (∀ self prediction r, ImgRescale_forward Image_resize self (image, prediction) ≠ Ok r).
Proof.
  intros Hz. split.
  - intros self r H. unfold ResizingImage_forward in H. cbv zeta in H.
    apply result_bind_inv in H as (factor & _ & H).
    apply result_bind_inv in H as (w & _ & H).
    apply result_bind_inv in H as (h & _ & H).
    apply result_bind_inv in H as (resized & _ & H).
    apply result_bind_inv in H as (rw & Hw & H).
    apply result_bind_inv in H as (rh & Hh & H).
    destruct Hz as [E|E]; rewrite E, int_truediv_zero in *; discriminate.
  - intros self prediction r. unfold ImgRescale_forward.
    destruct (get_attr prediction "box_height") as [h|]; [|done]. rewrite result_bind_Ok.
    destruct (py_truediv _ h) as [scale|]; [|done]. rewrite result_bind_Ok.
    destruct (scaled_size image scale) as [size|]; [|done]. rewrite result_bind_Ok.
    destruct (Image_resize image size) as [resized|]; [|done]. rewrite result_bind_Ok.
    by rewrite size_ratio_zero.
Qed.
End ZeroSized.

Lemma resizing_forward_needs_size_witness :
  (∀ self r, ResizingImage_forward plain_resize self (gray_image 0 30) ≠ Ok r) ∧
  (∀ self prediction r,
     ImgRescale_forward plain_resize self (gray_image 0 30, prediction) ≠ Ok r).
Proof.
  apply (resizing_forward_needs_size plain_resize (gray_image 0 30)). left. reflexivity.
Defined.

(** ** Box heights through the resizing stages *)

(** Enough boxes do not make the measured height usable: when the heights
    of the boxes sum to zero (boxes of no height, for one),
    [BoxHeightPredictionOperator.backward] accepts the prediction and
    [ImgRescaleOperator.forward], given its result, raises
    [ZeroDivisionError]. *)
Theorem flat_boxes_stop_rescale
    (measure : BoxHeightPredictionOperator) (rescale : ImgRescaleOperator)
    (Image_resize : Image → Z * Z → result Image) (image : Image)
    (prediction : Prediction) (cs : list (Q * Q * Q * Q)) :
  boxes prediction = finite_box <$> cs →
  cs ≠ [] →
  min_boxes_count measure ≤ Z.of_nat (length cs) →
  (fold_left Qplus (finite_heights cs) 0%Q == 0)%Q →
  ∃ measured,
    BoxHeightPrediction_backward measure prediction () = Ok measured ∧
    ImgRescale_forward Image_resize rescale (image, measured) = Raise ZeroDivisionError.
Proof.
  intros Hb Hne Hmin Hsum.
  unfold BoxHeightPrediction_backward. rewrite Hb, length_fmap.
  destruct (Z.of_nat (length cs) <? min_boxes_count measure) eqn:E; [lia|].
  eexists. split; [reflexivity|].
  unfold ImgRescale_forward.
  rewrite (get_attr_Some _ _ (tensor_mean (box_heights (finite_box <$> cs))))
    by (cbn [attrs set_attr]; apply lookup_insert_eq).
  rewrite result_bind_Ok, box_heights_finite.
  rewrite tensor_mean_finite by (unfold finite_heights; by destruct cs).
  unfold py_truediv. cbn [fis_zero].
  assert (Hz : Qis_zero (binary32 (fold_left Qplus (finite_heights cs) 0%Q
                         / inject_Z (Z.of_nat (length (finite_heights cs))))) = true).
  { unfold binary32. rewrite round_to_zero; [done|]. rewrite Hsum. unfold Qdiv. ring. }
  by rewrite Hz.
Qed.

Lemma flat_boxes_stop_rescale_witness :
  let prediction := mkPrediction [finite_box (0, 5, 10, 5)%Q] [1] [FNum (9 # 10)] ∅ in
  ∃ measured,
    BoxHeightPrediction_backward (mkBoxHeightPrediction 1) prediction () = Ok measured ∧
    ImgRescale_forward plain_resize (mkImgRescale 32) (gray_image 100 80, measured)
    = Raise ZeroDivisionError.
Proof.
  apply (flat_boxes_stop_rescale (mkBoxHeightPrediction 1) (mkImgRescale 32) plain_resize
           (gray_image 100 80)
           (mkPrediction [finite_box (0, 5, 10, 5)%Q] [1] [FNum (9 # 10)] ∅)
           [(0, 5, 10, 5)%Q]);
    [reflexivity|discriminate|simpl; lia|reflexivity].
Defined.

(** ** The stack discipline of operator calls *)

Section Discipline.
Local Open Scope nat_scope.

Lemma balanced_app (t1 t2 : list event) :
  balanced t1 → balanced t2 → balanced (t1 ++ t2).
Proof.
  induction 1 as [|k a inner rest Hi IHi Hr IHr]; intros H2; [done|].
  simpl. rewrite <- app_assoc. simpl. constructor; [done|by apply IHr].
Qed.

Lemma forward_calls_app (t1 t2 : list event) :
  forward_calls (t1 ++ t2) = forward_calls t1 ++ forward_calls t2.
Proof. apply omap_app. Qed.

Lemma backward_calls_app (t1 t2 : list event) :
  backward_calls (t1 ++ t2) = backward_calls t1 ++ backward_calls t2.
Proof. apply omap_app. Qed.

Lemma forward_calls_bound (P : nat → Prop) (tr : list event) :
  Forall (λ e, P (event_invocation e)) tr → Forall P (forward_calls tr).
Proof.
  induction 1 as [|e tr He _ IH]; [constructor|].
  destruct e; simpl; [constructor|]; done.
Qed.

Lemma balanced_calls (tr : list event) :
  balanced tr → backward_calls tr ≡ₚ forward_calls tr.
Proof.
  induction 1 as [|k a inner rest _ IHi _ IHr]; [done|].
  change (Forward k a :: inner ++ Backward k a :: rest)
    with ([Forward k a] ++ inner ++ [Backward k a] ++ rest).
  rewrite !backward_calls_app, !forward_calls_app. simpl.
  rewrite IHi, IHr. by rewrite <- Permutation_middle.
Qed.

Lemma balanced_backward_has_forward (tr : list event) (k : nat) (a : value) :
  balanced tr → Backward k a ∈ tr → Forward k a ∈ tr.
Proof.
  induction 1 as [|k' a' inner rest _ IHi _ IHr]; intros Hin.
  - by apply elem_of_nil in Hin.
  - apply elem_of_cons in Hin as [Hin|Hin]; [done|].
    apply elem_of_app in Hin as [Hin|Hin].
    { apply list_elem_of_further, elem_of_app. left. by apply IHi. }
    apply elem_of_cons in Hin as [Hin|Hin].
    { injection Hin as -> ->. apply list_elem_of_here. }
    apply list_elem_of_further, elem_of_app. right.
    apply list_elem_of_further. by apply IHr.
Qed.

Lemma forward_unique (tr : list event) (k : nat) (a a' : value) :
  NoDup (forward_calls tr) → Forward k a ∈ tr → Forward k a' ∈ tr → a = a'.
Proof.
  induction tr as [|e tr IH]; intros Hnd H1 H2.
  - by apply elem_of_nil in H1.
  - assert (Hk : ∀ b, Forward k b ∈ tr → k ∈ forward_calls tr).
    { intros b Hb. apply (list_elem_of_omap forward_of). by exists (Forward k b). }
    destruct e as [k0 a0|k0 a0]; simpl in Hnd.
    + apply NoDup_cons in Hnd as [Hnotin Hnd].
      apply elem_of_cons in H1 as [H1|H1]; apply elem_of_cons in H2 as [H2|H2].
      * congruence.
      * injection H1 as -> ->. destruct Hnotin. by apply (Hk a').
      * injection H2 as -> ->. destruct Hnotin. by apply (Hk a).
      * by apply IH.
    + apply elem_of_cons in H1 as [H1|H1]; [done|].
      apply elem_of_cons in H2 as [H2|H2]; [done|]. by apply IH.
Qed.

Lemma bind_Ok {A B : Type} (m : M A) (f : A → M B) (s : state) (b : B) (s' : state) :
  (m ≫= f) s = Ok (b, s') → ∃ a s1, m s = Ok (a, s1) ∧ f a s1 = Ok (b, s').
Proof.
  unfold mbind, M_bind. destruct (m s) as [[a s1]|e]; [|done].
  intros H. by exists a, s1.
Qed.

Lemma segment_quiet (s s' : state) :
  trace s' = trace s → invocations s' = invocations s → segment s s' [].
Proof.
  intros Ht Hi. unfold segment. rewrite Ht, Hi, app_nil_r.
  repeat split; try done; try constructor. simpl. lia.
Qed.

Lemma segment_app (s s1 s2 : state) (t1 t2 : list event) :
  segment s s1 t1 → segment s1 s2 t2 → segment s s2 (t1 ++ t2).
Proof.
  intros (Ht1 & Hb1 & Hi1 & Hr1 & Hn1 & Hl1) (Ht2 & Hb2 & Hi2 & Hr2 & Hn2 & Hl2).
  unfold segment. split; [|split; [|split; [|split; [|split]]]].
  - by rewrite Ht2, Ht1, app_assoc.
  - by apply balanced_app.
  - lia.
  - apply Forall_app. split.
    + eapply Forall_impl; [exact Hr1|]. simpl. intros e He. lia.
    + eapply Forall_impl; [exact Hr2|]. simpl. intros e He. lia.
  - rewrite forward_calls_app. apply NoDup_app. split; [done|split; [|done]].
    intros k Hk1 Hk2.
    apply (forward_calls_bound (λ k, invocations s ≤ k < invocations s1)) in Hr1.
    apply (forward_calls_bound (λ k, invocations s1 ≤ k < invocations s2)) in Hr2.
    rewrite Forall_forall in Hr1, Hr2.
    specialize (Hr1 k Hk1). specialize (Hr2 k Hk2). lia.
  - rewrite forward_calls_app, length_app. lia.
Qed.

(** The segment of one [ChainOperator.__call__]: the states are the one
    before the call, the ones around the next operator and the ones around
    what the backward step itself calls. *)
Lemma segment_call (s s2 s3 s4 s5 : state) (a : value) (tn tb : list event) :
  trace s2 = trace s ++ [Forward (invocations s) a] →
  invocations s2 = S (invocations s) →
  segment s2 s3 tn →
  trace s4 = trace s3 ++ [Backward (invocations s) a] →
  invocations s4 = invocations s3 →
  segment s4 s5 tb →
  segment s s5 (Forward (invocations s) a :: tn ++ Backward (invocations s) a :: tb).
Proof.
  intros Ht2 Hi2 (Htn & Hbn & Hin & Hrn & Hnn & Hln) Ht4 Hi4
         (Htb & Hbb & Hib & Hrb & Hnb & Hlb).
  unfold segment. split; [|split; [|split; [|split; [|split]]]].
  - rewrite Htb, Ht4, Htn, Ht2. rewrite <- !app_assoc. reflexivity.
  - by constructor.
  - lia.
  - constructor; [simpl; lia|]. apply Forall_app. split.
    + eapply Forall_impl; [exact Hrn|]. simpl. intros e He. lia.
    + constructor; [simpl; lia|].
      eapply Forall_impl; [exact Hrb|]. simpl. intros e He. lia.
  - change (Forward (invocations s) a :: tn ++ Backward (invocations s) a :: tb)
      with ([Forward (invocations s) a] ++ tn ++ [Backward (invocations s) a] ++ tb).
    rewrite !forward_calls_app. simpl.
    apply (forward_calls_bound (λ k, invocations s2 ≤ k < invocations s3)) in Hrn.
    apply (forward_calls_bound (λ k, invocations s4 ≤ k < invocations s5)) in Hrb.
    rewrite Forall_forall in Hrn, Hrb.
    apply NoDup_cons. split.
    + intros Hin'. apply elem_of_app in Hin' as [H|H].
      * specialize (Hrn _ H). lia.
      * specialize (Hrb _ H). lia.
    + apply NoDup_app. split; [done|split; [|done]].
      intros k Hk1 Hk2. specialize (Hrn k Hk1). specialize (Hrb k Hk2). lia.
  - change (Forward (invocations s) a :: tn ++ Backward (invocations s) a :: tb)
      with ([Forward (invocations s) a] ++ tn ++ [Backward (invocations s) a] ++ tb).
    rewrite !forward_calls_app, !length_app. simpl. lia.
Qed.

Lemma quiet_lift {A : Type} (r : result A) : quiet (lift r).
Proof. intros s a s'. unfold lift. destruct r; [|done]. by intros [= _ <-]. Qed.

Lemma quiet_run_method {A : Type} (m : method A) : quiet (run_method m).
Proof.
  intros s a s'. unfold run_method. destruct (m (fields s)) as [[x f]|]; [|done].
  by intros [= _ <-].
Qed.

Lemma quiet_Branching_forward (self : nat) (data : value) :
  quiet (Branching_forward self data).
Proof. intros s a s'. unfold Branching_forward. by intros [= _ <-]. Qed.

Lemma ChainOperator_call_disciplined
    (fwd : value → M (value * value)) (bwd : value → value → M value)
    (next_operator : operator) :
  (∀ d, quiet (fwd d)) →
  (∀ a, disciplined (λ d, bwd d a)) →
  disciplined next_operator →
  disciplined (ChainOperator_call fwd bwd next_operator).
Proof.
  intros Hf Hb Hn d s r s' Hrun. unfold ChainOperator_call in Hrun.
  apply bind_Ok in Hrun as (k & s1 & Hk & Hrun).
  injection Hk as <- <-.
  apply bind_Ok in Hrun as ([d1 a] & s2 & Hfwd & Hrun).
  apply Hf in Hfwd as [Ht2 Hi2]. simpl in Ht2, Hi2.
  apply bind_Ok in Hrun as ([] & s3 & Ho & Hrun). injection Ho as <-.
  apply bind_Ok in Hrun as (d2 & s4 & Hnext & Hrun).
  apply Hn in Hnext as [tn Hsn].
  apply bind_Ok in Hrun as ([] & s5 & Ho & Hrun). injection Ho as <-.
  apply (Hb a) in Hrun as [tb Hsb].
  exists (Forward (invocations s) a :: tn ++ Backward (invocations s) a :: tb).
  eapply segment_call; [| |exact Hsn| | |exact Hsb]; simpl; try done.
  by rewrite Ht2.
Qed.

Lemma mapM_disciplined (next_operator : operator) (items : list value) (s : state)
    (rs : list value) (s' : state) :
  disciplined next_operator →
  mapM next_operator items s = Ok (rs, s') → ∃ tr, segment s s' tr.
Proof.
  intros Hn. revert s rs.
  induction items as [|x items IH]; intros s rs Hrun; simpl in Hrun.
  - injection Hrun as <- <-. exists []. by apply segment_quiet.
  - apply bind_Ok in Hrun as (y & s1 & Hx & Hrun).
    apply bind_Ok in Hrun as (ys & s2 & Hrest & Hrun).
    injection Hrun as <- <-.
    apply Hn in Hx as [t1 H1]. apply IH in Hrest as [t2 H2].
    exists (t1 ++ t2). by eapply segment_app.
Qed.

Lemma SplittingOperator_call_disciplined (next_operator : operator) :
  disciplined next_operator → disciplined (SplittingOperator_call next_operator).
Proof.
  intros Hn d s r s' Hrun. unfold SplittingOperator_call in Hrun.
  apply bind_Ok in Hrun as (items & s1 & Hit & Hrun).
  apply quiet_lift in Hit as [Ht Hi].
  apply bind_Ok in Hrun as (rs & s2 & Hmap & Hrun).
  injection Hrun as <- <-.
  apply (mapM_disciplined _ _ _ _ _ Hn) in Hmap as [tr Hs].
  exists tr. replace tr with ([] ++ tr) by done.
  eapply segment_app; [by apply segment_quiet|done].
Qed.

Lemma run_batches_disciplined (next_operator : operator) (batches : list (list value))
    (results : list value) (s : state) (rs : list value) (s' : state) :
  disciplined next_operator →
  run_batches next_operator batches results s = Ok (rs, s') → ∃ tr, segment s s' tr.
Proof.
  intros Hn. revert results s.
  induction batches as [|batch batches IH]; intros results s Hrun; simpl in Hrun.
  - injection Hrun as <- <-. exists []. by apply segment_quiet.
  - apply bind_Ok in Hrun as (out & s1 & Hb & Hrun).
    apply bind_Ok in Hrun as (items & s2 & Hit & Hrun).
    apply Hn in Hb as [t1 H1]. apply quiet_lift in Hit as [Ht Hi].
    apply IH in Hrun as [t2 H2].
    exists (t1 ++ ([] ++ t2)).
    eapply segment_app; [exact H1|].
    eapply segment_app; [by apply segment_quiet|exact H2].
Qed.

Lemma BatchingOperator_call_disciplined (next_operator : operator) (batch_size : Z) :
  disciplined next_operator →
  disciplined (BatchingOperator_call next_operator batch_size).
Proof.
  intros Hn d s r s' Hrun. unfold BatchingOperator_call in Hrun.
  apply bind_Ok in Hrun as (items & s1 & Hit & Hrun).
  apply quiet_lift in Hit as [Ht Hi].
  destruct (batch_size <? 1)%Z; [done|].
  apply bind_Ok in Hrun as (rs & s2 & Hb & Hrun).
  injection Hrun as <- <-.
  apply (run_batches_disciplined _ _ _ _ _ _ Hn) in Hb as [tr Hs].
  exists ([] ++ tr). eapply segment_app; [by apply segment_quiet|done].
Qed.

Lemma FinalOperator_call_disciplined : disciplined FinalOperator_call.
Proof.
  intros d s r s' Hrun. injection Hrun as <- <-. exists []. by apply segment_quiet.
Qed.

Lemma Stage_call_disciplined (st : Stage) (next_operator : operator) :
  disciplined next_operator → disciplined (Stage_call st next_operator).
Proof.
  intros Hn. apply ChainOperator_call_disciplined; [| |done].
  - intros d. apply quiet_run_method.
  - intros a d s r s' Hrun. apply quiet_run_method in Hrun as [Ht Hi].
    exists []. by apply segment_quiet.
Qed.

Lemma BranchingOperator_call_disciplined (self : nat)
    (next_operator branch_operator : operator) :
  disciplined next_operator → disciplined branch_operator →
  disciplined (BranchingOperator_call self next_operator branch_operator).
Proof.
  intros Hn Hb. apply ChainOperator_call_disciplined; [| |done].
  - intros d. apply quiet_Branching_forward.
  - intros a d s r s' Hrun. unfold Branching_backward in Hrun.
    apply bind_Ok in Hrun as (saved & s1 & Hg & Hrun).
    assert (s1 = s) as ->.
    { unfold get_field in Hg. by destruct (fields s !! self); injection Hg as <- <-. }
    by apply Hb in Hrun.
Qed.

Lemma call_disciplined (p : pipeline) : disciplined (call p).
Proof.
  induction p as [|st next IH|next IH|next IH batch_size|self next IHn branch IHb]; simpl.
  - apply FinalOperator_call_disciplined.
  - by apply Stage_call_disciplined.
  - by apply SplittingOperator_call_disciplined.
  - by apply BatchingOperator_call_disciplined.
  - by apply BranchingOperator_call_disciplined.
Qed.

Lemma call_object_disciplined (depth : nat) (heap : gmap nat object) (self : nat) :
  disciplined (call_object depth heap self).
Proof.
  revert self. induction depth as [|depth IH]; intros self; simpl.
  - intros d s r s' Hrun. done.
  - destruct (heap !! self) as [[|st next|next|next batch_size|next branch]|].
    + apply FinalOperator_call_disciplined.
    + by apply Stage_call_disciplined.
    + by apply SplittingOperator_call_disciplined.
    + by apply BatchingOperator_call_disciplined.
    + by apply BranchingOperator_call_disciplined.
    + intros d s r s' Hrun. done.
Qed.

(** One [ChainOperator.__call__] that returns, step by step. *)
Lemma ChainOperator_call_Ok
    (fwd : value → M (value * value)) (bwd : value → value → M value)
    (next_operator : operator) (data : value) (s : state) (r : value) (s' : state) :
  ChainOperator_call fwd bwd next_operator data s = Ok (r, s') →
  ∃ data1 addition s1 data2 s2,
    fwd data (mkState (fields s) (S (invocations s)) (trace s))
    = Ok ((data1, addition), s1) ∧
    next_operator data1
      (mkState (fields s1) (invocations s1) (trace s1 ++ [Forward (invocations s) addition]))
    = Ok (data2, s2) ∧
    bwd data2 addition
      (mkState (fields s2) (invocations s2) (trace s2 ++ [Backward (invocations s) addition]))
    = Ok (r, s').
Proof.
  intros Hrun. unfold ChainOperator_call in Hrun.
  apply bind_Ok in Hrun as (k & s0 & Hk & Hrun). injection Hk as <- <-.
  apply bind_Ok in Hrun as ([d1 a] & s1 & Hfwd & Hrun).
  apply bind_Ok in Hrun as ([] & s2 & Ho & Hrun). injection Ho as <-.
  apply bind_Ok in Hrun as (d2 & s3 & Hnext & Hrun).
  apply bind_Ok in Hrun as ([] & s4 & Ho & Hrun). injection Ho as <-.
  by exists d1, a, s1, d2, s3.
Qed.

Lemma run_method_Ok {A : Type} (m : method A) (s : state) (a : A) (s' : state) :
  run_method m s = Ok (a, s') →
  ∃ f, m (fields s) = Ok (a, f) ∧ s' = mkState f (invocations s) (trace s).
Proof.
  unfold run_method. destruct (m (fields s)) as [[x f]|]; [|done].
  intros [= <- <-]. by exists f.
Qed.

Lemma Stage_call_Ok (st : Stage) (next_operator : operator) (data : value) (s : state)
    (r : value) (s' : state) :
  Stage_call st next_operator data s = Ok (r, s') →
  ∃ data1 addition fields1 data2 s2 fields3,
    forward st data (fields s) = Ok ((data1, addition), fields1) ∧
    next_operator data1
      (mkState fields1 (S (invocations s)) (trace s ++ [Forward (invocations s) addition]))
    = Ok (data2, s2) ∧
    backward st data2 addition (fields s2) = Ok (r, fields3) ∧
    s' = mkState fields3 (invocations s2)
           (trace s2 ++ [Backward (invocations s) addition]).
Proof.
  intros Hrun. apply ChainOperator_call_Ok in Hrun as (d1 & a & s1 & d2 & s2 & Hf & Hn & Hb).
  apply run_method_Ok in Hf as (f1 & Hf & ->).
  apply run_method_Ok in Hb as (f3 & Hb & ->).
  by exists d1, a, f1, d2, s2, f3.
Qed.

Lemma BranchingOperator_call_Ok (self : nat) (next_operator branch_operator : operator)
    (data : value) (s : state) (r : value) (s' : state) :
  BranchingOperator_call self next_operator branch_operator data s = Ok (r, s') →
  ∃ data2 s2,
    next_operator data
      (mkState (<[self := data]> (fields s)) (S (invocations s))
         (trace s ++ [Forward (invocations s) VNone]))
    = Ok (data2, s2) ∧
    branch_operator (VTuple [default VNone (fields s2 !! self); data2])
      (mkState (fields s2) (invocations s2) (trace s2 ++ [Backward (invocations s) VNone]))
    = Ok (r, s').
Proof.
  intros Hrun. apply ChainOperator_call_Ok in Hrun as (d1 & a & s1 & d2 & s2 & Hf & Hn & Hb).
  injection Hf as <- <- <-. cbn [fields invocations trace] in Hn.
  exists d2, s2. split; [done|].
  unfold Branching_backward in Hb.
  apply bind_Ok in Hb as (saved & s3 & Hg & Hb).
  unfold get_field in Hg. cbn [fields] in Hg.
  by destruct (fields s2 !! self); injection Hg as <- <-.
Qed.

(** C1: whatever pipeline is built from stages, [SplittingOperator],
    [BatchingOperator] and [BranchingOperator], a call that completes adds to
    the observations a trace in which every invocation of
    [ChainOperator.__call__] begun during the call has exactly one forward
    and exactly one backward step (as many forward steps as backward steps,
    and as many as invocations), forward and backward steps nest like
    brackets, and the backward step of an invocation is entered with the
    very context its own forward step returned: no other forward step of
    the trace carries that invocation's number. What the trace records is
    what the methods are given: the call of a stage is one call of its
    [forward] on the input, then the call of the next operator on the data
    [forward] returned, then one call of its [backward] on what the next
    operator returned and on the context that this [forward] returned, and
    the result is what [backward] returns; the same holds of a
    [BranchingOperator], whose context is [None]. Every invocation inside
    the call is itself a completed call of a part of the pipeline. *)
Theorem stack_discipline (p : pipeline) (data : value) (s : state)
    (result : value) (s' : state) :
  call p data s = Ok (result, s') →
  (∃ tr,
     trace s' = trace s ++ tr ∧
     balanced tr ∧
     NoDup (forward_calls tr) ∧
     backward_calls tr ≡ₚ forward_calls tr ∧
     length (forward_calls tr) = length (backward_calls tr) ∧
     length (forward_calls tr) = invocations s' - invocations s ∧
     ∀ k a, Backward k a ∈ tr →
            Forward k a ∈ tr ∧ ∀ a', Forward k a' ∈ tr → a' = a) ∧
  (∀ st next_operator,
     p = ChainStage st next_operator →
     ∃ data1 addition fields1 data2 s2 fields3,
       forward st data (fields s) = Ok ((data1, addition), fields1) ∧
       call next_operator data1
         (mkState fields1 (S (invocations s))
            (trace s ++ [Forward (invocations s) addition]))
       = Ok (data2, s2) ∧
       backward st data2 addition (fields s2) = Ok (result, fields3) ∧
       s' = mkState fields3 (invocations s2)
              (trace s2 ++ [Backward (invocations s) addition])) ∧
  (∀ self next_operator branch_operator,
     p = BranchingOperator self next_operator branch_operator →
     ∃ data2 s2,
       call next_operator data
         (mkState (<[self := data]> (fields s)) (S (invocations s))
            (trace s ++ [Forward (invocations s) VNone]))
       = Ok (data2, s2) ∧
       call branch_operator (VTuple [default VNone (fields s2 !! self); data2])
         (mkState (fields s2) (invocations s2)
            (trace s2 ++ [Backward (invocations s) VNone]))
       = Ok (result, s')).
Proof.
  intros Hrun. split; [|split].
  - apply call_disciplined in Hrun as (tr & Ht & Hb & _ & _ & Hn & Hl).
    exists tr. split; [done|split; [done|split; [done|]]].
    pose proof (balanced_calls tr Hb) as Hp.
    split; [done|split; [by rewrite Hp|split; [done|]]].
    intros k a Hin. pose proof (balanced_backward_has_forward tr k a Hb Hin) as Hf.
    split; [done|]. intros a' Hf'. by apply (forward_unique tr k).
  - intros st next_operator ->. cbn [call] in Hrun. by apply Stage_call_Ok.
  - intros self next_operator branch_operator ->. cbn [call] in Hrun.
    by apply BranchingOperator_call_Ok.
Qed.

Lemma stack_discipline_witness :
  ∃ result s',
    call measuring_pipeline (VImage (gray_image 40 30)) initial = Ok (result, s') ∧
    (∃ tr,
       trace s' = trace initial ++ tr ∧
       balanced tr ∧
       NoDup (forward_calls tr) ∧
       backward_calls tr ≡ₚ forward_calls tr ∧
       length (forward_calls tr) = length (backward_calls tr) ∧
       length (forward_calls tr) = invocations s' - invocations initial ∧
       ∀ k a, Backward k a ∈ tr →
              Forward k a ∈ tr ∧ ∀ a', Forward k a' ∈ tr → a' = a) ∧
    (∀ st next_operator,
       measuring_pipeline = ChainStage st next_operator →
       ∃ data1 addition fields1 data2 s2 fields3,
         forward st (VImage (gray_image 40 30)) (fields initial)
         = Ok ((data1, addition), fields1) ∧
         call next_operator data1
           (mkState fields1 (S (invocations initial))
              (trace initial ++ [Forward (invocations initial) addition]))
         = Ok (data2, s2) ∧
         backward st data2 addition (fields s2) = Ok (result, fields3) ∧
         s' = mkState fields3 (invocations s2)
                (trace s2 ++ [Backward (invocations initial) addition])) ∧
    (∀ self next_operator branch_operator,
       measuring_pipeline = BranchingOperator self next_operator branch_operator →
       ∃ data2 s2,
         call next_operator (VImage (gray_image 40 30))
           (mkState (<[self := VImage (gray_image 40 30)]> (fields initial))
              (S (invocations initial))
              (trace initial ++ [Forward (invocations initial) VNone]))
         = Ok (data2, s2) ∧
         call branch_operator (VTuple [default VNone (fields s2 !! self); data2])
           (mkState (fields s2) (invocations s2)
              (trace s2 ++ [Backward (invocations initial) VNone]))
         = Ok (result, s')).
Proof.
  eexists _, _. split; [vm_compute; reflexivity|].
  eapply (stack_discipline measuring_pipeline (VImage (gray_image 40 30)) initial).
  vm_compute. reflexivity.
Defined.

Example example_pipeline_trace :
  (λ r, trace r.2) <$> call example_pipeline example_input initial
  = Ok [Forward 0 VNone;
        Forward 1 (VTuple [VInt 10; VInt 10]);
        Forward 2 VNone; Backward 2 VNone;
        Backward 1 (VTuple [VInt 10; VInt 10]);
        Backward 0 VNone;
        Forward 3 VNone;
        Forward 4 (VTuple [VInt 10; VInt 10]);
        Forward 5 VNone; Backward 5 VNone;
        Backward 4 (VTuple [VInt 10; VInt 10]);
        Backward 3 VNone].
Proof. vm_compute. reflexivity. Qed.

(** The discipline holds of operator objects in general, cycles included:
    [addition] is a local variable of [__call__]. A call of a stage object
    that completes is one call of its [forward], the call of the object in
    [next_operator] and one call of its [backward], on the context that
    this [forward] returned. *)
Theorem stack_discipline_objects (depth : nat) (heap : gmap nat object) (self : nat)
    (data : value) (s : state) (result : value) (s' : state) :
  call_object depth heap self data s = Ok (result, s') →
  (∃ tr,
     trace s' = trace s ++ tr ∧
     balanced tr ∧
     NoDup (forward_calls tr) ∧
     backward_calls tr ≡ₚ forward_calls tr ∧
     length (forward_calls tr) = invocations s' - invocations s ∧
     ∀ k a, Backward k a ∈ tr →
            Forward k a ∈ tr ∧ ∀ a', Forward k a' ∈ tr → a' = a) ∧
  (∀ st next_operator,
     heap !! self = Some (OStage st next_operator) →
     ∃ depth' data1 addition fields1 data2 s2 fields3,
       depth = S depth' ∧
       forward st data (fields s) = Ok ((data1, addition), fields1) ∧
       call_object depth' heap next_operator data1
         (mkState fields1 (S (invocations s))
            (trace s ++ [Forward (invocations s) addition]))
       = Ok (data2, s2) ∧
       backward st data2 addition (fields s2) = Ok (result, fields3) ∧
       s' = mkState fields3 (invocations s2)
              (trace s2 ++ [Backward (invocations s) addition])) ∧
  (∀ next_operator branch_operator,
     heap !! self = Some (OBranching next_operator branch_operator) →
     ∃ depth' data2 s2,
       depth = S depth' ∧
       call_object depth' heap next_operator data
         (mkState (<[self := data]> (fields s)) (S (invocations s))
            (trace s ++ [Forward (invocations s) VNone]))
       = Ok (data2, s2) ∧
       call_object depth' heap branch_operator
         (VTuple [default VNone (fields s2 !! self); data2])
         (mkState (fields s2) (invocations s2)
            (trace s2 ++ [Backward (invocations s) VNone]))
       = Ok (result, s')).
Proof.
  intros Hrun. split; [|split].
  - apply call_object_disciplined in Hrun as (tr & Ht & Hb & _ & _ & Hn & Hl).
    exists tr. split; [done|split; [done|split; [done|]]].
    split; [by apply balanced_calls|split; [done|]].
    intros k a Hin. split; [by apply balanced_backward_has_forward|].
    intros a' Hf'. apply (forward_unique tr k); [done|done|].
    by apply balanced_backward_has_forward.
  - intros st next_operator Hself. destruct depth as [|depth']; [done|].
    cbn [call_object] in Hrun. rewrite Hself in Hrun.
    apply Stage_call_Ok in Hrun as (d1 & a & f1 & d2 & s2 & f3 & H).
    by exists depth', d1, a, f1, d2, s2, f3.
  - intros next_operator branch_operator Hself. destruct depth as [|depth']; [done|].
    cbn [call_object] in Hrun. rewrite Hself in Hrun.
    apply BranchingOperator_call_Ok in Hrun as (d2 & s2 & H).
    by exists depth', d2, s2.
Qed.

Lemma stack_discipline_objects_witness :
  ∃ result s',
    call_object 10 reentrant_heap 0 (VList [VList []]) initial = Ok (result, s') ∧
    (∃ tr,
       trace s' = trace initial ++ tr ∧
       balanced tr ∧
       NoDup (forward_calls tr) ∧
       backward_calls tr ≡ₚ forward_calls tr ∧
       length (forward_calls tr) = invocations s' - invocations initial ∧
       ∀ k a, Backward k a ∈ tr →
              Forward k a ∈ tr ∧ ∀ a', Forward k a' ∈ tr → a' = a) ∧
    (∀ st next_operator,
       reentrant_heap !! 0%nat = Some (OStage st next_operator) →
       ∃ depth' data1 addition fields1 data2 s2 fields3,
         10%nat = S depth' ∧
         forward st (VList [VList []]) (fields initial) = Ok ((data1, addition), fields1) ∧
         call_object depth' reentrant_heap next_operator data1
           (mkState fields1 (S (invocations initial))
              (trace initial ++ [Forward (invocations initial) addition]))
         = Ok (data2, s2) ∧
         backward st data2 addition (fields s2) = Ok (result, fields3) ∧
         s' = mkState fields3 (invocations s2)
                (trace s2 ++ [Backward (invocations initial) addition])) ∧
    (∀ next_operator branch_operator,
       reentrant_heap !! 0%nat = Some (OBranching next_operator branch_operator) →
       ∃ depth' data2 s2,
         10%nat = S depth' ∧
         call_object depth' reentrant_heap next_operator (VList [VList []])
           (mkState (<[0%nat := VList [VList []]]> (fields initial))
              (S (invocations initial))
              (trace initial ++ [Forward (invocations initial) VNone]))
         = Ok (data2, s2) ∧
         call_object depth' reentrant_heap branch_operator
           (VTuple [default VNone (fields s2 !! 0%nat); data2])
           (mkState (fields s2) (invocations s2)
              (trace s2 ++ [Backward (invocations initial) VNone]))
         = Ok (result, s')).
Proof.
  eexists _, _. split; [vm_compute; reflexivity|].
  eapply (stack_discipline_objects 10 reentrant_heap 0 (VList [VList []]) initial).
  vm_compute. reflexivity.
Defined.

(** An object graph closed into a cycle by an assignment to
    [next_operator] after construction: the object at address 0 is entered
    again, through its own [next_operator], while its first invocation is
    pending. The first invocation saved the input [[[]]]; the nested one
    overwrote [self.data] with [[]]; the backward step of the first
    invocation then joined [[]], the input of the nested invocation, with
    the downstream result. The contexts passed through [addition] stay
    paired all the while. No pipeline built by the constructors alone is
    entered in this way. *)
Theorem BranchingOperator_reentrant_overwrites :
  ∃ s',
    call_object 10 reentrant_heap 0 (VList [VList []]) initial
    = Ok (VTuple [VList []; VList [VTuple [VList []; VList []]]], s') ∧
    fields s' !! 0 = Some (VList []) ∧
    trace s' = [Forward 0 VNone; Forward 1 VNone; Backward 1 VNone; Backward 0 VNone].
Proof. eexists. split; [vm_compute; reflexivity|]. split; reflexivity. Qed.









(** Two invocations of one [BranchingOperator] in a row, as a
    [SplittingOperator] makes them: each joins its own input. *)
Example BranchingOperator_repeated :
  fst <$> call pairing_pipeline (VList [VInt 1; VInt 2]) initial
  = Ok (VList [VTuple [VInt 1; VInt 1]; VTuple [VInt 2; VInt 2]]).
Proof. reflexivity. Qed.

End Discipline.

(** ** Fan-out and the propagation of exceptions *)

Lemma mapM_fanned_out (next_operator : operator) (items outs : list value) (s s' : state) :
  mapM next_operator items s = Ok (outs, s') ↔ fanned_out next_operator s items outs s'.
Proof.
  split.
  - revert s outs. induction items as [|x items IH]; intros s outs H; simpl in H.
    + injection H as <- <-. constructor.
    + apply bind_Ok in H as (y & s1 & Hx & H).
      apply bind_Ok in H as (ys & s2 & Hrest & H). injection H as <- <-.
      econstructor; [exact Hx|by apply IH].
  - induction 1 as [|s x items y ys s1 s2 Hx _ IH]; [done|].
    simpl. unfold mbind, M_bind. rewrite Hx. fold (@mbind M _).
    unfold mbind, M_bind in *. by rewrite IH.
Qed.

Lemma fanned_out_length (next_operator : operator) (s s' : state) (items outs : list value) :
  fanned_out next_operator s items outs s' → length outs = length items.
Proof. induction 1; simpl; congruence. Qed.

Lemma fanned_out_lookup (next_operator : operator) (s s' : state) (items outs : list value)
    (i : nat) (item : value) :
  fanned_out next_operator s items outs s' → items !! i = Some item →
  ∃ out s1 s2, outs !! i = Some out ∧ next_operator item s1 = Ok (out, s2).
Proof.
  intros H. revert i. induction H as [|s x items y ys s1 s2 Hx _ IH]; intros i Hi.
  - done.
  - destruct i as [|i]; simpl in *.
    + injection Hi as ->. by exists y, s, s1.
    + by apply IH.
Qed.

(** [SplittingOperator] returns on a list exactly when the next operator
    accepts the items one after the other, each from the state the one
    before left; the result is then the list of the per-item results, as
    long as the input and in its order. A tuple is treated as the list of
    its items, and the result is a list all the same. *)
Theorem SplittingOperator_call_results (next_operator : operator) (items : list value)
    (s : state) (r : value) (s' : state) :
  (SplittingOperator_call next_operator (VList items) s = Ok (r, s') ↔
   ∃ outs,
     r = VList outs ∧
     fanned_out next_operator s items outs s' ∧
     length outs = length items ∧
     ∀ i item, items !! i = Some item →
       ∃ out s1 s2, outs !! i = Some out ∧ next_operator item s1 = Ok (out, s2)) ∧
  SplittingOperator_call next_operator (VTuple items) s
  = SplittingOperator_call next_operator (VList items) s.
Proof.
  split; [|reflexivity].
  unfold SplittingOperator_call. split.
  - intros H. apply bind_Ok in H as (l & s1 & Hit & H).
    injection Hit as <- <-.
    apply bind_Ok in H as (outs & s2 & Hmap & H). injection H as <- <-.
    apply mapM_fanned_out in Hmap.
    exists outs. split; [done|split; [done|split]].
    + by eapply fanned_out_length.
    + intros i item Hi. by eapply fanned_out_lookup.
  - intros (outs & -> & Hf & _).
    apply mapM_fanned_out in Hf.
    unfold mbind, M_bind, lift. cbn [py_iter]. unfold mbind, M_bind in Hf.
    by rewrite Hf.
Qed.

Lemma mapM_app_Raise (next_operator : operator) (done_ rest : list value) (x : value)
    (outs : list value) (s s1 : state) (e : exn) :
  fanned_out next_operator s done_ outs s1 →
  next_operator x s1 = Raise e →
  mapM next_operator (done_ ++ x :: rest) s = Raise e.
Proof.
  induction 1 as [|s y items out outs s0 s1 Hy _ IH]; intros Hx; simpl.
  - unfold mbind, M_bind. by rewrite Hx.
  - unfold mbind, M_bind. rewrite Hy. fold (@mbind M _).
    unfold mbind, M_bind in *. by rewrite IH.
Qed.

(** [SplittingOperator] stops at the first item on which the next operator
    raises and raises the same exception, whatever items follow. *)
Theorem SplittingOperator_call_fail_fast (next_operator : operator)
    (processed rest : list value) (item : value) (outs : list value)
    (s s1 : state) (e : exn) :
  fanned_out next_operator s processed outs s1 →
  next_operator item s1 = Raise e →
  SplittingOperator_call next_operator (VList (processed ++ item :: rest)) s = Raise e ∧
  SplittingOperator_call next_operator (VTuple (processed ++ item :: rest)) s = Raise e.
Proof.
  intros Hf Hx. pose proof (mapM_app_Raise _ _ rest _ _ _ _ _ Hf Hx) as H.
  unfold SplittingOperator_call, mbind, M_bind, lift in *. cbn [py_iter].
  by rewrite H.
Qed.

Lemma SplittingOperator_call_fail_fast_witness :
  let next_operator := SplittingOperator_call FinalOperator_call in
  SplittingOperator_call next_operator
    (VList ([VList [VInt 1]] ++ VInt 2 :: [VList []])) initial = Raise TypeError ∧
  SplittingOperator_call next_operator
    (VTuple ([VList [VInt 1]] ++ VInt 2 :: [VList []])) initial = Raise TypeError.
Proof.
  apply (SplittingOperator_call_fail_fast (SplittingOperator_call FinalOperator_call)
           [VList [VInt 1]] [VList []] (VInt 2) [VList [VInt 1]] initial initial TypeError).
  - eapply fanned_out_cons; [reflexivity|apply fanned_out_nil].
  - reflexivity.
Defined.


(** [ChainOperator.__call__] catches nothing: the call of a stage raises
    exactly when its [forward] raises on the input, or the next operator
    raises on the data [forward] returned, or its [backward] raises on what
    the next operator returned, and it raises that very exception; after a
    step that raised, no later step runs. *)
Theorem Stage_call_raises (st : Stage) (next_operator : operator) (data : value)
    (s : state) (e : exn) :
  Stage_call st next_operator data s = Raise e ↔
  forward st data (fields s) = Raise e ∨
  ∃ data1 addition fields1,
    forward st data (fields s) = Ok ((data1, addition), fields1) ∧
    let s1 := mkState fields1 (S (invocations s))
                (trace s ++ [Forward (invocations s) addition]) in
    (next_operator data1 s1 = Raise e ∨
     ∃ data2 s2,
       next_operator data1 s1 = Ok (data2, s2) ∧
       backward st data2 addition (fields s2) = Raise e).
Proof.
  unfold Stage_call, ChainOperator_call, mbind, M_bind, new_invocation, observe, run_method.
  cbn [fields invocations trace].
  destruct (forward st data (fields s)) as [[[d1 a] f1]|e1] eqn:Hf.
  - cbn [fields invocations trace].
    destruct (next_operator d1 _) as [[d2 s2]|e2] eqn:Hn.
    + cbn [fields invocations trace].
      destruct (backward st d2 a (fields s2)) as [[r f3]|e3] eqn:Hb.
      * split; [done|]. intros [?|(? & ? & ? & [= <- <- <-] & [H|(? & ? & H1 & H2)])]; [done| |].
        -- cbv zeta in H. congruence.
        -- cbv zeta in H1. rewrite Hn in H1. injection H1 as <- <-. congruence.
      * split.
        -- intros [= ->]. right. exists d1, a, f1. split; [done|]. right.
           by exists d2, s2.
        -- intros [?|(? & ? & ? & [= <- <- <-] & [H|(? & ? & H1 & H2)])]; [done| |].
           ++ cbv zeta in H. congruence.
           ++ cbv zeta in H1. rewrite Hn in H1. injection H1 as <- <-. congruence.
    + split.
      * intros [= ->]. right. exists d1, a, f1. split; [done|]. by left.
      * intros [?|(? & ? & ? & [= <- <- <-] & [H|(? & ? & H1 & H2)])]; [done| |].
        -- cbv zeta in H. congruence.
        -- cbv zeta in H1. congruence.
  - split.
    + intros [= ->]. by left.
    + intros [H|(? & ? & ? & ? & _)]; congruence.
Qed.

(** A measurement that finds no box stops the pipeline around it: the
    exception of the inner [backward] comes out of the outer call, whose own
    [backward] never runs. *)
Example NotEnoughBoxes_propagates :
  call (SplittingOperator
          (ChainStage (PaddingImage_stage (mkPaddingImage 10 white))
             (ChainStage (BoxHeightPrediction_stage blind_region_model
                            (mkBoxHeightPrediction 1))
                FinalOperator)))
       (VList [VImage (gray_image 40 30)]) initial
  = Raise NotEnoughBoxes.
Proof. reflexivity. Qed.

(** ** Batched letter detection *)

Lemma split_sequence_upto_fmap {A B : Type} (h : A → B) (fuel : nat) (data : list A) (n : nat) :
  split_sequence_upto fuel (h <$> data) n = fmap (M := list) h <$> split_sequence_upto fuel data n.
Proof.
  revert data. induction fuel as [|fuel IH]; intros data; [by destruct data|].
  destruct data as [|x data]; [done|].
  change (h <$> x :: data) with (h x :: (h <$> data)).
  cbn [split_sequence_upto]. rewrite fmap_cons. f_equal.
  - by rewrite <- fmap_cons, fmap_take.
  - rewrite <- IH. f_equal. by rewrite <- fmap_cons, fmap_drop.
Qed.

Lemma mapR_as_image (images : list Image) : mapR as_image (VImage <$> images) = Ok images.
Proof.
  induction images as [|im images IH]; [done|].
  rewrite fmap_cons. cbn [mapR]. simpl. by rewrite IH.
Qed.

Lemma LetterDetection_call_batch (letter_model : list Image → result (list Prediction))
    (batch : list Image) (out : list Prediction) (s : state) :
  letter_model batch = Ok out →
  call (ChainStage (LetterDetection_stage letter_model) FinalOperator)
       (VList (VImage <$> batch)) s
  = Ok (VList (VPred <$> out),
        mkState (fields s) (S (invocations s))
                (trace s ++ [Forward (invocations s) VNone; Backward (invocations s) VNone])).
Proof.
  intros Hm. cbn [call]. unfold Stage_call, ChainOperator_call, FinalOperator_call.
  unfold mbind, M_bind, mret, M_ret, new_invocation, run_method, observe.
  cbn [forward backward LetterDetection_stage fields invocations trace py_iter].
  rewrite result_bind_Ok, mapR_as_image, result_bind_Ok.
  unfold LetterDetection_forward. rewrite Hm.
  cbn. by rewrite <- app_assoc.
Qed.

Lemma LetterDetection_run_batches (letter_model : list Image → result (list Prediction))
    (batches : list (list Image)) (outs : list (list Prediction))
    (results : list value) (s : state) :
  Forall2 (λ batch out, letter_model batch = Ok out) batches outs →
  ∃ s',
    run_batches (call (ChainStage (LetterDetection_stage letter_model) FinalOperator))
                (fmap (M := list) VImage <$> batches) results s
    = Ok (results ++ (VPred <$> concat outs), s') ∧
    fields s' = fields s ∧
    invocations s' = (invocations s + length batches)%nat.
Proof.
  intros H. revert results s.
  induction H as [|batch out batches outs Hm _ IH]; intros results s.
  - exists s. cbn. rewrite app_nil_r. split; [done|]. split; [done|lia].
  - rewrite fmap_cons. cbn [run_batches]. unfold mbind at 1, M_bind at 1.
    rewrite (LetterDetection_call_batch _ _ _ _ Hm).
    unfold mbind at 1, M_bind at 1. cbn [lift py_iter].
    destruct (IH (results ++ (VPred <$> out))
                 (mkState (fields s) (S (invocations s))
                    (trace s ++ [Forward (invocations s) VNone;
                                 Backward (invocations s) VNone])))
      as (s' & Hrun & Hf & Hi).
    exists s'. rewrite Hrun. cbn [concat]. rewrite fmap_app, app_assoc.
    split; [done|]. split; [exact Hf|]. rewrite Hi. cbn. lia.
Qed.

(** A batched letter detector calls the model once per batch, on the whole
    batch, and returns the model's predictions of all batches in one list,
    in order; it touches no instance attribute. *)
Theorem LetterDetection_batched (letter_model : list Image → result (list Prediction))
    (batch_size : Z) (images : list Image) (outs : list (list Prediction)) (s : state) :
  1 ≤ batch_size →
  Forall2 (λ batch out, letter_model batch = Ok out)
          (split_sequence images (Z.to_nat batch_size)) outs →
  ∃ s',
    call (BatchingOperator (ChainStage (LetterDetection_stage letter_model) FinalOperator)
                           batch_size)
         (VList (VImage <$> images)) s
    = Ok (VList (VPred <$> concat outs), s') ∧
    fields s' = fields s ∧
    invocations s' = (invocations s + length outs)%nat.
Proof.
  intros HB H.
  destruct (LetterDetection_run_batches letter_model _ _ [] s H) as (s' & Hrun & Hf & Hi).
  exists s'. split; [|split; [exact Hf|]].
  - cbn [call]. unfold BatchingOperator_call.
    unfold mbind at 1, M_bind at 1. cbn [lift py_iter].
    destruct (batch_size <? 1) eqn:E; [lia|].
    unfold split_sequence. rewrite length_fmap, split_sequence_upto_fmap.
    unfold mbind, M_bind. fold (split_sequence images (Z.to_nat batch_size)).
    cbn [call] in Hrun. by rewrite Hrun.
  - rewrite Hi. by rewrite (Forall2_length _ _ _ H).
Qed.

Lemma LetterDetection_batched_witness :
  let images := [gray_image 40 30; gray_image 20 50; gray_image 10 10] in
  let outs := [[two_boxes; two_boxes]; [two_boxes]] in
  ∃ s',
    call (BatchingOperator (ChainStage (LetterDetection_stage toy_region_model) FinalOperator)
                           2)
         (VList (VImage <$> images)) initial
    = Ok (VList (VPred <$> concat outs), s') ∧
    fields s' = fields initial ∧
    invocations s' = (invocations initial + length outs)%nat.
Proof.
  apply (LetterDetection_batched toy_region_model 2
           [gray_image 40 30; gray_image 20 50; gray_image 10 10]
           [[two_boxes; two_boxes]; [two_boxes]] initial);
    [lia|repeat constructor].
Defined.

(** The first batch the model fails on ends the call with the model's
    exception. *)
Theorem LetterDetection_batched_failure (letter_model : list Image → result (list Prediction))
    (batch_size : Z) (images : list Image) (done_ : list (list Image))
    (outs : list (list Prediction)) (batch : list Image) (rest : list (list Image))
    (e : exn) (s : state) :
  1 ≤ batch_size →
  split_sequence images (Z.to_nat batch_size) = done_ ++ batch :: rest →
  Forall2 (λ batch out, letter_model batch = Ok out) done_ outs →
  letter_model batch = Raise e →
  call (BatchingOperator (ChainStage (LetterDetection_stage letter_model) FinalOperator)
                         batch_size)
       (VList (VImage <$> images)) s
  = Raise e.
Proof.
  intros HB Hsplit Hdone Hfail.
  cbn [call]. unfold BatchingOperator_call.
  unfold mbind at 1, M_bind at 1. cbn [lift py_iter].
  destruct (batch_size <? 1) eqn:E; [lia|].
  unfold split_sequence. rewrite length_fmap, split_sequence_upto_fmap.
  fold (split_sequence images (Z.to_nat batch_size)). rewrite Hsplit.
  unfold mbind, M_bind.
  assert (G : ∀ results s0,
    run_batches (call (ChainStage (LetterDetection_stage letter_model) FinalOperator))
                (fmap (M := list) VImage <$> (done_ ++ batch :: rest)) results s0 = Raise e).
  { clear Hsplit. induction Hdone as [|b out bs os Hm _ IH]; intros results s0.
    - cbn [app fmap list_fmap run_batches]. unfold mbind at 1, M_bind at 1.
      cbn [call]. unfold Stage_call, ChainOperator_call.
      unfold mbind, M_bind, new_invocation, run_method.
      cbn [forward backward LetterDetection_stage fields invocations trace py_iter].
      change (list_fmap Image value VImage batch) with (VImage <$> batch).
      rewrite result_bind_Ok, mapR_as_image, result_bind_Ok.
      unfold LetterDetection_forward. by rewrite Hfail.
    - rewrite <- app_comm_cons, fmap_cons. cbn [run_batches].
      unfold mbind at 1, M_bind at 1.
      rewrite (LetterDetection_call_batch _ _ _ _ Hm).
      unfold mbind at 1, M_bind at 1. cbn [lift py_iter]. apply IH. }
  cbn [call] in G. by rewrite G.
Qed.

Lemma LetterDetection_batched_failure_witness :
  call (BatchingOperator (ChainStage (LetterDetection_stage pairs_only_model) FinalOperator)
                         2)
       (VList (VImage <$> [gray_image 40 30; gray_image 20 50; gray_image 10 10])) initial
  = Raise ValueError.
Proof.
  apply (LetterDetection_batched_failure pairs_only_model 2
           [gray_image 40 30; gray_image 20 50; gray_image 10 10]
           [[gray_image 40 30; gray_image 20 50]] [[two_boxes; two_boxes]]
           [gray_image 10 10] [] ValueError initial);
    [lia|reflexivity|repeat constructor|reflexivity].
Defined.
